(** * Frontier search over an occupancy grid (explore/src/frontier_search.cpp)

    A shallow embedding of [FrontierSearch]: its constructor, the grid-wide
    breadth-first search [searchFrom], the region builder
    [buildNewFrontier], the cell test [isNewFrontierCell] and the cost
    function [frontierCost], with the properties the specification states
    about them and further properties of the code.

    Conventions.
    - [double] is the kernel's binary64 [float]; every arithmetic operation
      and comparison of the source is the IEEE operation of the same name.
    - Cell indices ([unsigned int]) are [nat]: the file forms no index by
      arithmetic of its own, indices come from the costmap and from the
      neighbourhood helpers.  The declarations of frontier_search.h are not
      among the sources; the size of a frontier and the cached grid sizes
      are the counts that section 3 of the specification describes.
    - [std::vector<bool>] flag arrays are [list bool] read with [!!] and
      written with [<[i:=true]>]; [std::queue] is a list, pushed at the back
      and popped at the front.
    - The costmap is locked for the whole of a search, so the cell array
      the search caches is the one of the costmap; the lock itself is not
      modelled.
    - Loops carry fuel; the theorems show that the fuel the model passes is
      always enough.
    - [std::sort], [nav2_costmap_2d::Costmap2D] and tf2 are libraries: in
      [searchFrom] the first is its contract, the second is modelled by its
      definitions, the third is a parameter.  The worked examples run the
      algorithm of [std::sort] in libstdc++.
    - [static_cast<unsigned int>] of a [double] is the truncation where C++
      defines the conversion, and a parameter of the model where it does
      not.  The worked examples run the conversion of x86-64. *)

From Stdlib Require Import ZArith Lia List Bool Permutation Sorted.
From Stdlib Require Import Floats.PrimFloat Floats.FloatOps Floats.SpecFloat.
From Stdlib Require Import Floats.FloatAxioms.
From Stdlib Require Import Numbers.Cyclic.Int63.Uint63.
From stdpp Require Import base option list sorting.

Local Open Scope nat_scope.

(** ** Numbers *)

(** Conversion of an [unsigned int] to [double] (exact below 2^53). *)
Definition of_nat (n : nat) : float :=
  PrimFloat.of_uint63 (Uint63.of_Z (Z.of_nat n)).

(** [static_cast<unsigned int>] of a [double] where C++ defines it:
    truncation toward zero, for a value whose truncation the target can
    hold.  For NaN, the infinities and every other value the language
    leaves the conversion undefined: [None]. *)
Definition truncation (f : float) : option N :=
  match Prim2SF f with
  | S754_zero _ => Some 0%N
  | S754_finite false m e =>
      let v := if (0 <=? e)%Z then (Z.pos m * 2 ^ e)%Z
               else (Z.pos m / 2 ^ (- e))%Z in
      if (v <? 2 ^ 32)%Z then Some (Z.to_N v) else None
  | S754_finite true m e =>
      if (e <? 0)%Z && (Z.pos m <? 2 ^ (- e))%Z then Some 0%N else None
  | _ => None
  end.

(** The conversion as a build carries it out.  Where C++ defines the
    conversion, every build yields the truncation.  Elsewhere the language
    fixes nothing, the program does not test for it, and the code that
    follows goes on with whatever number the conversion left: that number
    is a parameter of the model. *)
Class UnsignedCast := {
  to_unsigned : float → N;
  to_unsigned_defined : ∀ f n, truncation f = Some n → to_unsigned f = n
}.

(** The conversion of x86-64 builds, [cvttsd2si] into a 64-bit register of
    which the low 32 bits are kept: the truncation toward zero, as a signed
    64-bit integer, modulo 2^32; and 0, the low half of the "integer
    indefinite" value 2^63, for NaN, the infinities and the values whose
    truncation a signed 64-bit integer cannot hold. *)
Definition cvttsd2si_low32 (f : float) : N :=
  match Prim2SF f with
  | S754_finite s m e =>
      let v := if (0 <=? e)%Z then (Z.pos m * 2 ^ e)%Z
               else (Z.pos m / 2 ^ (- e))%Z in
      if (v <? 2 ^ 63)%Z
      then Z.to_N ((if s then - v else v) mod 2 ^ 32)
      else 0%N
  | _ => 0%N
  end.

(** ** Messages (geometry_msgs) *)

Module Point.
Record t := mk { x : float; y : float; z : float }.
End Point.

Module Quaternion.
Record t := mk { x : float; y : float; z : float; w : float }.
End Quaternion.

Module Pose.
Record t := mk { position : Point.t; orientation : Quaternion.t }.
End Pose.

(** Default-constructed messages: a zero point, the identity rotation. *)
Definition Point0 : Point.t := Point.mk 0 0 0.
Definition Quaternion0 : Quaternion.t := Quaternion.mk 0 0 0 1.

(** ** The occupancy grid (nav2_costmap_2d::Costmap2D)

    The costmap is the external collaborator of the search.  The record
    holds what the search reads; the accessors follow the library's
    definitions. *)

Definition FREE_SPACE : nat := 0.
Definition LETHAL_OBSTACLE : nat := 254.
Definition NO_INFORMATION : nat := 255.

Record Costmap2D := mkCostmap {
  size_x : nat;
  size_y : nat;
  resolution : float;
  origin_x : float;
  origin_y : float;
  charmap : list nat
}.

Definition getSizeInCellsX (c : Costmap2D) : nat := size_x c.
Definition getSizeInCellsY (c : Costmap2D) : nat := size_y c.
Definition getResolution (c : Costmap2D) : float := resolution c.
Definition getCharMap (c : Costmap2D) : list nat := charmap c.

Definition getIndex (c : Costmap2D) (mx my : nat) : nat := my * size_x c + mx.

Definition indexToCells (c : Costmap2D) (index : nat) : nat * nat :=
  let my := index / size_x c in
  (index - my * size_x c, my).

Definition mapToWorld (c : Costmap2D) (mx my : nat) : float * float :=
  ((origin_x c + (of_nat mx + 0.5) * resolution c)%float,
   (origin_y c + (of_nat my + 0.5) * resolution c)%float).

Definition worldToMap {uc : UnsignedCast} (c : Costmap2D) (wx wy : float)
    : option (nat * nat) :=
  if (wx <? origin_x c)%float || (wy <? origin_y c)%float then None
  else
    let mx := to_unsigned ((wx - origin_x c) / resolution c)%float in
    let my := to_unsigned ((wy - origin_y c) / resolution c)%float in
    if (mx <? N.of_nat (size_x c))%N && (my <? N.of_nat (size_y c))%N
    then Some (N.to_nat mx, N.to_nat my)
    else None.

(** Reading the raw cell array, [map_[idx]].  A costmap has one entry per
    cell, and the search reads at the cells it dequeues and at their
    neighbours, all cells of the grid ([start_cell_on_grid],
    [visit_nhood4_queue_on_grid], [grow_nhood8_queue_on_grid]); past the
    end of the array, where the source has no defined value, the model
    reads 0. *)
Definition cell_at (m : list nat) (idx : nat) : nat := default 0 (m !! idx).

(** Reading a flag array, [flag[idx]]; past its end the model reads [false]. *)
Definition flag_at (v : list bool) (idx : nat) : bool := default false (v !! idx).

(** ** Neighbourhoods (explore/costmap_tools.h) *)

(** Modelled from the spec: [nhood4] of costmap_tools.h, which is not among
    the sources.  Section 4.1: for an in-bounds cell index, the
    orthogonally adjacent cell indices that lie within the grid, in a fixed
    order (here: left, right, up, down); nothing for an index off the grid. *)
Definition nhood4 (idx : nat) (c : Costmap2D) : list nat :=
  let sx := size_x c in
  let sy := size_y c in
  if sx * sy <=? idx then []
  else
    (if 0 <? idx mod sx then [idx - 1] else []) ++
    (if idx mod sx <? sx - 1 then [idx + 1] else []) ++
    (if sx <=? idx then [idx - sx] else []) ++
    (if idx <? sx * (sy - 1) then [idx + sx] else []).

(** Modelled from the spec: [nhood8] of costmap_tools.h.  Section 4.1: all
    eight surrounding cell indices that lie within the grid; the four
    orthogonal ones first, then the diagonals. *)
Definition nhood8 (idx : nat) (c : Costmap2D) : list nat :=
  let sx := size_x c in
  let sy := size_y c in
  if sx * sy <=? idx then []
  else
    nhood4 idx c ++
    (if (0 <? idx mod sx) && (sx <=? idx) then [idx - 1 - sx] else []) ++
    (if (0 <? idx mod sx) && (idx <? sx * (sy - 1)) then [idx - 1 + sx] else []) ++
    (if (idx mod sx <? sx - 1) && (sx <=? idx) then [idx + 1 - sx] else []) ++
    (if (idx mod sx <? sx - 1) && (idx <? sx * (sy - 1)) then [idx + 1 + sx] else []).

(** Column and row of a cell index, as [indexToCells] splits it. *)
Definition cell_col (c : Costmap2D) (idx : nat) : nat := idx mod size_x c.
Definition cell_row (c : Costmap2D) (idx : nat) : nat := idx / size_x c.

(** [b] is a cell of the grid orthogonally adjacent to the cell [a]. *)
Definition adjacent4 (c : Costmap2D) (a b : nat) : Prop :=
  a < size_x c * size_y c ∧ b < size_x c * size_y c ∧
  ((cell_row c a = cell_row c b ∧
    (cell_col c b + 1 = cell_col c a ∨ cell_col c a + 1 = cell_col c b)) ∨
   (cell_col c a = cell_col c b ∧
    (cell_row c b + 1 = cell_row c a ∨ cell_row c a + 1 = cell_row c b))).

(** ** Frontiers (explore/frontier_search.h) *)

(** The output record.  [cost] is assigned by [searchFrom] only, and only
    to a frontier that passes the minimum size: [None] is the field before
    that assignment. *)
Module Frontier.
Record t := mk {
  size : nat;
  min_distance : float;
  cost : option float;
  initial : Point.t;
  centroid : Point.t;
  middle : Point.t;
  points : list Point.t;
  orientation : Quaternion.t;
  angular_distance : float
}.

Definition set_cost (f : t) (c : float) : t :=
  mk (size f) (min_distance f) (Some c) (initial f) (centroid f) (middle f)
     (points f) (orientation f) (angular_distance f).
End Frontier.

(** The rotation arithmetic of tf2 and the arctangent of libm, which the
    search uses for the heading of a frontier and nothing else. *)
Class Tf2 := {
  atan2 : float → float → float;
  (** [toMsg (tf2::Quaternion ({0, 0, 1}, yaw))] *)
  quaternion_about_z : float → Quaternion.t;
  (** [a.angleShortestPath (b)] *)
  angleShortestPath : Quaternion.t → Quaternion.t → float
}.

(** The searcher: its configuration, and the view of the costmap that
    [searchFrom] caches in the object ([map_], [size_x_], [size_y_]). *)
Record FrontierSearch := mkFrontierSearch {
  costmap_ : Costmap2D;
  potential_scale_ : float;
  gain_scale_ : float;
  orientation_scale_ : float;
  min_frontier_size_ : float;
  max_frontier_size_ : float;
  map_ : list nat;
  size_x_ : nat;
  size_y_ : nat
}.

(** The assignments [map_ = ...; size_x_ = ...; size_y_ = ...] of [searchFrom]. *)
Definition cache_costmap (fs : FrontierSearch) : FrontierSearch :=
  mkFrontierSearch (costmap_ fs) (potential_scale_ fs) (gain_scale_ fs)
    (orientation_scale_ fs) (min_frontier_size_ fs) (max_frontier_size_ fs)
    (getCharMap (costmap_ fs))
    (getSizeInCellsX (costmap_ fs)) (getSizeInCellsY (costmap_ fs)).

(** The constructor: it stores the costmap and the five parameters (and
    names the logger, whose messages are the diagnostics of [searchFrom]).
    The cached view of the costmap ([map_], [size_x_], [size_y_]) is not
    initialised; what these members hold after construction is an argument
    here. *)
Definition FrontierSearch_new (costmap : Costmap2D)
    (potential_scale gain_scale orientation_scale : float)
    (min_frontier_size max_frontier_size : float)
    (map0 : list nat) (size_x0 size_y0 : nat) : FrontierSearch :=
  mkFrontierSearch costmap potential_scale gain_scale orientation_scale
    min_frontier_size max_frontier_size map0 size_x0 size_y0.

(** ** isNewFrontierCell *)

Definition isNewFrontierCell (fs : FrontierSearch) (idx : nat)
    (frontier_flag : list bool) : bool :=
  if negb (cell_at (map_ fs) idx =? NO_INFORMATION) || flag_at frontier_flag idx
  then false
  else existsb (λ nbr, cell_at (map_ fs) nbr =? FREE_SPACE)
               (nhood4 idx (costmap_ fs)).

(** ** frontierCost *)

Definition frontierCost (fs : FrontierSearch) (frontier : Frontier.t) : float :=
  let position :=
    (potential_scale_ fs * Frontier.min_distance frontier
     * getResolution (costmap_ fs))%float in
  let gain :=
    (gain_scale_ fs * of_nat (Frontier.size frontier)
     * getResolution (costmap_ fs))%float in
  let orientation :=
    (orientation_scale_ fs * Frontier.angular_distance frontier)%float in
  (orientation + position - gain)%float.

(** ** buildNewFrontier *)

(** The state of the region-growing loop: the frontier under construction,
    the queue, the shared flag array, and (for the statements only) the
    indices of the cells pushed into [points], in order. *)
Record Growth := mkGrowth {
  output : Frontier.t;
  queue : list nat;
  flags : list bool;
  cells : list nat
}.

(** The test that ends the growth of a region. *)
Definition max_size_reached (fs : FrontierSearch) (sz : nat) : bool :=
  (0 <? max_frontier_size_ fs)%float &&
  (max_frontier_size_ fs <=? of_nat sz * getResolution (costmap_ fs))%float.

(** Euclidean distance of the reference position to a world coordinate;
    [std::pow (d, 2.0)] is the product [d * d]. *)
Definition distance_to (reference_pose : Pose.t) (wx wy : float) : float :=
  let dx := (Point.x (Pose.position reference_pose) - wx)%float in
  let dy := (Point.y (Pose.position reference_pose) - wy)%float in
  PrimFloat.sqrt (dx * dx + dy * dy)%float.

(** World coordinate of a cell index. *)
Definition cell_point (c : Costmap2D) (idx : nat) : Point.t :=
  let '(mx, my) := indexToCells c idx in
  let '(wx, wy) := mapToWorld c mx my in
  Point.mk wx wy 0.

(** The body of [if (isNewFrontierCell (nbr, frontier_flag))] up to the size
    test: flag the cell, push its point, count it, add it to the centroid
    sum, and keep the closest point seen. *)
Definition add_cell (fs : FrontierSearch) (reference_pose : Pose.t)
    (nbr : nat) (g : Growth) : Growth :=
  let out := output g in
  let point := cell_point (costmap_ fs) nbr in
  let wx := Point.x point in
  let wy := Point.y point in
  let centroid' :=
    Point.mk (Point.x (Frontier.centroid out) + wx)%float
             (Point.y (Frontier.centroid out) + wy)%float
             (Point.z (Frontier.centroid out)) in
  let distance := distance_to reference_pose wx wy in
  let closer := (distance <? Frontier.min_distance out)%float in
  mkGrowth
    (Frontier.mk (S (Frontier.size out))
       (if closer then distance else Frontier.min_distance out)
       (Frontier.cost out) (Frontier.initial out) centroid'
       (if closer
        then Point.mk wx wy (Point.z (Frontier.middle out))
        else Frontier.middle out)
       (Frontier.points out ++ [point])
       (Frontier.orientation out) (Frontier.angular_distance out))
    (queue g)
    (<[nbr:=true]> (flags g))
    (cells g ++ [nbr]).

Definition enqueue (nbr : nat) (g : Growth) : Growth :=
  mkGrowth (output g) (queue g ++ [nbr]) (flags g) (cells g).

(** The [for] loop over the 8-connected neighbourhood of one dequeued cell.
    The boolean is [frontier_completed]: [true] when the loop was left by
    [break]. *)
Fixpoint grow_nhood8 (fs : FrontierSearch) (reference_pose : Pose.t)
    (nbrs : list nat) (g : Growth) : Growth * bool :=
  match nbrs with
  | [] => (g, false)
  | nbr :: rest =>
      if isNewFrontierCell fs nbr (flags g) then
        let g' := add_cell fs reference_pose nbr g in
        if max_size_reached fs (Frontier.size (output g')) then (g', true)
        else grow_nhood8 fs reference_pose rest (enqueue nbr g')
      else grow_nhood8 fs reference_pose rest g
  end.

(** The [while (!frontier_completed)] loop. *)
Fixpoint grow_frontier (fuel : nat) (fs : FrontierSearch)
    (reference_pose : Pose.t) (g : Growth) : option Growth :=
  match fuel with
  | 0 => None
  | S fuel' =>
      match queue g with
      | [] => Some g
      | idx :: bfs =>
          let '(g', frontier_completed) :=
            grow_nhood8 fs reference_pose (nhood8 idx (costmap_ fs))
              (mkGrowth (output g) bfs (flags g) (cells g)) in
          if frontier_completed then Some g'
          else grow_frontier fuel' fs reference_pose g'
      end
  end.

(** The frontier as initialised before the loop.  [angular_distance] is
    assigned after the loop and not read before. *)
Definition initial_output (fs : FrontierSearch) (initial_cell : nat) : Frontier.t :=
  Frontier.mk 1 infinity None
    (cell_point (costmap_ fs) initial_cell)
    (Point.mk 0 0 0) Point0 [] Quaternion0 0.

(** What [buildNewFrontier] hands back: the frontier it returns, the flag
    array it updated in place, and the cells it pushed. *)
Record Built := mkBuilt {
  built_frontier : Frontier.t;
  built_flags : list bool;
  built_cells : list nat
}.

Section WithTf2.
Context {tf : Tf2}.

(** The statements after the loop. *)
Definition finish_frontier (reference_pose : Pose.t) (out : Frontier.t) : Frontier.t :=
  let centroid_avg :=
    Point.mk (Point.x (Frontier.centroid out) / of_nat (Frontier.size out))%float
             (Point.y (Frontier.centroid out) / of_nat (Frontier.size out))%float
             (Point.z (Frontier.centroid out)) in
  let centroid := Frontier.middle out in
  let front_rx :=
    (Point.x (Frontier.middle out) - Point.x (Pose.position reference_pose))%float in
  let front_ry :=
    (Point.y (Frontier.middle out) - Point.y (Pose.position reference_pose))%float in
  let yaw := atan2 front_ry front_rx in
  let orient_out := quaternion_about_z yaw in
  Frontier.mk (Frontier.size out) (Frontier.min_distance out) (Frontier.cost out)
    (Frontier.initial out) centroid (Frontier.middle out) (Frontier.points out)
    orient_out
    (PrimFloat.abs (angleShortestPath (Pose.orientation reference_pose) orient_out)).

(** Fuel for the region-growing loop: each turn either ends the loop or
    dequeues a cell, and every cell enqueued was unflagged before. *)
Definition grow_fuel (flags : list bool) : nat := S (S (length flags)).

Definition buildNewFrontier (fs : FrontierSearch) (initial_cell : nat)
    (reference_pose : Pose.t) (frontier_flag : list bool) : option Built :=
  g ← grow_frontier (grow_fuel frontier_flag) fs reference_pose
        (mkGrowth (initial_output fs initial_cell) [initial_cell] frontier_flag []);
  Some (mkBuilt (finish_frontier reference_pose (output g))
                (flags g) (cells g)).

End WithTf2.

(** ** nearestCell (explore/costmap_tools.h) *)

(** Modelled from the spec: [nearestCell] of costmap_tools.h, which is not
    among the sources.  Section 4.2: a breadth-first search outward from
    the start cell over 4-connected neighbours, returning the first cell
    reached whose value equals the target; no match when no such cell is
    reached or the bound on the search is exhausted. *)
Fixpoint nearest_visit (nbrs bfs : list nat) (visited : list bool)
    : list nat * list bool :=
  match nbrs with
  | [] => (bfs, visited)
  | nbr :: rest =>
      if flag_at visited nbr then nearest_visit rest bfs visited
      else nearest_visit rest (bfs ++ [nbr]) (<[nbr:=true]> visited)
  end.

Fixpoint nearest_loop (fuel val : nat) (c : Costmap2D)
    (bfs : list nat) (visited : list bool) : option nat :=
  match fuel with
  | 0 => None
  | S fuel' =>
      match bfs with
      | [] => None
      | idx :: rest =>
          if cell_at (getCharMap c) idx =? val then Some idx
          else
            let '(bfs', visited') := nearest_visit (nhood4 idx c) rest visited in
            nearest_loop fuel' val c bfs' visited'
      end
  end.

Definition nearestCell (start val : nat) (c : Costmap2D) : option nat :=
  let n := size_x c * size_y c in
  if n <=? start then None
  else nearest_loop (S n) val c [start] (<[start:=true]> (replicate n false)).

(** ** searchFrom *)

(** The state of the grid-wide search: the queue, the two flag arrays, the
    result list, and (for the statements only) every region built so far
    with the cell that triggered it, in order of discovery. *)
Record Search := mkSearch {
  bfs : list nat;
  visited_flag : list bool;
  frontier_flag : list bool;
  frontier_list : list Frontier.t;
  regions : list (nat * Built)
}.

(** The two diagnostics the search can log. *)
Inductive Diagnostic :=
  | RobotOutOfBounds   (* RCLCPP_ERROR: robot out of costmap bounds *)
  | NoClearCell.       (* RCLCPP_WARN: no nearby clear cell *)

(** The comparison the result is sorted with. *)
Definition cost_lt (f1 f2 : Frontier.t) : bool :=
  match Frontier.cost f1, Frontier.cost f2 with
  | Some c1, Some c2 => (c1 <? c2)%float
  | _, _ => false
  end.

(** The minimum-size test of [searchFrom]. *)
Definition min_size_met (fs : FrontierSearch) (f : Frontier.t) : bool :=
  (min_frontier_size_ fs <=? of_nat (Frontier.size f) * getResolution (costmap_ fs))%float.

(** The state the grid-wide search starts in: both flag arrays cleared,
    the first cell queued and marked visited. *)
Definition initial_search (fs : FrontierSearch) (front : nat) : Search :=
  let n := size_x_ fs * size_y_ fs in
  mkSearch [front] (<[front:=true]> (replicate n false)) (replicate n false) [] [].

Section SearchWithTf2.
Context {tf : Tf2}.

(** The [for] loop over the 4-connected neighbourhood of a dequeued cell. *)
Fixpoint visit_nhood4 (fs : FrontierSearch) (pose : Pose.t) (idx : nat)
    (nbrs : list nat) (s : Search) : option Search :=
  match nbrs with
  | [] => Some s
  | nbr :: rest =>
      if (cell_at (map_ fs) nbr <=? cell_at (map_ fs) idx)
         && negb (flag_at (visited_flag s) nbr)
      then
        visit_nhood4 fs pose idx rest
          (mkSearch (bfs s ++ [nbr]) (<[nbr:=true]> (visited_flag s))
                    (frontier_flag s) (frontier_list s) (regions s))
      else if isNewFrontierCell fs nbr (frontier_flag s) then
        b ← buildNewFrontier fs nbr pose (<[nbr:=true]> (frontier_flag s));
        let new_frontier := built_frontier b in
        let frontier_list' :=
          if min_size_met fs new_frontier
          then frontier_list s ++
               [Frontier.set_cost new_frontier (frontierCost fs new_frontier)]
          else frontier_list s in
        visit_nhood4 fs pose idx rest
          (mkSearch (bfs s) (visited_flag s) (built_flags b) frontier_list'
                    (regions s ++ [(nbr, b)]))
      else visit_nhood4 fs pose idx rest s
  end.

(** The [while (!bfs.empty ())] loop. *)
Fixpoint search_loop (fuel : nat) (fs : FrontierSearch) (pose : Pose.t)
    (s : Search) : option Search :=
  match fuel with
  | 0 => None
  | S fuel' =>
      match bfs s with
      | [] => Some s
      | idx :: rest =>
          s' ← visit_nhood4 fs pose idx (nhood4 idx (costmap_ fs))
                 (mkSearch rest (visited_flag s) (frontier_flag s)
                           (frontier_list s) (regions s));
          search_loop fuel' fs pose s'
      end
  end.

(** The cell the grid-wide search starts from, with what is logged. *)
Definition start_cell (fs : FrontierSearch) (mx my : nat) : nat * list Diagnostic :=
  let pos := getIndex (costmap_ fs) mx my in
  match nearestCell pos FREE_SPACE (costmap_ fs) with
  | Some clear => (clear, [])
  | None => (pos, [NoClearCell])
  end.

(** The search proper: [searchFrom] from the costmap lock to the end of the
    [while] loop, for a pose that maps to the cell [(mx, my)]. *)
Definition discover (fs : FrontierSearch) (pose : Pose.t) (mx my : nat)
    : option (Search * list Diagnostic) :=
  let fs' := cache_costmap fs in
  let '(front, log) := start_cell fs mx my in
  s ← search_loop (S (S (size_x_ fs' * size_y_ fs'))) fs' pose
        (initial_search fs' front);
  Some (s, log).

End SearchWithTf2.

(** *** std::sort

    [std::sort] rearranges a range in place, by exchanging and moving its
    elements: the result holds the elements of the input, each as often as
    the input does.  When the comparison is a strict weak ordering of the
    elements, no element of the result compares less than an earlier one;
    the order of equivalent elements is not specified.  For a comparison
    that is not a strict weak ordering the C++ standard promises nothing;
    the implementations still only move the elements about, in no
    particular order, and that is what the model keeps. *)

Definition strict_weak_ordering {A} (comp : A → A → bool) (l : list A) : Prop :=
  Forall (λ a, comp a a = false) l ∧
  Forall (λ a, Forall (λ b, Forall (λ c,
    comp a b = true → comp b c = true → comp a c = true) l) l) l ∧
  Forall (λ a, Forall (λ b, Forall (λ c,
    comp a b = false → comp b a = false →
    comp b c = false → comp c b = false →
    comp a c = false ∧ comp c a = false) l) l) l.

Definition sorted_by {A} (comp : A → A → bool) (l : list A) : Prop :=
  StronglySorted (λ a b, comp b a = false) l.

Definition std_sort {A} (comp : A → A → bool) (l l' : list A) : Prop :=
  l ≡ₚ l' ∧ (strict_weak_ordering comp l → sorted_by comp l').

(** What a call of [searchFrom] leaves behind: the list it returns, the
    searcher after the call, the diagnostics logged, and (for the
    statements only) the final state of the grid-wide search when the call
    got as far as running it. *)
Record Outcome := mkOutcome {
  returned : list Frontier.t;
  self : FrontierSearch;
  logged : list Diagnostic;
  search : option Search
}.

Definition pose_cell {uc : UnsignedCast} (fs : FrontierSearch) (pose : Pose.t)
    : option (nat * nat) :=
  worldToMap (costmap_ fs) (Point.x (Pose.position pose))
             (Point.y (Pose.position pose)).

Inductive searchFrom {tf : Tf2} {uc : UnsignedCast}
    (fs : FrontierSearch) (pose : Pose.t)
    : Outcome → Prop :=
  | search_out_of_bounds :
      pose_cell fs pose = None →
      searchFrom fs pose (mkOutcome [] fs [RobotOutOfBounds] None)
  | search_completed mx my s log sorted :
      pose_cell fs pose = Some (mx, my) →
      discover fs pose mx my = Some (s, log) →
      std_sort cost_lt (frontier_list s) sorted →
      searchFrom fs pose (mkOutcome sorted (cache_costmap fs) log (Some s)).

(** * Vocabulary of the statements *)

(** Number of flags not yet set. *)
Fixpoint unflagged (v : list bool) : nat :=
  match v with
  | [] => 0
  | b :: v' => (if b then 0 else 1) + unflagged v'
  end.

(** Setting the flags of a list of cells, one after the other. *)
Definition set_flags (ff : list bool) (cs : list nat) : list bool :=
  fold_left (λ v c, <[c:=true]> v) cs ff.

(** The closest point recorded so far is the point of a pushed cell, or
    nothing has been recorded yet. *)
Definition closest_recorded (c : Costmap2D) (pose : Pose.t)
    (out : Frontier.t) (cs : list nat) : Prop :=
  (Frontier.min_distance out = infinity ∧ Frontier.middle out = Point0) ∨
  (∃ cell, cell ∈ cs ∧ Frontier.middle out = cell_point c cell ∧
     Frontier.min_distance out =
       distance_to pose (Point.x (cell_point c cell)) (Point.y (cell_point c cell))).

(** What the region-growing loop maintains, for the flag array [ff0] it was
    entered with: the size counts the seed and the cells pushed; the points
    are those of the cells pushed; the flags set are those of [ff0] and of
    the cells pushed; no cell is pushed twice, and each was a cell of the
    grid not flagged in [ff0]. *)
Record grow_inv (fs : FrontierSearch) (pose : Pose.t) (seed : nat)
    (ff0 : list bool) (g : Growth) : Prop := mk_grow_inv {
  inv_size : Frontier.size (output g) = S (length (cells g));
  inv_points : Frontier.points (output g) = cell_point (costmap_ fs) <$> cells g;
  inv_flags : flags g = set_flags ff0 (cells g);
  inv_nodup : NoDup (cells g);
  inv_fresh : Forall (λ c, c < size_x (costmap_ fs) * size_y (costmap_ fs)
                           ∧ flag_at ff0 c = false) (cells g);
  inv_closest : closest_recorded (costmap_ fs) pose (output g) (cells g);
  inv_cost : Frontier.cost (output g) = None;
  inv_initial : Frontier.initial (output g) = cell_point (costmap_ fs) seed
}.

(** While the loop goes on, the test has failed at every size reached so
    far (it is first made at size 2). *)
Definition under_max (fs : FrontierSearch) (upto : nat) : Prop :=
  ∀ k, 2 ≤ k → k ≤ upto → max_size_reached fs k = false.

(** What holds of every region built, given a flag array that covers the
    grid. *)
Record built_ok (fs : FrontierSearch) (pose : Pose.t) (seed : nat)
    (ff : list bool) (b : Built) : Prop := mk_built_ok {
  ok_size : Frontier.size (built_frontier b) = S (length (built_cells b));
  ok_points : Frontier.points (built_frontier b) =
              cell_point (costmap_ fs) <$> built_cells b;
  ok_flags : built_flags b = set_flags ff (built_cells b);
  ok_nodup : NoDup (built_cells b);
  ok_fresh : Forall (λ c, c < size_x (costmap_ fs) * size_y (costmap_ fs)
                          ∧ flag_at ff c = false) (built_cells b);
  ok_closest : closest_recorded (costmap_ fs) pose (built_frontier b) (built_cells b);
  ok_cost : Frontier.cost (built_frontier b) = None;
  ok_initial : Frontier.initial (built_frontier b) = cell_point (costmap_ fs) seed;
  ok_max : under_max fs (Frontier.size (built_frontier b) - 1)
}.

(** The cells of a region: the cell that triggered it, then the cells
    pushed into its [points]. *)
Definition region_cells (r : nat * Built) : list nat := r.1 :: built_cells r.2.

(** The cells of all regions, in order of discovery. *)
Definition claimed (rs : list (nat * Built)) : list nat :=
  concat (region_cells <$> rs).

(** The frontiers of the regions that meet the minimum size, each with its
    cost assigned, in order of discovery. *)
Fixpoint accepted (fs : FrontierSearch) (rs : list (nat * Built)) : list Frontier.t :=
  match rs with
  | [] => []
  | r :: rs' =>
      (if min_size_met fs (built_frontier r.2)
       then [Frontier.set_cost (built_frontier r.2)
               (frontierCost fs (built_frontier r.2))]
       else []) ++ accepted fs rs'
  end.

(** What the grid-wide search maintains: the frontier flags cover the grid;
    the result list holds the accepted regions; the cells of all regions
    are different from each other and flagged; each region is as the
    builder leaves it, and was built with its seed flagged. *)
Record search_inv (fs : FrontierSearch) (pose : Pose.t) (s : Search) : Prop :=
  mk_search_inv {
  sinv_length : length (frontier_flag s) = size_x (costmap_ fs) * size_y (costmap_ fs);
  sinv_list : frontier_list s = accepted fs (regions s);
  sinv_nodup : NoDup (claimed (regions s));
  sinv_flagged : Forall (λ c, flag_at (frontier_flag s) c = true) (claimed (regions s));
  sinv_regions :
    Forall (λ r, ∃ ff, size_x (costmap_ fs) * size_y (costmap_ fs) ≤ length ff ∧
                       ff !! r.1 = Some true ∧
                       built_ok fs pose r.1 ff r.2) (regions s)
}.

(** The insertion sort that the standard libraries run on a short range
    (in libstdc++, [std::__insertion_sort], on up to 16 elements).
    [linear_insert] moves a value left past the elements it compares less
    than; [before] holds the part of the range left of the value, nearest
    element first, and so does the result.  The scan ends at the first
    element of the range at the latest, which [insertion_step] has found
    not to be greater. *)
Fixpoint linear_insert {A} (comp : A → A → bool) (val : A) (before : list A)
    : list A :=
  match before with
  | [] => [val]
  | next :: before' =>
      if comp val next then next :: linear_insert comp val before'
      else val :: next :: before'
  end.

(** One turn of the loop of the insertion sort: a value less than the
    first element of the range goes to the front, any other is inserted
    by [linear_insert].  [sorted] is the part of the range already in
    order, last element first. *)
Definition insertion_step {A} (comp : A → A → bool) (sorted : list A) (val : A)
    : list A :=
  match last sorted with
  | Some first =>
      if comp val first then sorted ++ [val]
      else linear_insert comp val sorted
  | None => [val]
  end.

Definition insertion_sort {A} (comp : A → A → bool) (l : list A) : list A :=
  reverse (fold_left (insertion_step comp) l []).

(** A range in ascending order, seen from its end. *)
Definition sorted_back {A} (comp : A → A → bool) (l : list A) : Prop :=
  StronglySorted (λ a b, comp a b = false) l.

(** *** std::sort of libstdc++

    The algorithm behind [std::sort] in the GNU C++ library
    (bits/stl_algo.h), on a list read and written by position: quicksort
    with a median-of-three pivot down to ranges of 16 elements, then one
    pass of insertion sort.  A range of at most 16 elements is sorted by
    insertion alone.  The functions answer [None] where the library would
    read outside the range, and at the depth limit, where it falls back on
    a heap sort that is not modelled. *)

(** [std::iter_swap]. *)
Definition iter_swap {A} (i j : nat) (l : list A) : option (list A) :=
  a ← l !! i; b ← l !! j; Some (<[j:=a]> (<[i:=b]> l)).

(** [comp(i, j)] for two positions of the range. *)
Definition comp_at {A} (comp : A → A → bool) (l : list A) (i j : nat)
    : option bool :=
  a ← l !! i; b ← l !! j; Some (comp a b).

(** [std::__move_median_to_first]. *)
Definition move_median_to_first {A} (comp : A → A → bool)
    (result a b c : nat) (l : list A) : option (list A) :=
  match comp_at comp l a b, comp_at comp l b c, comp_at comp l a c with
  | Some ab, Some bc, Some ac =>
      if ab then
        if bc then iter_swap result b l
        else if ac then iter_swap result c l
        else iter_swap result a l
      else if ac then iter_swap result a l
      else if bc then iter_swap result c l
      else iter_swap result b l
  | _, _, _ => None
  end.

(** [while (comp(first, pivot)) ++first;] *)
Fixpoint scan_up {A} (fuel : nat) (comp : A → A → bool) (l : list A)
    (first pivot : nat) : option nat :=
  match fuel with
  | 0 => None
  | S fuel' =>
      match comp_at comp l first pivot with
      | Some true => scan_up fuel' comp l (S first) pivot
      | Some false => Some first
      | None => None
      end
  end.

(** [while (comp(pivot, last)) --last;] *)
Fixpoint scan_down {A} (fuel : nat) (comp : A → A → bool) (l : list A)
    (pivot last : nat) : option nat :=
  match fuel with
  | 0 => None
  | S fuel' =>
      match comp_at comp l pivot last, last with
      | Some true, S last' => scan_down fuel' comp l pivot last'
      | Some false, _ => Some last
      | _, _ => None
      end
  end.

(** [std::__unguarded_partition]. *)
Fixpoint unguarded_partition {A} (fuel : nat) (comp : A → A → bool)
    (first last pivot : nat) (l : list A) : option (nat * list A) :=
  match fuel, last with
  | S fuel', S last1 =>
      first' ← scan_up (S (length l)) comp l first pivot;
      last' ← scan_down (S (length l)) comp l pivot last1;
      if first' <? last' then
        l' ← iter_swap first' last' l;
        unguarded_partition fuel' comp (S first') last' pivot l'
      else Some (first', l)
  | _, _ => None
  end.

(** [std::__unguarded_partition_pivot]. *)
Definition unguarded_partition_pivot {A} (comp : A → A → bool)
    (first last : nat) (l : list A) : option (nat * list A) :=
  let mid := first + (last - first) / 2 in
  l' ← move_median_to_first comp first (first + 1) mid (last - 1) l;
  unguarded_partition (S (length l)) comp (first + 1) last first l'.

(** [std::__introsort_loop]: each turn of its [while] loop sorts the upper
    part by a call of its own and goes on with the lower part. *)
Fixpoint introsort_loop {A} (depth_limit : nat) (comp : A → A → bool)
    (first last : nat) (l : list A) : option (list A) :=
  if 16 <? last - first then
    match depth_limit with
    | 0 => None
    | S depth_limit' =>
        '(cut, l1) ← unguarded_partition_pivot comp first last l;
        l2 ← introsort_loop depth_limit' comp cut last l1;
        introsort_loop depth_limit' comp first cut l2
    end
  else Some l.

(** [std::__unguarded_linear_insert] without the test against the first
    element before it: the scan relies on an element that stops it. *)
Fixpoint unguarded_linear_insert {A} (comp : A → A → bool) (val : A)
    (before : list A) : option (list A) :=
  match before with
  | [] => None
  | next :: before' =>
      if comp val next
      then rest ← unguarded_linear_insert comp val before'; Some (next :: rest)
      else Some (val :: before)
  end.

(** [std::__unguarded_insertion_sort], on the sorted part seen from its
    end. *)
Fixpoint unguarded_insertion_sort {A} (comp : A → A → bool)
    (sorted rest : list A) : option (list A) :=
  match rest with
  | [] => Some sorted
  | val :: rest' =>
      sorted' ← unguarded_linear_insert comp val sorted;
      unguarded_insertion_sort comp sorted' rest'
  end.

(** [std::__final_insertion_sort]. *)
Definition final_insertion_sort {A} (comp : A → A → bool) (l : list A)
    : option (list A) :=
  if 16 <? length l then
    sorted ← unguarded_insertion_sort comp
                (fold_left (insertion_step comp) (take 16 l) []) (drop 16 l);
    Some (reverse sorted)
  else Some (insertion_sort comp l).

(** [std::sort]. *)
Definition libstdcxx_sort {A} (comp : A → A → bool) (l : list A)
    : option (list A) :=
  match l with
  | [] => Some []
  | _ =>
      l' ← introsort_loop (2 * Nat.log2 (length l)) comp 0 (length l) l;
      final_insertion_sort comp l'
  end.

(** The comparison of costs is a strict weak ordering of the frontiers
    found, as [std::sort] requires. *)
Definition costs_ordered (o : Outcome) : Prop :=
  match search o with
  | Some s => strict_weak_ordering cost_lt (frontier_list s)
  | None => True
  end.

(** A position on a line for every float that is not NaN: the infinities at
    the ends, zero in the middle, the finite numbers by sign, exponent and
    mantissa. *)
Definition float_key (c : float) : Z * Z * Z :=
  match Prim2SF c with
  | S754_infinity true => (-2, 0, 0)
  | S754_finite true m e => (-1, - e, - Z.pos m)
  | S754_zero _ => (0, 0, 0)
  | S754_finite false m e => (1, e, Z.pos m)
  | S754_infinity false => (2, 0, 0)
  | S754_nan => (3, 0, 0)
  end%Z.

Definition key_lt (a b : Z * Z * Z) : Prop :=
  (a.1.1 < b.1.1 ∨
   (a.1.1 = b.1.1 ∧ (a.1.2 < b.1.2 ∨ (a.1.2 = b.1.2 ∧ a.2 < b.2))))%Z.

(** The frontier has a cost, and it is a number. *)
Definition cost_is_number (f : Frontier.t) : Prop :=
  match Frontier.cost f with
  | Some c => is_nan c = false
  | None => False
  end.

(** The order the result is wanted in: the cost of the first frontier is
    at most that of the second. *)
Definition cost_le (f1 f2 : Frontier.t) : bool :=
  match Frontier.cost f1, Frontier.cost f2 with
  | Some c1, Some c2 => (c1 <=? c2)%float
  | _, _ => false
  end.

(** A list sorted ascending by cost: the costs are non-decreasing in
    sequence order. *)
Definition ascending_by_cost (l : list Frontier.t) : Prop :=
  ∀ i j a b, i < j → l !! i = Some a → l !! j = Some b → cost_le a b = true.

(** Discovery order is kept among equivalent elements: whenever two
    elements of the result compare equivalent, the earlier one was found
    earlier. *)
Definition keeps_discovery_order {A} (comp : A → A → bool)
    (discovered result : list A) : Prop :=
  ∀ i j a b, i < j → result !! i = Some a → result !! j = Some b →
    comp a b = false → comp b a = false →
    ∃ i' j', i' < j' ∧ discovered !! i' = Some a ∧ discovered !! j' = Some b.

(** Whether a comparison is a strict weak ordering of a list can be computed. *)
#[global] Instance strict_weak_ordering_dec {A} (comp : A → A → bool) l :
  Decision (strict_weak_ordering comp l).
Proof. unfold strict_weak_ordering. apply _. Defined.

(** So can whether a list is sorted, and whether a cost is a number. *)
#[global] Instance sorted_by_dec {A} (comp : A → A → bool) l :
  Decision (sorted_by comp l).
Proof. unfold sorted_by. apply _. Defined.

#[global] Instance cost_is_number_dec f : Decision (cost_is_number f).
Proof. unfold cost_is_number. destruct (Frontier.cost f); apply _. Defined.

(** Equality of floats can be computed. *)
#[global] Instance float_eq_dec : EqDecision float.
Proof.
  intros x y. destruct (Leibniz.eqb x y) eqn:E.
  - left. by apply Leibniz.eqb_spec.
  - right. intros H. apply Leibniz.eqb_spec in H. congruence.
Defined.

#[global] Instance Point_eq_dec : EqDecision Point.t.
Proof. solve_decision. Defined.
#[global] Instance Quaternion_eq_dec : EqDecision Quaternion.t.
Proof. solve_decision. Defined.
#[global] Instance Frontier_eq_dec : EqDecision Frontier.t.
Proof. solve_decision. Defined.

(** A frontier cell: an unknown cell with a free 4-connected neighbour,
    the part of the test of [isNewFrontierCell] that does not read the
    flags. *)
Definition frontier_cell (fs : FrontierSearch) (idx : nat) : Prop :=
  cell_at (map_ fs) idx = NO_INFORMATION ∧
  ∃ nbr, nbr ∈ nhood4 idx (costmap_ fs) ∧ cell_at (map_ fs) nbr = FREE_SPACE.

(** A cell reached from the seed by steps to 8-connected neighbours, each
    step landing on a cell of the region. *)
Inductive connected8 (c : Costmap2D) (region : list nat) (seed : nat) : nat → Prop :=
  | connected8_seed : connected8 c region seed seed
  | connected8_step p q :
      connected8 c region seed p → q ∈ region → q ∈ nhood8 p c →
      connected8 c region seed q.

(** No 8-connected neighbour of the cell is a new frontier cell. *)
Definition scanned8 (fs : FrontierSearch) (ff : list bool) (cell : nat) : Prop :=
  ∀ nbr, nbr ∈ nhood8 cell (costmap_ fs) → isNewFrontierCell fs nbr ff = false.

(** Distance of the reference position to the centre of a cell. *)
Definition cell_distance (c : Costmap2D) (pose : Pose.t) (cell : nat) : float :=
  distance_to pose (Point.x (cell_point c cell)) (Point.y (cell_point c cell)).

(** What the region-growing loop maintains about the shape of the region. *)
Record grow_shape (fs : FrontierSearch) (seed : nat) (g : Growth) : Prop :=
  mk_grow_shape {
  shape_connected :
    Forall (connected8 (costmap_ fs) (seed :: cells g) seed) (cells g);
  shape_queue : Forall (λ q, q ∈ seed :: cells g) (queue g);
  shape_cells : Forall (frontier_cell fs) (cells g)
}.

(** Every cell of the region is waiting in the queue or has been scanned. *)
Definition grow_pending (fs : FrontierSearch) (seed : nat) (g : Growth) : Prop :=
  ∀ c, c ∈ seed :: cells g → c ∈ queue g ∨ scanned8 fs (flags g) c.

(** A cell reached from the start cell by steps to 4-connected neighbours
    along which the cell value does not increase. *)
Inductive descends (fs : FrontierSearch) (start : nat) : nat → Prop :=
  | descends_start : descends fs start start
  | descends_step a b :
      descends fs start a → b ∈ nhood4 a (costmap_ fs) →
      cell_at (map_ fs) b ≤ cell_at (map_ fs) a →
      descends fs start b.

(** The search is done with a visited cell: each of its 4-connected
    neighbours whose value is not greater has been visited, and none that
    is not visited is a new frontier cell. *)
Definition scanned4 (fs : FrontierSearch) (s : Search) (cell : nat) : Prop :=
  ∀ nbr, nbr ∈ nhood4 cell (costmap_ fs) →
    (cell_at (map_ fs) nbr ≤ cell_at (map_ fs) cell →
     flag_at (visited_flag s) nbr = true) ∧
    (flag_at (visited_flag s) nbr = true ∨
     isNewFrontierCell fs nbr (frontier_flag s) = false).

(** What the grid-wide search maintains about the cells it visits. *)
Record flood_inv (fs : FrontierSearch) (start : nat) (s : Search) : Prop :=
  mk_flood_inv {
  flood_visited_length :
    length (visited_flag s) = size_x (costmap_ fs) * size_y (costmap_ fs);
  flood_frontier_length :
    size_x (costmap_ fs) * size_y (costmap_ fs) ≤ length (frontier_flag s);
  flood_queue : Forall (λ c, flag_at (visited_flag s) c = true) (bfs s);
  flood_sound : ∀ c, flag_at (visited_flag s) c = true → descends fs start c;
  flood_pending :
    ∀ c, flag_at (visited_flag s) c = true → c ∈ bfs s ∨ scanned4 fs s c;
  flood_seeds :
    Forall (λ r, ∃ c, flag_at (visited_flag s) c = true ∧
                      r.1 ∈ nhood4 c (costmap_ fs)) (regions s)
}.

(** The size test ended the growth of the region.  The test is made after
    every cell pushed, at the size just reached, and never on the seed
    alone: it ended the growth when the region has more cells than the seed
    and the test holds at its final size. *)
Definition stopped_by_size (fs : FrontierSearch) (f : Frontier.t) : bool :=
  (1 <? Frontier.size f) && max_size_reached fs (Frontier.size f).

(** The size test did not end the growth of the region. *)
Definition uncapped (fs : FrontierSearch) (r : nat * Built) : Prop :=
  stopped_by_size fs (built_frontier r.2) = false.

(** Every frontier cell next to a cell of an uncapped region belongs to
    that region or to one built before it; [before] are the cells of the
    regions built before the first of [rs]. *)
Fixpoint regions_closed (fs : FrontierSearch) (before : list nat)
    (rs : list (nat * Built)) : Prop :=
  match rs with
  | [] => True
  | r :: rs' =>
      (uncapped fs r →
       ∀ c nbr, c ∈ region_cells r → nbr ∈ nhood8 c (costmap_ fs) →
         frontier_cell fs nbr → nbr ∈ before ++ region_cells r) ∧
      regions_closed fs (before ++ region_cells r) rs'
  end.

(** What the grid-wide search maintains about the regions it builds. *)
Record search_shape {tf : Tf2} (fs : FrontierSearch) (pose : Pose.t)
    (s : Search) : Prop := mk_search_shape {
  sshape_inv : search_inv fs pose s;
  sshape_flags :
    frontier_flag s =
    set_flags (replicate (size_x (costmap_ fs) * size_y (costmap_ fs)) false)
              (claimed (regions s));
  sshape_cells :
    Forall (λ c, c < size_x (costmap_ fs) * size_y (costmap_ fs)
                 ∧ frontier_cell fs c) (claimed (regions s));
  sshape_connected :
    Forall (λ r, Forall (connected8 (costmap_ fs) (region_cells r) r.1)
                        (built_cells r.2)) (regions s);
  sshape_closed : regions_closed fs [] (regions s)
}.

(** The sizes of the regions, added up. *)
Definition total_size (rs : list (nat * Built)) : nat :=
  sum_list ((λ r, Frontier.size (built_frontier r.2)) <$> rs).

(** Two searchers look at the same grid with the same size cap; their
    weights and their minimum frontier size may differ. *)
Definition same_grid (fs fs' : FrontierSearch) : Prop :=
  costmap_ fs = costmap_ fs' ∧ max_frontier_size_ fs = max_frontier_size_ fs' ∧
  map_ fs = map_ fs' ∧ size_x_ fs = size_x_ fs' ∧ size_y_ fs = size_y_ fs'.

(** Two states of the grid-wide search that differ in the result list at
    most. *)
Definition same_search (s s' : Search) : Prop :=
  bfs s = bfs s' ∧ visited_flag s = visited_flag s' ∧
  frontier_flag s = frontier_flag s' ∧ regions s = regions s'.

(** ** Worked examples *)

(** A stand-in for the rotation arithmetic in the worked examples, with
    every heading zero. *)
Definition flat_tf2 : Tf2 :=
  {| atan2 := λ _ _, 0%float;
     quaternion_about_z := λ _, Quaternion0;
     angleShortestPath := λ _ _, 0%float |}.

(** The conversion of x86-64 builds; it agrees with the truncation wherever
    C++ defines the conversion. *)
Definition x86_64_cast : UnsignedCast.
Proof.
  refine {| to_unsigned := cvttsd2si_low32 |}. intros f n.
  unfold truncation, cvttsd2si_low32.
  destruct (Prim2SF f) as [?|?| |[] m e]; try done.
  - by intros [= <-].
  - destruct (_ && _) eqn:Hsmall; [|done]. intros [= <-].
    apply andb_true_iff in Hsmall as [He Hm].
    apply Z.ltb_lt in He, Hm.
    destruct (Z.leb_spec 0 e) as [H0|_]; [exfalso; clear Hm; lia|].
    rewrite Z.div_small by (split; [lia|done]). done.
  - set (v := if (0 <=? e)%Z then (Z.pos m * 2 ^ e)%Z
              else (Z.pos m / 2 ^ (- e))%Z).
    assert (Hv : (0 ≤ v)%Z).
    { unfold v. destruct (0 <=? e)%Z.
      - apply Z.mul_nonneg_nonneg; [done|]. by apply Z.pow_nonneg.
      - apply Z_div_nonneg_nonneg; [done|]. by apply Z.pow_nonneg. }
    clearbody v.
    destruct (Z.ltb_spec v (2 ^ 32)) as [Hlt|_]; [|done]. intros [= <-].
    destruct (Z.ltb_spec v (2 ^ 63)) as [|Hge]; [|lia].
    by rewrite Z.mod_small.
Defined.

(** A searcher with unit weights over a costmap of resolution 1 with its
    origin at (0, 0). *)
Definition unit_search (sx sy : nat) (m : list nat)
    (min_size max_size : float) : FrontierSearch :=
  mkFrontierSearch (mkCostmap sx sy 1 0 0 m) 1 1 1 min_size max_size [] 0 0.

(** A pose in the middle of cell (0, 0), and one off the grid. *)
Definition corner_pose : Pose.t := Pose.mk (Point.mk 0.5 0.5 0) Quaternion0.
Definition outside_pose : Pose.t := Pose.mk (Point.mk (-1) 0.5 0) Quaternion0.

(** 3 x 3, free but for one unknown cell in the middle. *)
Definition island_search : FrontierSearch :=
  unit_search 3 3 [0; 0; 0;  0; 255; 0;  0; 0; 0] 0.5 0.

(** 5 x 3, free but for two unknown cells at either end of the first two
    rows; seen from the middle of the grid the two pairs mirror each other.
    The orientation weight is zero, so that the heading does not enter the
    cost. *)
Definition two_bays_search : FrontierSearch :=
  mkFrontierSearch
    (mkCostmap 5 3 1 0 0 [255; 0; 0; 0; 255;  255; 0; 0; 0; 255;  0; 0; 0; 0; 0])
    1 1 0 0.5 0 [] 0 0.
Definition centre_pose : Pose.t := Pose.mk (Point.mk 2.5 1.5 0) Quaternion0.

(** 5 x 3 with a region of two unknown cells and one of a single cell; the
    minimum frontier size is one and a half cells. *)
Definition mixed_search : FrontierSearch :=
  unit_search 5 3 [255; 0; 0; 0; 0;  255; 0; 0; 255; 0;  0; 0; 0; 0; 0] 1.5 0.

(** 4 x 3, free but for three unknown cells in a diagonal run; the maximum
    frontier size is half a cell. *)
Definition ridge_search : FrontierSearch :=
  unit_search 4 3 [0; 0; 0; 0;  0; 255; 255; 0;  0; 0; 0; 255] 0.5 0.5.

(** The 3 x 3 grid with one unknown cell, with a maximum frontier size of
    half a cell. *)
Definition capped_island_search : FrontierSearch :=
  unit_search 3 3 [0; 0; 0;  0; 255; 0;  0; 0; 0] 0.5 0.5.

(** The same grid with a maximum frontier size of two and a half cells. *)
Definition capped_search : FrontierSearch :=
  unit_search 4 3 [0; 0; 0; 0;  0; 255; 255; 0;  0; 0; 0; 255] 0.5 2.5.

(** Scenario A of the specification: 5 x 5, free but for one unknown cell
    in the middle of the upper edge, and a pose in the middle of the grid. *)
Definition scenario_a_search : FrontierSearch :=
  unit_search 5 5 [0; 0; 255; 0; 0;  0; 0; 0; 0; 0;  0; 0; 0; 0; 0;
                   0; 0; 0; 0; 0;  0; 0; 0; 0; 0] 0.5 0.
Definition scenario_a_pose : Pose.t := Pose.mk (Point.mk 2.5 2.5 0) Quaternion0.

(** The 3 x 3 grid with one unknown cell, searched with a distance weight
    of zero. *)
Definition weightless_search : FrontierSearch :=
  mkFrontierSearch (mkCostmap 3 3 1 0 0 [0; 0; 0;  0; 255; 0;  0; 0; 0])
    0 1 1 0.5 0 [] 0 0.

(** 7 x 4 with regions of one, two and three unknown cells in columns 0, 2
    and 4, searched with zero distance and orientation weights. *)
Definition three_columns_search : FrontierSearch :=
  mkFrontierSearch
    (mkCostmap 7 4 1 0 0 [255; 0; 255; 0; 255; 0; 0;
                          0; 0; 255; 0; 255; 0; 0;
                          0; 0; 0; 0; 255; 0; 0;
                          0; 0; 0; 0; 0; 0; 0])
    0 1 0 0.5 0 [] 0 0.
Definition east_pose : Pose.t := Pose.mk (Point.mk 6.5 1.5 0) Quaternion0.

(** 3 x 3 without a free cell. *)
Definition walled_search : FrontierSearch :=
  unit_search 3 3 [254; 254; 254;  254; 254; 254;  254; 254; 254] 0.5 0.

(** 3 x 3 with every cell free: nothing is left to explore. *)
Definition open_search : FrontierSearch :=
  unit_search 3 3 [0; 0; 0;  0; 0; 0;  0; 0; 0] 0.5 0.

(** A costmap without cells. *)
Definition empty_search : FrontierSearch := unit_search 0 0 [] 0.5 0.

(** A searcher over the grid of the two mirrored regions with other
    weights and another minimum size. *)
Definition two_bays_reweighed : FrontierSearch :=
  mkFrontierSearch (costmap_ two_bays_search) 3 2 1 1.5 0 [] 0 0.

(** The 3 x 3 grid with one unknown cell, searched with a minimum frontier
    size that is not a number. *)
Definition unset_search : FrontierSearch :=
  unit_search 3 3 [0; 0; 0;  0; 255; 0;  0; 0; 0] nan 0.

(** 15 x 3, the lower two rows free, with runs of four, two, one and three
    unknown cells in the first row; searched with zero distance and
    orientation weights. *)
Definition four_runs_map : list nat :=
  [0; 255; 255; 255; 255; 0; 255; 255; 0; 255; 0; 255; 255; 255; 0;
   0; 0; 0; 0; 0; 0; 0; 0; 0; 0; 0; 0; 0; 0; 0;
   0; 0; 0; 0; 0; 0; 0; 0; 0; 0; 0; 0; 0; 0; 0].
Definition four_runs_search : FrontierSearch :=
  mkFrontierSearch (mkCostmap 15 3 1 0 0 four_runs_map) 0 1 0 0.5 0 [] 0 0.

(** The same grid searched with unit weights. *)
Definition four_runs_weighed : FrontierSearch := unit_search 15 3 four_runs_map 0.5 0.

(** A pose in the middle of cell (0, 1). *)
Definition west_pose : Pose.t := Pose.mk (Point.mk 0.5 1.5 0) Quaternion0.

(** 35 x 3, the last row free, with seventeen pairs of unknown cells in
    the odd columns of the first two rows; searched with zero distance and
    orientation weights, so that every region costs the same. *)
Definition pairs_map : list nat :=
  [0; 255; 0; 255; 0; 255; 0; 255; 0; 255; 0; 255; 0; 255; 0; 255; 0; 255;
   0; 255; 0; 255; 0; 255; 0; 255; 0; 255; 0; 255; 0; 255; 0; 255; 0;
   0; 255; 0; 255; 0; 255; 0; 255; 0; 255; 0; 255; 0; 255; 0; 255; 0; 255;
   0; 255; 0; 255; 0; 255; 0; 255; 0; 255; 0; 255; 0; 255; 0; 255; 0;
   0; 0; 0; 0; 0; 0; 0; 0; 0; 0; 0; 0; 0; 0; 0; 0; 0; 0;
   0; 0; 0; 0; 0; 0; 0; 0; 0; 0; 0; 0; 0; 0; 0; 0; 0].
Definition pairs_search : FrontierSearch :=
  mkFrontierSearch (mkCostmap 35 3 1 0 0 pairs_map) 0 1 0 0.5 0 [] 0 0.

(** A pose in the middle of cell (0, 2). *)
Definition south_west_pose : Pose.t := Pose.mk (Point.mk 0.5 2.5 0) Quaternion0.

(** A pose whose coordinates are not numbers, and one 2^32 cells to the
    right of cell (0, 0). *)
Definition adrift_pose : Pose.t := Pose.mk (Point.mk nan nan 0) Quaternion0.
Definition far_pose : Pose.t := Pose.mk (Point.mk 4294967296.5 0.5 0) Quaternion0.

(** The 3 x 3 grid with one unknown cell, in a costmap whose resolution is
    not a number. *)
Definition unscaled_search : FrontierSearch :=
  mkFrontierSearch (mkCostmap 3 3 nan 0 0 [0; 0; 0;  0; 255; 0;  0; 0; 0])
    1 1 1 0.5 0 [] 0 0.

(** The outcome of a search in which [std::sort] is the insertion sort, as
    it is in libstdc++ when at most 16 frontiers are found
    ([libstdcxx_sort_short]). *)
Definition outcome_of {tf : Tf2} {uc : UnsignedCast}
    (fs : FrontierSearch) (pose : Pose.t) : Outcome :=
  match pose_cell fs pose with
  | None => mkOutcome [] fs [RobotOutOfBounds] None
  | Some (mx, my) =>
      match discover fs pose mx my with
      | Some (s, log) =>
          mkOutcome (insertion_sort cost_lt (frontier_list s))
                    (cache_costmap fs) log (Some s)
      | None => mkOutcome [] fs [] None
      end
  end.

(** The outcome of a search in which [std::sort] is that of libstdc++. *)
Definition libstdcxx_outcome_of {tf : Tf2} {uc : UnsignedCast}
    (fs : FrontierSearch) (pose : Pose.t) : option Outcome :=
  match pose_cell fs pose with
  | None => Some (mkOutcome [] fs [RobotOutOfBounds] None)
  | Some (mx, my) =>
      '(s, log) ← discover fs pose mx my;
      sorted ← libstdcxx_sort cost_lt (frontier_list s);
      Some (mkOutcome sorted (cache_costmap fs) log (Some s))
  end.

Definition two_bays_outcome : Outcome :=
  Eval vm_compute in @outcome_of flat_tf2 x86_64_cast two_bays_search centre_pose.
Definition mixed_outcome : Outcome :=
  Eval vm_compute in @outcome_of flat_tf2 x86_64_cast mixed_search centre_pose.
Definition scenario_a_outcome : Outcome :=
  Eval vm_compute in @outcome_of flat_tf2 x86_64_cast scenario_a_search scenario_a_pose.
Definition three_columns_outcome : Outcome :=
  Eval vm_compute in @outcome_of flat_tf2 x86_64_cast three_columns_search east_pose.
Definition ridge_outcome : Outcome :=
  Eval vm_compute in @outcome_of flat_tf2 x86_64_cast ridge_search corner_pose.
Definition four_runs_outcome : Outcome :=
  Eval vm_compute in @outcome_of flat_tf2 x86_64_cast four_runs_search west_pose.
Definition four_runs_weighed_outcome : Outcome :=
  Eval vm_compute in @outcome_of flat_tf2 x86_64_cast four_runs_weighed west_pose.

(** * Lemmas *)

(** Closes a decidable goal on concrete data by evaluating its decision. *)
Ltac by_computation := apply (bool_decide_unpack _); by vm_compute.

(** ** The neighbourhoods stay on the grid *)

Lemma nhood4_lt idx c nbr :
  nbr ∈ nhood4 idx c → nbr < size_x c * size_y c.
Proof.
  unfold nhood4.
  destruct (Nat.leb_spec (size_x c * size_y c) idx) as [|Hidx];
    [by rewrite elem_of_nil|].
  assert (Hsx : size_x c ≠ 0) by (intros E; rewrite E in Hidx; lia).
  pose proof (Nat.mod_upper_bound idx (size_x c) Hsx) as Hm.
  pose proof (Nat.div_mod_eq idx (size_x c)) as Hd.
  rewrite !elem_of_app.
  intros [H|[H|[H|H]]]; revert H;
    repeat match goal with
           | |- context [if ?b then _ else _] => destruct b eqn:?
           end;
    rewrite ?list_elem_of_singleton, ?elem_of_nil; intros H; try done; subst nbr.
  - lia.
  - apply Nat.ltb_lt in Heqb.
    assert (idx / size_x c < size_y c) by (apply Nat.Div0.div_lt_upper_bound; lia).
    nia.
  - lia.
  - apply Nat.ltb_lt in Heqb. nia.
Qed.

Lemma nhood8_lt idx c nbr :
  nbr ∈ nhood8 idx c → nbr < size_x c * size_y c.
Proof.
  unfold nhood8.
  destruct (Nat.leb_spec (size_x c * size_y c) idx) as [|Hidx];
    [by rewrite elem_of_nil|].
  assert (Hsx : size_x c ≠ 0) by (intros E; rewrite E in Hidx; lia).
  pose proof (Nat.mod_upper_bound idx (size_x c) Hsx) as Hm.
  pose proof (Nat.div_mod_eq idx (size_x c)) as Hd.
  assert (Hrow : idx / size_x c < size_y c)
    by (apply Nat.Div0.div_lt_upper_bound; lia).
  assert (Hmul : size_x c * (size_y c - 1) + size_x c = size_x c * size_y c)
    by (destruct (size_y c); [lia|]; rewrite Nat.sub_succ, Nat.sub_0_r; lia).
  rewrite !elem_of_app.
  intros [H|[H|[H|[H|H]]]]; [by eapply nhood4_lt| | | |]; revert H;
    repeat match goal with
           | |- context [if ?b then _ else _] => destruct b eqn:?
           end;
    rewrite ?list_elem_of_singleton, ?elem_of_nil; intros H; try done; subst nbr;
    repeat match goal with
           | H : _ && _ = true |- _ => apply andb_true_iff in H as [? ?]
           | H : (_ <? _) = true |- _ => apply Nat.ltb_lt in H
           | H : (_ <=? _) = true |- _ => apply Nat.leb_le in H
           end.
  4: { assert (idx / size_x c + 1 < size_y c) by nia. nia. }
  all: clear Hd Hrow Hm;
    generalize dependent (size_x c * (size_y c - 1));
    generalize dependent (size_x c * size_y c); intros; lia.
Qed.

(** [nhood4] lists exactly the orthogonally adjacent cells of the grid. *)
Lemma nhood4_adjacent4 idx c nbr :
  nbr ∈ nhood4 idx c ↔ adjacent4 c idx nbr.
Proof.
  unfold nhood4, adjacent4, cell_row, cell_col.
  destruct (Nat.leb_spec (size_x c * size_y c) idx) as [|Hidx].
  { rewrite elem_of_nil. split; [done|lia]. }
  assert (Hsx : size_x c ≠ 0) by (intros E; rewrite E in Hidx; lia).
  pose proof (Nat.mod_upper_bound idx (size_x c) Hsx) as Hm.
  pose proof (Nat.div_mod_eq idx (size_x c)) as Hd.
  pose proof (Nat.mod_upper_bound nbr (size_x c) Hsx) as Hm'.
  pose proof (Nat.div_mod_eq nbr (size_x c)) as Hd'.
  assert (Hrow : idx / size_x c < size_y c)
    by (apply Nat.Div0.div_lt_upper_bound; lia).
  remember (size_x c) as sx eqn:Esx. remember (size_y c) as sy eqn:Esy.
  remember (idx / sx) as q eqn:Eq. remember (idx mod sx) as r eqn:Er.
  clear Esx Esy Eq Er.
  rewrite !elem_of_app.
  split.
  - intros H.
    assert (Hcase : (0 < r ∧ nbr = sx * q + (r - 1)) ∨
                    (r < sx - 1 ∧ nbr = sx * q + (r + 1)) ∨
                    (1 ≤ q ∧ nbr = sx * (q - 1) + r) ∨
                    (q + 1 < sy ∧ nbr = sx * (q + 1) + r)).
    { destruct H as [H|[H|[H|H]]]; revert H;
        repeat match goal with
               | |- context [if ?b then _ else _] => destruct b eqn:?
               end;
        rewrite ?list_elem_of_singleton, ?elem_of_nil; intros H; try done;
        repeat match goal with
               | H : (_ <? _) = true |- _ => apply Nat.ltb_lt in H
               | H : (_ <=? _) = true |- _ => apply Nat.leb_le in H
               end.
      - left. lia.
      - right; left. lia.
      - right; right; left.
        assert (q ≠ 0). { intros E; rewrite E in Hd. lia. }
        assert (sx ≤ sx * q) by nia.
        split; [lia|]. rewrite Nat.mul_sub_distr_l. lia.
      - right; right; right.
        assert (Hq : sx * q < sx * (sy - 1)) by lia.
        apply Nat.mul_lt_mono_pos_l in Hq; [|lia].
        split; [lia|]. nia. }
    split; [done|].
    destruct Hcase as [[? ->]|[[? ->]|[[? ->]|[? ->]]]].
    + split; [nia|]. left.
      rewrite <- (Nat.div_unique (sx * q + (r - 1)) sx q (r - 1)) by lia.
      rewrite <- (Nat.mod_unique (sx * q + (r - 1)) sx q (r - 1)) by lia.
      lia.
    + split; [nia|]. left.
      rewrite <- (Nat.div_unique (sx * q + (r + 1)) sx q (r + 1)) by lia.
      rewrite <- (Nat.mod_unique (sx * q + (r + 1)) sx q (r + 1)) by lia.
      lia.
    + split; [nia|]. right.
      rewrite <- (Nat.div_unique (sx * (q - 1) + r) sx (q - 1) r) by lia.
      rewrite <- (Nat.mod_unique (sx * (q - 1) + r) sx (q - 1) r) by lia.
      lia.
    + split; [nia|]. right.
      rewrite <- (Nat.div_unique (sx * (q + 1) + r) sx (q + 1) r) by lia.
      rewrite <- (Nat.mod_unique (sx * (q + 1) + r) sx (q + 1) r) by lia.
      lia.
  - intros (_ & Hnbr & Hadj).
    remember (nbr / sx) as q' eqn:Eq'. remember (nbr mod sx) as r' eqn:Er'.
    destruct Hadj as [[Hq [Hr|Hr]]|[Hr [Hq|Hq]]].
    + left. destruct (Nat.ltb_spec 0 r); [|lia].
      apply list_elem_of_singleton. nia.
    + right; left. destruct (Nat.ltb_spec r (sx - 1)); [|lia].
      apply list_elem_of_singleton. nia.
    + right; right; left. destruct (Nat.leb_spec sx idx); [|nia].
      apply list_elem_of_singleton. nia.
    + right; right; right. destruct (Nat.ltb_spec idx (sx * (sy - 1))).
      * apply list_elem_of_singleton. nia.
      * assert (Hq' : sx * q' < sx * sy) by lia.
        apply Nat.mul_lt_mono_pos_l in Hq'; [|lia].
        assert (Hle : sx * (q + 1) ≤ sx * (sy - 1))
          by (apply Nat.mul_le_mono_l; lia).
        rewrite Nat.mul_add_distr_l in Hle. lia.
Qed.

(** ** Reading the arrays *)

Lemma cell_at_lookup (m : list nat) idx v :
  idx < length m → cell_at m idx = v ↔ m !! idx = Some v.
Proof.
  intros Hlt. unfold cell_at.
  destruct (lookup_lt_is_Some_2 m idx Hlt) as [w ->]. simpl.
  split; congruence.
Qed.

Lemma flag_at_lookup (v : list bool) idx b :
  idx < length v → flag_at v idx = b ↔ v !! idx = Some b.
Proof.
  intros Hlt. unfold flag_at.
  destruct (lookup_lt_is_Some_2 v idx Hlt) as [w ->]. simpl.
  split; congruence.
Qed.

Lemma flag_at_true_lt (v : list bool) idx :
  flag_at v idx = true → idx < length v.
Proof.
  unfold flag_at. intros H. apply lookup_lt_is_Some.
  destruct (v !! idx); [eauto|done].
Qed.

Lemma flag_at_insert (v : list bool) i j :
  flag_at (<[i:=true]> v) j = if decide (i = j ∧ i < length v) then true else flag_at v j.
Proof.
  unfold flag_at. rewrite list_lookup_insert.
  destruct (decide (i = j ∧ i < length v)) as [[-> Hlt]|Hn].
  - destruct (decide (j = j ∧ j < length v)) as [|[]]; done.
  - destruct (decide (i = j ∧ j < length v)) as [[-> ?]|]; [|done].
    destruct Hn. done.
Qed.

Lemma flag_at_insert_mono (v : list bool) i j :
  flag_at v j = true → flag_at (<[i:=true]> v) j = true.
Proof. rewrite flag_at_insert. by destruct (decide _). Qed.

(** ** isNewFrontierCell *)

Lemma isNewFrontierCell_true fs idx (ff : list bool) :
  isNewFrontierCell fs idx ff = true ↔
    cell_at (map_ fs) idx = NO_INFORMATION ∧ flag_at ff idx = false ∧
    ∃ nbr, nbr ∈ nhood4 idx (costmap_ fs) ∧ cell_at (map_ fs) nbr = FREE_SPACE.
Proof.
  unfold isNewFrontierCell.
  destruct (Nat.eqb_spec (cell_at (map_ fs) idx) NO_INFORMATION) as [Hu|Hu]; simpl.
  - destruct (flag_at ff idx); simpl.
    + split; [done|]. by intros (_ & ? & _).
    + rewrite existsb_exists. split.
      * intros (nbr & Hin & Hfree). apply Nat.eqb_eq in Hfree.
        repeat split; [done..|]. exists nbr. by rewrite list_elem_of_In.
      * intros (_ & _ & nbr & Hin & Hfree). exists nbr.
        rewrite <- list_elem_of_In. by rewrite Nat.eqb_eq.
  - split; [done|]. by intros (? & _).
Qed.

Lemma isNewFrontierCell_unflagged fs idx ff :
  isNewFrontierCell fs idx ff = true → flag_at ff idx = false.
Proof. rewrite isNewFrontierCell_true. by intros (_ & ? & _). Qed.

(** ** A proof rule for the region-growing loop

    [P] holds each time the [while] loop is at its head and after each
    neighbour scanned; [Q] holds when the loop is left, by the empty queue
    or by [break]. *)

Section GrowthRule.
Context (fs : FrontierSearch) (pose : Pose.t).
Variables P Q : Growth → Prop.

Let n := size_x (costmap_ fs) * size_y (costmap_ fs).

Hypothesis Hcontinue : ∀ nbr g,
  P g → nbr < n → isNewFrontierCell fs nbr (flags g) = true →
  max_size_reached fs (Frontier.size (output (add_cell fs pose nbr g))) = false →
  P (enqueue nbr (add_cell fs pose nbr g)).
Hypothesis Hstop : ∀ nbr g,
  P g → nbr < n → isNewFrontierCell fs nbr (flags g) = true →
  max_size_reached fs (Frontier.size (output (add_cell fs pose nbr g))) = true →
  Q (add_cell fs pose nbr g).
Hypothesis Hdequeue : ∀ g idx rest,
  P g → queue g = idx :: rest →
  P (mkGrowth (output g) rest (flags g) (cells g)).
Hypothesis Hdrained : ∀ g, P g → queue g = [] → Q g.

Lemma grow_nhood8_rule nbrs g :
  Forall (λ nbr, nbr < n) nbrs → P g →
  let '(g', completed) := grow_nhood8 fs pose nbrs g in
  if completed then Q g' else P g'.
Proof using Hcontinue Hstop.
  intros Hn. revert g. induction Hn as [|nbr rest Hnbr _ IH]; intros g HP; simpl.
  - done.
  - destruct (isNewFrontierCell fs nbr (flags g)) eqn:Hnew; [|by apply IH].
    destruct (max_size_reached fs _) eqn:Hmax.
    + by apply Hstop.
    + apply IH. by apply Hcontinue.
Qed.

Lemma grow_frontier_rule fuel g g' :
  P g → grow_frontier fuel fs pose g = Some g' → Q g'.
Proof using All.
  revert g. induction fuel as [|fuel IH]; intros g HP; simpl; [done|].
  destruct (queue g) as [|idx rest] eqn:Hq.
  - intros [= <-]. by apply Hdrained.
  - pose proof (grow_nhood8_rule (nhood8 idx (costmap_ fs))
                  (mkGrowth (output g) rest (flags g) (cells g))) as Hstep.
    destruct (grow_nhood8 fs pose _ _) as [g1 completed].
    assert (Hg1 : if completed then Q g1 else P g1).
    { apply Hstep; [|by eapply Hdequeue].
      apply Forall_forall. intros nbr. apply nhood8_lt. }
    destruct completed.
    + by intros [= <-].
    + by apply IH.
Qed.
End GrowthRule.

(** ** Termination of the region-growing loop *)

Lemma unflagged_insert (v : list bool) i :
  v !! i = Some false → S (unflagged (<[i:=true]> v)) = unflagged v.
Proof.
  revert i. induction v as [|b v IH]; intros [|i]; simpl; try done.
  - by intros [= ->].
  - intros H. rewrite <- (IH i H). lia.
Qed.

Lemma unflagged_insert_le (v : list bool) i :
  unflagged (<[i:=true]> v) ≤ unflagged v.
Proof.
  revert i. induction v as [|b v IH]; intros [|i]; simpl; try done.
  - destruct b; lia.
  - specialize (IH i). lia.
Qed.

Lemma unflagged_le_length (v : list bool) : unflagged v ≤ length v.
Proof. induction v as [|[] v IH]; simpl; lia. Qed.

Lemma unflagged_replicate n : unflagged (replicate n false) = n.
Proof. induction n; simpl; lia. Qed.

Lemma grow_nhood8_measure fs pose nbrs g :
  Forall (λ nbr, nbr < length (flags g)) nbrs →
  let g' := (grow_nhood8 fs pose nbrs g).1 in
  length (queue g') + unflagged (flags g') ≤ length (queue g) + unflagged (flags g)
  ∧ length (flags g') = length (flags g).
Proof.
  revert g. induction nbrs as [|nbr rest IH]; intros g Hn; simpl; [done|].
  apply Forall_cons in Hn as [Hnbr Hrest].
  destruct (isNewFrontierCell fs nbr (flags g)) eqn:Hnew; [|by apply IH].
  apply isNewFrontierCell_unflagged in Hnew.
  apply flag_at_lookup in Hnew; [|done].
  pose proof (unflagged_insert _ _ Hnew) as Hdec.
  destruct (max_size_reached fs _) eqn:Hmax; simpl.
  - rewrite length_insert. lia.
  - specialize (IH (enqueue nbr (add_cell fs pose nbr g))).
    simpl in IH. rewrite length_insert, length_app in IH. simpl in IH.
    destruct IH as [IH1 IH2]; [done|]. lia.
Qed.

Lemma grow_frontier_terminates fs pose fuel g :
  size_x (costmap_ fs) * size_y (costmap_ fs) ≤ length (flags g) →
  length (queue g) + unflagged (flags g) < fuel →
  is_Some (grow_frontier fuel fs pose g).
Proof.
  revert g. induction fuel as [|fuel IH]; intros g Hlen Hfuel; [lia|]. simpl.
  destruct (queue g) as [|idx rest] eqn:Hq; [by eexists|].
  pose proof (grow_nhood8_measure fs pose (nhood8 idx (costmap_ fs))
                (mkGrowth (output g) rest (flags g) (cells g))) as Hm.
  simpl in Hm.
  destruct (grow_nhood8 fs pose _ _) as [g1 completed]. simpl in Hm.
  destruct Hm as [Hm1 Hm2].
  { apply Forall_forall. intros nbr Hin. apply nhood8_lt in Hin. lia. }
  destruct completed; [by eexists|].
  apply IH; [lia|]. simpl in Hfuel. lia.
Qed.

(** ** What the region-growing loop maintains *)

Lemma set_flags_snoc ff cs c :
  set_flags ff (cs ++ [c]) = <[c:=true]> (set_flags ff cs).
Proof. unfold set_flags. by rewrite fold_left_app. Qed.

Lemma length_set_flags ff cs : length (set_flags ff cs) = length ff.
Proof.
  revert ff. induction cs as [|c cs IH]; intros ff; simpl; [done|].
  unfold set_flags in *. simpl. by rewrite IH, length_insert.
Qed.

Lemma flag_at_set_flags ff cs j :
  flag_at (set_flags ff cs) j = true ↔
  flag_at ff j = true ∨ (j ∈ cs ∧ j < length ff).
Proof.
  induction cs as [|c cs IH] using rev_ind.
  - simpl. rewrite elem_of_nil. tauto.
  - rewrite set_flags_snoc, flag_at_insert, length_set_flags, elem_of_app,
      list_elem_of_singleton.
    destruct (decide (c = j ∧ c < length ff)) as [[-> ?]|Hn].
    + tauto.
    + rewrite IH. split; [tauto|]. intros [?|[[?| ->] ?]]; tauto.
Qed.

Lemma cell_point_z c idx : Point.z (cell_point c idx) = 0%float.
Proof.
  unfold cell_point. destruct (indexToCells c idx), (mapToWorld c _ _). done.
Qed.

Lemma cell_point_eta c idx :
  Point.mk (Point.x (cell_point c idx)) (Point.y (cell_point c idx)) 0 =
  cell_point c idx.
Proof.
  unfold cell_point. destruct (indexToCells c idx), (mapToWorld c _ _). done.
Qed.

Lemma closest_recorded_middle_z c pose out cs :
  closest_recorded c pose out cs → Point.z (Frontier.middle out) = 0%float.
Proof.
  intros [[_ Hm] | (cell & _ & Hm & _)]; rewrite Hm; [done|apply cell_point_z].
Qed.

Lemma grow_inv_add_cell fs pose seed ff0 nbr g :
  size_x (costmap_ fs) * size_y (costmap_ fs) ≤ length ff0 →
  grow_inv fs pose seed ff0 g →
  nbr < size_x (costmap_ fs) * size_y (costmap_ fs) →
  isNewFrontierCell fs nbr (flags g) = true →
  grow_inv fs pose seed ff0 (add_cell fs pose nbr g).
Proof.
  intros Hlen [Hsz Hpts Hfl Hnd Hfresh Hcl Hcost Hini] Hnbr Hnew.
  apply isNewFrontierCell_unflagged in Hnew.
  assert (Hnot : ¬ (flag_at ff0 nbr = true ∨ nbr ∈ cells g ∧ nbr < length ff0)).
  { rewrite <- flag_at_set_flags, <- Hfl, Hnew. done. }
  split; simpl.
  - rewrite length_app. simpl. lia.
  - by rewrite Hpts, fmap_app.
  - by rewrite set_flags_snoc, Hfl.
  - apply NoDup_app. split_and!; [done| |apply NoDup_singleton].
    intros c Hc. rewrite list_elem_of_singleton. intros ->.
    apply Hnot. right. split; [done|lia].
  - apply Forall_app. split; [done|]. apply Forall_singleton.
    split; [done|]. destruct (flag_at ff0 nbr); [|done]. destruct Hnot. by left.
  - pose proof (closest_recorded_middle_z _ _ _ _ Hcl) as Hz.
    destruct (_ <? _)%float.
    + right. exists nbr. rewrite elem_of_app, list_elem_of_singleton, Hz.
      split_and!; [by right| |done]. apply cell_point_eta.
    + destruct Hcl as [?|(cell & ? & ? & ?)]; [by left|].
      right. exists cell. rewrite elem_of_app. split_and!; [by left|done..].
  - done.
  - done.
Qed.

Lemma grow_frontier_inv fs pose seed ff0 fuel g g' :
  size_x (costmap_ fs) * size_y (costmap_ fs) ≤ length ff0 →
  grow_inv fs pose seed ff0 g →
  grow_frontier fuel fs pose g = Some g' →
  grow_inv fs pose seed ff0 g'.
Proof.
  intros Hlen. apply grow_frontier_rule.
  - intros nbr g0 Hinv Hnbr Hnew _.
    destruct (grow_inv_add_cell _ _ _ _ _ _ Hlen Hinv Hnbr Hnew). by split.
  - intros nbr g0 Hinv Hnbr Hnew _. by apply grow_inv_add_cell.
  - intros g0 idx rest [] _. by split.
  - done.
Qed.

Lemma grow_inv_initial fs pose seed ff0 :
  grow_inv fs pose seed ff0
    (mkGrowth (initial_output fs seed) [seed] ff0 []).
Proof.
  split; simpl; try done.
  - apply NoDup_nil_2.
  - by left.
Qed.

(** ** The size cap *)

Lemma grow_frontier_under_max fs pose fuel g g' :
  under_max fs (Frontier.size (output g)) →
  grow_frontier fuel fs pose g = Some g' →
  under_max fs (Frontier.size (output g') - 1).
Proof.
  apply (grow_frontier_rule fs pose
           (λ g, under_max fs (Frontier.size (output g)))
           (λ g, under_max fs (Frontier.size (output g) - 1))).
  - intros nbr g0 HP _ _ Hmax k Hk Hle. simpl in *.
    destruct (decide (k = S (Frontier.size (output g0)))) as [->|]; [done|].
    apply HP; lia.
  - intros nbr g0 HP _ _ _ k Hk Hle. simpl in *. apply HP; lia.
  - done.
  - intros g0 HP _ k Hk Hle. apply HP; lia.
Qed.

Lemma max_size_reached_unset fs k :
  (0 <? max_frontier_size_ fs)%float = false → max_size_reached fs k = false.
Proof. unfold max_size_reached. by intros ->. Qed.

Lemma grow_nhood8_uncapped fs pose nbrs g :
  (0 <? max_frontier_size_ fs)%float = false →
  (grow_nhood8 fs pose nbrs g).2 = false.
Proof.
  intros Hmax. revert g. induction nbrs as [|nbr rest IH]; intros g; simpl; [done|].
  destruct (isNewFrontierCell fs nbr (flags g)); [|apply IH].
  rewrite max_size_reached_unset by done. apply IH.
Qed.

(** ** buildNewFrontier *)

Section BuildFacts.
Context {tf : Tf2}.

Lemma buildNewFrontier_total fs seed pose ff :
  size_x (costmap_ fs) * size_y (costmap_ fs) ≤ length ff →
  is_Some (buildNewFrontier fs seed pose ff).
Proof.
  intros Hlen. unfold buildNewFrontier, grow_fuel.
  destruct (grow_frontier_terminates fs pose (S (S (length ff)))
              (mkGrowth (initial_output fs seed) [seed] ff [])) as [g ->].
  - done.
  - simpl. pose proof (unflagged_le_length ff). lia.
  - by eexists.
Qed.

Lemma buildNewFrontier_grown fs seed pose ff b :
  buildNewFrontier fs seed pose ff = Some b →
  ∃ g, grow_frontier (grow_fuel ff) fs pose
         (mkGrowth (initial_output fs seed) [seed] ff []) = Some g ∧
       b = mkBuilt (finish_frontier pose (output g)) (flags g) (cells g).
Proof.
  unfold buildNewFrontier. destruct (grow_frontier _ _ _ _) as [g|]; simpl; [|done].
  intros [= <-]. by exists g.
Qed.

Lemma buildNewFrontier_ok fs seed pose ff b :
  size_x (costmap_ fs) * size_y (costmap_ fs) ≤ length ff →
  buildNewFrontier fs seed pose ff = Some b →
  built_ok fs pose seed ff b.
Proof.
  intros Hlen Hb. apply buildNewFrontier_grown in Hb as (g & Hg & ->).
  pose proof (grow_frontier_inv fs pose seed ff _ _ _ Hlen
                (grow_inv_initial fs pose seed ff) Hg) as [].
  split; simpl; try done.
  eapply grow_frontier_under_max; [|done].
  intros k Hk Hle. simpl in Hle. lia.
Qed.
End BuildFacts.

(** ** A proof rule for the grid-wide search

    [P] is kept by the three things the search does: visiting a cell,
    building a region, and dequeuing. *)

Section SearchRule.
Context {tf : Tf2} (fs : FrontierSearch) (pose : Pose.t).
Variable P : Search → Prop.

Let n := size_x (costmap_ fs) * size_y (costmap_ fs).

Hypothesis Hvisit : ∀ nbr s,
  P s → nbr < n → flag_at (visited_flag s) nbr = false →
  P (mkSearch (bfs s ++ [nbr]) (<[nbr:=true]> (visited_flag s))
              (frontier_flag s) (frontier_list s) (regions s)).
Hypothesis Hbuild : ∀ nbr s b,
  P s → nbr < n → isNewFrontierCell fs nbr (frontier_flag s) = true →
  buildNewFrontier fs nbr pose (<[nbr:=true]> (frontier_flag s)) = Some b →
  P (mkSearch (bfs s) (visited_flag s) (built_flags b)
       (if min_size_met fs (built_frontier b)
        then frontier_list s ++
             [Frontier.set_cost (built_frontier b) (frontierCost fs (built_frontier b))]
        else frontier_list s)
       (regions s ++ [(nbr, b)])).
Hypothesis Hdequeue : ∀ s idx rest,
  P s → bfs s = idx :: rest →
  P (mkSearch rest (visited_flag s) (frontier_flag s) (frontier_list s) (regions s)).

Lemma visit_nhood4_rule idx nbrs s s' :
  Forall (λ nbr, nbr < n) nbrs → P s →
  visit_nhood4 fs pose idx nbrs s = Some s' → P s'.
Proof using Hvisit Hbuild.
  intros Hn. revert s. induction Hn as [|nbr rest Hnbr _ IH]; intros s HP; simpl.
  - by intros [= <-].
  - destruct (_ && _) eqn:Hfree.
    + apply IH. apply Hvisit; [done..|].
      apply andb_true_iff in Hfree as [_ Hv]. by apply negb_true_iff in Hv.
    + destruct (isNewFrontierCell fs nbr (frontier_flag s)) eqn:Hnew; [|by apply IH].
      destruct (buildNewFrontier fs nbr pose _) as [b|] eqn:Hb; simpl; [|done].
      apply IH. by apply Hbuild.
Qed.

Lemma search_loop_rule fuel s s' :
  P s → search_loop fuel fs pose s = Some s' → P s'.
Proof using All.
  revert s. induction fuel as [|fuel IH]; intros s HP; simpl; [done|].
  destruct (bfs s) as [|idx rest] eqn:Hq; [by intros [= <-]|].
  destruct (visit_nhood4 fs pose idx _ _) as [s1|] eqn:Hs1; simpl; [|done].
  apply IH. eapply visit_nhood4_rule; [| |exact Hs1].
  - apply Forall_forall. intros nbr. apply nhood4_lt.
  - by eapply Hdequeue.
Qed.
End SearchRule.

Lemma search_loop_drained {tf : Tf2} fuel fs pose s s' :
  search_loop fuel fs pose s = Some s' → bfs s' = [].
Proof.
  revert s. induction fuel as [|fuel IH]; intros s; simpl; [done|].
  destruct (bfs s) as [|idx rest] eqn:Hq; [by intros [= <-]|].
  destruct (visit_nhood4 fs pose idx _ _) as [s1|]; simpl; [|done].
  apply IH.
Qed.

(** ** Termination of the grid-wide search *)

Lemma built_flags_length {tf : Tf2} fs seed pose ff b :
  size_x (costmap_ fs) * size_y (costmap_ fs) ≤ length ff →
  buildNewFrontier fs seed pose ff = Some b →
  length (built_flags b) = length ff.
Proof.
  intros Hlen Hb. destruct (buildNewFrontier_ok _ _ _ _ _ Hlen Hb).
  by rewrite ok_flags0, length_set_flags.
Qed.

Lemma visit_nhood4_measure {tf : Tf2} fs pose idx nbrs s :
  Forall (λ nbr, nbr < length (visited_flag s)) nbrs →
  size_x (costmap_ fs) * size_y (costmap_ fs) ≤ length (frontier_flag s) →
  ∃ s', visit_nhood4 fs pose idx nbrs s = Some s' ∧
    length (bfs s') + unflagged (visited_flag s')
      ≤ length (bfs s) + unflagged (visited_flag s) ∧
    length (visited_flag s') = length (visited_flag s) ∧
    length (frontier_flag s') = length (frontier_flag s).
Proof.
  revert s. induction nbrs as [|nbr rest IH]; intros s Hn Hlen; simpl.
  { by exists s. }
  apply Forall_cons in Hn as [Hnbr Hrest].
  destruct (_ && _) eqn:Hfree.
  - apply andb_true_iff in Hfree as [_ Hv]. apply negb_true_iff in Hv.
    apply flag_at_lookup in Hv; [|done].
    pose proof (unflagged_insert _ _ Hv) as Hdec.
    destruct (IH (mkSearch (bfs s ++ [nbr]) (<[nbr:=true]> (visited_flag s))
                    (frontier_flag s) (frontier_list s) (regions s)))
      as (s' & Hs' & Hm & Hl1 & Hl2); simpl; [by rewrite length_insert|done|].
    simpl in *. rewrite length_insert, length_app in *. simpl in *.
    exists s'. split_and!; [done|lia|done..].
  - destruct (isNewFrontierCell fs nbr (frontier_flag s)) eqn:Hnew; [|by apply IH].
    destruct (buildNewFrontier_total fs nbr pose (<[nbr:=true]> (frontier_flag s)))
      as [b Hb]; [by rewrite length_insert|].
    rewrite Hb. simpl.
    pose proof (built_flags_length fs nbr pose
                  (<[nbr:=true]> (frontier_flag s)) b) as Hbl.
    rewrite length_insert in Hbl. specialize (Hbl Hlen Hb).
    match goal with |- context [visit_nhood4 fs pose idx rest ?s1] =>
      destruct (IH s1) as (s' & Hs' & Hm & Hl1 & Hl2); simpl; [done|lia|]
    end.
    simpl in *. exists s'. split_and!; [done..|lia].
Qed.

Lemma search_loop_terminates {tf : Tf2} fs pose fuel s :
  size_x (costmap_ fs) * size_y (costmap_ fs) ≤ length (visited_flag s) →
  size_x (costmap_ fs) * size_y (costmap_ fs) ≤ length (frontier_flag s) →
  length (bfs s) + unflagged (visited_flag s) < fuel →
  is_Some (search_loop fuel fs pose s).
Proof.
  revert s. induction fuel as [|fuel IH]; intros s Hv Hf Hfuel; [lia|]. simpl.
  destruct (bfs s) as [|idx rest] eqn:Hq; [by eexists|].
  destruct (visit_nhood4_measure fs pose idx (nhood4 idx (costmap_ fs))
              (mkSearch rest (visited_flag s) (frontier_flag s)
                        (frontier_list s) (regions s)))
    as (s1 & Hs1 & Hm & Hl1 & Hl2); simpl.
  - apply Forall_forall. intros nbr Hin. apply nhood4_lt in Hin. lia.
  - done.
  - rewrite Hs1. simpl. simpl in *. apply IH; lia.
Qed.

(** ** What the grid-wide search maintains *)

Lemma accepted_snoc fs rs r :
  accepted fs (rs ++ [r]) =
  accepted fs rs ++
  (if min_size_met fs (built_frontier r.2)
   then [Frontier.set_cost (built_frontier r.2) (frontierCost fs (built_frontier r.2))]
   else []).
Proof.
  induction rs as [|r' rs IH]; simpl.
  - by rewrite app_nil_r.
  - by rewrite IH, app_assoc.
Qed.

Lemma claimed_snoc rs r : claimed (rs ++ [r]) = claimed rs ++ region_cells r.
Proof.
  unfold claimed. rewrite fmap_app, concat_app. simpl. by rewrite app_nil_r.
Qed.

Lemma search_inv_build {tf : Tf2} fs pose nbr s b :
  search_inv fs pose s →
  nbr < size_x (costmap_ fs) * size_y (costmap_ fs) →
  isNewFrontierCell fs nbr (frontier_flag s) = true →
  buildNewFrontier fs nbr pose (<[nbr:=true]> (frontier_flag s)) = Some b →
  search_inv fs pose
    (mkSearch (bfs s) (visited_flag s) (built_flags b)
       (if min_size_met fs (built_frontier b)
        then frontier_list s ++
             [Frontier.set_cost (built_frontier b) (frontierCost fs (built_frontier b))]
        else frontier_list s)
       (regions s ++ [(nbr, b)])).
Proof.
  intros [Hlen Hlist Hnd Hfl Hreg] Hnbr Hnew Hb.
  apply isNewFrontierCell_unflagged in Hnew.
  set (ff1 := <[nbr:=true]> (frontier_flag s)) in *.
  assert (Hlen1 : size_x (costmap_ fs) * size_y (costmap_ fs) ≤ length ff1)
    by (unfold ff1; rewrite length_insert; lia).
  assert (Hseed : flag_at ff1 nbr = true).
  { unfold ff1. rewrite flag_at_insert. destruct (decide _) as [|[]]; [done|].
    split; [done|lia]. }
  pose proof (buildNewFrontier_ok fs nbr pose ff1 b Hlen1 Hb) as Hok.
  pose proof Hok as [_ _ Hflags Hndb Hfresh _ _ _ _].
  rewrite Forall_forall in Hfl, Hfresh.
  assert (Hold : ∀ c, c ∈ claimed (regions s) → c ∉ region_cells (nbr, b)).
  { intros c Hc. specialize (Hfl c Hc). unfold region_cells. simpl.
    rewrite not_elem_of_cons. split.
    - intros ->. congruence.
    - intros Hin. destruct (Hfresh c Hin) as [_ Hf]. unfold ff1 in Hf.
      rewrite (flag_at_insert_mono _ nbr c Hfl) in Hf. done. }
  split; simpl.
  - rewrite Hflags, length_set_flags. unfold ff1. by rewrite length_insert.
  - rewrite accepted_snoc, Hlist. simpl.
    destruct (min_size_met fs (built_frontier b)); [done|by rewrite app_nil_r].
  - rewrite claimed_snoc. apply NoDup_app. split_and!; [done|done|].
    unfold region_cells. simpl. apply NoDup_cons. split; [|done].
    intros Hin. destruct (Hfresh nbr Hin) as [_ Hf]. congruence.
  - rewrite claimed_snoc. apply Forall_app. split.
    + apply Forall_forall. intros c Hc. rewrite Hflags.
      apply flag_at_set_flags. left. unfold ff1.
      apply flag_at_insert_mono. by apply Hfl.
    + apply Forall_forall. intros c. unfold region_cells. simpl.
      rewrite elem_of_cons, Hflags, flag_at_set_flags. intros [->|Hin].
      * by left.
      * right. split; [done|]. destruct (Hfresh c Hin). lia.
  - apply Forall_app. split; [done|]. apply Forall_singleton. simpl.
    exists ff1. split_and!; [done| |done].
    apply flag_at_lookup; [lia|done].
Qed.

Lemma search_loop_inv {tf : Tf2} fs pose fuel s s' :
  search_inv fs pose s →
  search_loop fuel fs pose s = Some s' →
  search_inv fs pose s'.
Proof.
  apply search_loop_rule.
  - intros nbr s0 [] _ _. by split.
  - intros nbr s0 b. apply search_inv_build.
  - intros s0 idx rest [] _. by split.
Qed.

Lemma search_loop_visited {tf : Tf2} fs pose fuel cell s s' :
  flag_at (visited_flag s) cell = true →
  search_loop fuel fs pose s = Some s' →
  flag_at (visited_flag s') cell = true.
Proof.
  apply (search_loop_rule fs pose (λ s, flag_at (visited_flag s) cell = true)).
  - intros nbr s0 Hv _ _. simpl. by apply flag_at_insert_mono.
  - done.
  - done.
Qed.

(** ** The contract of std::sort can be met *)

Lemma linear_insert_perm {A} (comp : A → A → bool) val before :
  linear_insert comp val before ≡ₚ val :: before.
Proof.
  induction before as [|next before IH]; simpl; [done|].
  destruct (comp val next); [|done]. rewrite IH. apply Permutation_swap.
Qed.

Lemma insertion_step_perm {A} (comp : A → A → bool) sorted val :
  insertion_step comp sorted val ≡ₚ val :: sorted.
Proof.
  unfold insertion_step. destruct (last sorted) as [first|] eqn:Hlast.
  - destruct (comp val first).
    + by rewrite Permutation_app_comm.
    + apply linear_insert_perm.
  - apply last_None in Hlast. by subst.
Qed.

Lemma insertion_sort_perm {A} (comp : A → A → bool) l :
  l ≡ₚ insertion_sort comp l.
Proof.
  unfold insertion_sort. rewrite reverse_Permutation.
  assert (H : ∀ acc, fold_left (insertion_step comp) l acc ≡ₚ acc ++ l).
  { induction l as [|x l IH]; intros acc; simpl; [by rewrite app_nil_r|].
    rewrite IH, insertion_step_perm. by rewrite <- Permutation_middle. }
  by rewrite (H []).
Qed.

Lemma strict_weak_ordering_irrefl {A} (comp : A → A → bool) l a :
  strict_weak_ordering comp l → a ∈ l → comp a a = false.
Proof. intros (H & _) Ha. rewrite Forall_forall in H. by apply H. Qed.

Lemma strict_weak_ordering_trans {A} (comp : A → A → bool) l a b c :
  strict_weak_ordering comp l → a ∈ l → b ∈ l → c ∈ l →
  comp a b = true → comp b c = true → comp a c = true.
Proof.
  intros (_ & H & _) Ha Hb Hc.
  rewrite Forall_forall in H. specialize (H a Ha).
  rewrite Forall_forall in H. specialize (H b Hb).
  rewrite Forall_forall in H. by apply H.
Qed.

Lemma strict_weak_ordering_incomparable {A} (comp : A → A → bool) l a b c :
  strict_weak_ordering comp l → a ∈ l → b ∈ l → c ∈ l →
  comp a b = false → comp b a = false → comp b c = false → comp c b = false →
  comp a c = false ∧ comp c a = false.
Proof.
  intros (_ & _ & H) Ha Hb Hc.
  rewrite Forall_forall in H. specialize (H a Ha).
  rewrite Forall_forall in H. specialize (H b Hb).
  rewrite Forall_forall in H. by apply H.
Qed.

(** In a strict weak ordering, an element less than another is less than
    every third element, or the third is less than the other. *)
Lemma strict_weak_ordering_between {A} (comp : A → A → bool) l a b c :
  strict_weak_ordering comp l → a ∈ l → b ∈ l → c ∈ l →
  comp a b = true → comp a c = true ∨ comp c b = true.
Proof.
  intros Hswo Ha Hb Hc Hab.
  destruct (comp a c) eqn:Hac; [by left|].
  destruct (comp c b) eqn:Hcb; [by right|]. exfalso.
  destruct (comp c a) eqn:Hca.
  { pose proof (strict_weak_ordering_trans comp l c a b Hswo Hc Ha Hb Hca Hab).
    congruence. }
  destruct (comp b c) eqn:Hbc.
  { pose proof (strict_weak_ordering_trans comp l a b c Hswo Ha Hb Hc Hab Hbc).
    congruence. }
  destruct (strict_weak_ordering_incomparable comp l a c b Hswo Ha Hc Hb
              Hac Hca Hcb Hbc) as [? _].
  congruence.
Qed.

Lemma linear_insert_sorted {A} (comp : A → A → bool) l0 val before :
  strict_weak_ordering comp l0 → val ∈ l0 → before ⊆ l0 →
  sorted_back comp before → sorted_back comp (linear_insert comp val before).
Proof.
  intros Hswo Hval Hsub Hs. unfold sorted_back in *.
  induction Hs as [|next before Hs IH Hnext]; simpl.
  - repeat constructor.
  - assert (Hn : next ∈ l0) by (apply Hsub; left).
    assert (Hb : before ⊆ l0) by (intros z Hz; apply Hsub; by right).
    destruct (comp val next) eqn:Hvn.
    + constructor; [by apply IH|].
      rewrite (linear_insert_perm comp val before). constructor; [|done].
      destruct (comp next val) eqn:Hnv; [|done].
      pose proof (strict_weak_ordering_trans comp l0 val next val Hswo
                    Hval Hn Hval Hvn Hnv).
      pose proof (strict_weak_ordering_irrefl comp l0 val Hswo Hval). congruence.
    + constructor; [by constructor|]. constructor; [done|].
      rewrite Forall_forall in Hnext |- *. intros z Hz.
      destruct (comp val z) eqn:Hvz; [|done].
      destruct (strict_weak_ordering_between comp l0 val z next Hswo Hval
                  (Hb z Hz) Hn Hvz) as [H|H]; [congruence|].
      rewrite (Hnext z Hz) in H. done.
Qed.

Lemma sorted_back_snoc {A} (comp : A → A → bool) l x :
  sorted_back comp l → Forall (λ a, comp a x = false) l →
  sorted_back comp (l ++ [x]).
Proof.
  unfold sorted_back. intros Hs Hx.
  induction Hs as [|a l Hs IH Ha]; simpl.
  - repeat constructor.
  - apply Forall_cons in Hx as [Hax Hx]. constructor; [by apply IH|].
    apply Forall_app. split; [done|]. by apply Forall_singleton.
Qed.

Lemma sorted_back_last {A} (comp : A → A → bool) l first a :
  sorted_back comp l → last l = Some first → a ∈ l →
  a = first ∨ comp a first = false.
Proof.
  unfold sorted_back. intros Hs. induction Hs as [|b l Hs IH Hb]; [done|].
  destruct l as [|c l'].
  - intros [= ->] ->%list_elem_of_singleton. by left.
  - intros Hlast. change (last (b :: c :: l')) with (last (c :: l')) in Hlast.
    intros [->|Hin]%elem_of_cons; [|by apply IH].
    right. rewrite Forall_forall in Hb. apply Hb.
    by apply last_Some_elem_of.
Qed.

Lemma insertion_step_sorted {A} (comp : A → A → bool) l0 sorted val :
  strict_weak_ordering comp l0 → val ∈ l0 → sorted ⊆ l0 →
  sorted_back comp sorted → sorted_back comp (insertion_step comp sorted val).
Proof.
  intros Hswo Hval Hsub Hs. unfold insertion_step.
  destruct (last sorted) as [first|] eqn:Hlast; [|repeat constructor].
  destruct (comp val first) eqn:Hvf; [|by eapply linear_insert_sorted].
  apply sorted_back_snoc; [done|].
  assert (Hf : first ∈ l0) by (by apply Hsub, last_Some_elem_of).
  apply Forall_forall. intros a Ha.
  destruct (comp a val) eqn:Hav; [|done].
  pose proof (strict_weak_ordering_trans comp l0 a val first Hswo
                (Hsub a Ha) Hval Hf Hav Hvf) as Haf.
  destruct (sorted_back_last comp sorted first a Hs Hlast Ha) as [->|Hn];
    [|congruence].
  pose proof (strict_weak_ordering_irrefl comp l0 first Hswo Hf). congruence.
Qed.

Lemma sorted_by_snoc {A} (comp : A → A → bool) l x :
  sorted_by comp l → Forall (λ b, comp x b = false) l →
  sorted_by comp (l ++ [x]).
Proof.
  unfold sorted_by. intros Hs Hx.
  induction Hs as [|a l Hs IH Ha]; simpl.
  - repeat constructor.
  - apply Forall_cons in Hx as [Hax Hx]. constructor; [by apply IH|].
    apply Forall_app. split; [done|]. by apply Forall_singleton.
Qed.

Lemma sorted_back_reverse {A} (comp : A → A → bool) l :
  sorted_back comp l → sorted_by comp (reverse l).
Proof.
  induction 1 as [|a l Hs IH Ha]; [constructor|].
  rewrite reverse_cons. apply sorted_by_snoc; [done|].
  apply Forall_forall. intros b Hb. rewrite Forall_forall in Ha.
  apply Ha. by apply elem_of_reverse.
Qed.

Lemma insertion_sort_sorted {A} (comp : A → A → bool) l :
  strict_weak_ordering comp l → sorted_by comp (insertion_sort comp l).
Proof.
  intros Hswo. apply sorted_back_reverse.
  assert (H : ∀ todo acc, todo ⊆ l → acc ⊆ l → sorted_back comp acc →
            sorted_back comp (fold_left (insertion_step comp) todo acc)).
  { induction todo as [|x todo IH]; intros acc Htodo Hacc Hs; simpl; [done|].
    apply IH.
    - intros z Hz. apply Htodo. by right.
    - intros z Hz. rewrite (insertion_step_perm comp acc x) in Hz.
      apply elem_of_cons in Hz as [->|Hz]; [apply Htodo; left|by apply Hacc].
    - apply (insertion_step_sorted comp l); [done|apply Htodo; left|done..]. }
  apply H; [done|by intros z Hz%elem_of_nil|constructor].
Qed.

Lemma std_sort_insertion_sort {A} (comp : A → A → bool) l :
  std_sort comp l (insertion_sort comp l).
Proof. split; [apply insertion_sort_perm|apply insertion_sort_sorted]. Qed.

(** ** The sort of libstdc++ *)

Lemma insert_head_perm {A} (l : list A) j x b :
  l !! j = Some b → x :: l ≡ₚ b :: <[j:=x]> l.
Proof.
  revert j. induction l as [|y l IH]; intros [|j] Hj; try done; simpl in *.
  - injection Hj as ->. apply perm_swap.
  - rewrite (perm_swap y x), (IH j Hj). apply perm_swap.
Qed.

Lemma iter_swap_perm {A} i j (l l' : list A) : iter_swap i j l = Some l' → l ≡ₚ l'.
Proof.
  unfold iter_swap. intros H.
  destruct (l !! i) as [a|] eqn:Hi; [|done].
  destruct (l !! j) as [b|] eqn:Hj; [|done].
  injection H as <-.
  revert i j Hi Hj. induction l as [|x l IH]; intros [|i] [|j] Hi Hj;
    try done; simpl in *.
  - injection Hi as ->. by injection Hj as ->.
  - injection Hi as ->. by apply insert_head_perm.
  - injection Hj as ->. by apply insert_head_perm.
  - apply perm_skip. by apply IH.
Qed.

Lemma move_median_to_first_perm {A} (comp : A → A → bool) r a b c l l' :
  move_median_to_first comp r a b c l = Some l' → l ≡ₚ l'.
Proof.
  unfold move_median_to_first.
  destruct (comp_at comp l a b) as [[]|], (comp_at comp l b c) as [[]|],
    (comp_at comp l a c) as [[]|]; try done; apply iter_swap_perm.
Qed.

Lemma unguarded_partition_perm {A} fuel (comp : A → A → bool) first last pivot l cut l' :
  unguarded_partition fuel comp first last pivot l = Some (cut, l') → l ≡ₚ l'.
Proof.
  revert first last l. induction fuel as [|fuel IH]; intros first [|last] l;
    cbn [unguarded_partition]; try done.
  destruct (scan_up _ _ _ _ _) as [first'|]; [|done]. cbn [mbind option_bind].
  destruct (scan_down _ _ _ _ _) as [last'|]; [|done]. cbn [mbind option_bind].
  destruct (first' <? last').
  - destruct (iter_swap first' last' l) as [l1|] eqn:Hswap; [|done]. simpl.
    intros H%IH. by rewrite (iter_swap_perm _ _ _ _ Hswap).
  - by intros [= _ <-].
Qed.

Lemma unguarded_partition_pivot_perm {A} (comp : A → A → bool) first last l cut l' :
  unguarded_partition_pivot comp first last l = Some (cut, l') → l ≡ₚ l'.
Proof.
  unfold unguarded_partition_pivot.
  destruct (move_median_to_first _ _ _ _ _ _) as [l1|] eqn:Hm; [|done].
  cbn [mbind option_bind]. intros H%unguarded_partition_perm.
  by rewrite (move_median_to_first_perm _ _ _ _ _ _ _ Hm).
Qed.

Lemma introsort_loop_perm {A} depth (comp : A → A → bool) first last l l' :
  introsort_loop depth comp first last l = Some l' → l ≡ₚ l'.
Proof.
  revert first last l l'. induction depth as [|depth IH]; intros first last l l';
    cbn [introsort_loop]; destruct (16 <? last - first); try done;
    try by intros [= <-].
  destruct (unguarded_partition_pivot comp first last l) as [[cut l1]|] eqn:Hp;
    [|done]. cbn [mbind option_bind].
  destruct (introsort_loop depth comp cut last l1) as [l2|] eqn:H2; [|done].
  cbn [mbind option_bind]. intros H3%IH. apply IH in H2.
  by rewrite (unguarded_partition_pivot_perm _ _ _ _ _ _ Hp), H2.
Qed.

Lemma unguarded_linear_insert_perm {A} (comp : A → A → bool) val before l' :
  unguarded_linear_insert comp val before = Some l' → val :: before ≡ₚ l'.
Proof.
  revert l'. induction before as [|next before IH]; intros l'; simpl; [done|].
  destruct (comp val next); [|by intros [= <-]].
  destruct (unguarded_linear_insert comp val before) as [rest|]; [|done]. simpl.
  intros [= <-]. rewrite perm_swap. apply perm_skip. by apply IH.
Qed.

Lemma unguarded_insertion_sort_perm {A} (comp : A → A → bool) sorted rest l' :
  unguarded_insertion_sort comp sorted rest = Some l' → sorted ++ rest ≡ₚ l'.
Proof.
  revert sorted l'. induction rest as [|val rest IH]; intros sorted l'; simpl.
  - intros [= <-]. by rewrite app_nil_r.
  - destruct (unguarded_linear_insert comp val sorted) as [sorted'|] eqn:Hi; [|done].
    simpl. intros H%IH. rewrite <- H.
    rewrite <- (unguarded_linear_insert_perm _ _ _ _ Hi).
    simpl. by rewrite Permutation_middle.
Qed.

Lemma fold_insertion_step_perm {A} (comp : A → A → bool) l acc :
  fold_left (insertion_step comp) l acc ≡ₚ acc ++ l.
Proof.
  revert acc. induction l as [|x l IH]; intros acc; simpl.
  - by rewrite app_nil_r.
  - rewrite IH, insertion_step_perm. simpl. by rewrite Permutation_middle.
Qed.

Lemma final_insertion_sort_perm {A} (comp : A → A → bool) l l' :
  final_insertion_sort comp l = Some l' → l ≡ₚ l'.
Proof.
  unfold final_insertion_sort. destruct (16 <? length l).
  - destruct (unguarded_insertion_sort _ _ _) as [sorted|] eqn:Hs; [|done]. simpl.
    intros [= <-]. rewrite reverse_Permutation.
    rewrite <- (unguarded_insertion_sort_perm _ _ _ _ Hs).
    rewrite fold_insertion_step_perm. simpl. by rewrite take_drop.
  - intros [= <-]. apply insertion_sort_perm.
Qed.

(** The sort only moves the elements about, whatever the comparison. *)
Lemma libstdcxx_sort_perm {A} (comp : A → A → bool) l l' :
  libstdcxx_sort comp l = Some l' → l ≡ₚ l'.
Proof.
  unfold libstdcxx_sort. destruct l as [|x l]; [by intros [= <-]|].
  destruct (introsort_loop _ _ _ _ _) as [l1|] eqn:H1; [|done].
  cbn [mbind option_bind]. intros H%final_insertion_sort_perm. apply introsort_loop_perm in H1.
  by rewrite H1.
Qed.

(** On a range of at most 16 elements the sort is the insertion sort. *)
Lemma libstdcxx_sort_short {A} (comp : A → A → bool) l :
  length l ≤ 16 → libstdcxx_sort comp l = Some (insertion_sort comp l).
Proof.
  intros Hlen. unfold libstdcxx_sort. destruct l as [|x l]; [done|].
  assert (H16 : (16 <? length (x :: l)) = false) by by apply Nat.ltb_ge.
  assert (Hloop : ∀ d, introsort_loop d comp 0 (length (x :: l)) (x :: l)
                       = Some (x :: l)).
  { intros d. destruct d; cbn [introsort_loop]; rewrite Nat.sub_0_r;
      by rewrite H16. }
  rewrite Hloop. cbn [mbind option_bind]. unfold final_insertion_sort.
  by rewrite H16.
Qed.

(** On such a range the sort meets the contract, whatever the comparison. *)
Lemma libstdcxx_sort_short_contract {A} (comp : A → A → bool) l l' :
  length l ≤ 16 → libstdcxx_sort comp l = Some l' → std_sort comp l l'.
Proof.
  intros Hlen. rewrite libstdcxx_sort_short by done. intros [= <-].
  apply std_sort_insertion_sort.
Qed.

(** ** The pose cell *)

Lemma worldToMap_bounds {uc : UnsignedCast} c wx wy mx my :
  worldToMap c wx wy = Some (mx, my) → mx < size_x c ∧ my < size_y c.
Proof.
  unfold worldToMap. destruct (_ || _); [done|].
  destruct (_ && _) eqn:Hlt; [|done].
  apply andb_true_iff in Hlt as [Ha Hb].
  apply N.ltb_lt in Ha, Hb. intros [= <- <-]. lia.
Qed.

Lemma getIndex_lt c mx my :
  mx < size_x c → my < size_y c → getIndex c mx my < size_x c * size_y c.
Proof. unfold getIndex. nia. Qed.

(** ** discover *)

Section DiscoverFacts.
Context {tf : Tf2} {uc : UnsignedCast}.

Lemma discover_unfold fs pose mx my :
  discover fs pose mx my =
  s ← search_loop (S (S (size_x (costmap_ fs) * size_y (costmap_ fs))))
        (cache_costmap fs) pose
        (initial_search (cache_costmap fs) (start_cell fs mx my).1);
  Some (s, (start_cell fs mx my).2).
Proof. unfold discover. by destruct (start_cell fs mx my). Qed.

Lemma search_inv_initial fs pose front :
  search_inv (cache_costmap fs) pose (initial_search (cache_costmap fs) front).
Proof.
  split; simpl.
  - apply length_replicate.
  - done.
  - apply NoDup_nil_2.
  - constructor.
  - constructor.
Qed.

Lemma discover_total fs pose mx my : is_Some (discover fs pose mx my).
Proof.
  rewrite discover_unfold.
  destruct (search_loop_terminates (cache_costmap fs) pose
              (S (S (size_x (costmap_ fs) * size_y (costmap_ fs))))
              (initial_search (cache_costmap fs) (start_cell fs mx my).1)) as [s Hs];
    [simpl; unfold getSizeInCellsX, getSizeInCellsY..|].
  - by rewrite length_insert, length_replicate.
  - by rewrite length_replicate.
  - pose proof (unflagged_insert_le
                  (replicate (size_x (costmap_ fs) * size_y (costmap_ fs)) false)
                  (start_cell fs mx my).1).
    rewrite unflagged_replicate in *. lia.
  - rewrite Hs. by eexists.
Qed.

Lemma discover_search_loop fs pose mx my s log :
  discover fs pose mx my = Some (s, log) →
  search_loop (S (S (size_x (costmap_ fs) * size_y (costmap_ fs))))
    (cache_costmap fs) pose
    (initial_search (cache_costmap fs) (start_cell fs mx my).1) = Some s
  ∧ log = (start_cell fs mx my).2.
Proof.
  rewrite discover_unfold.
  destruct (search_loop _ _ _ _) as [s1|]; simpl; [|done].
  by intros [= <- <-].
Qed.

Lemma discover_inv fs pose mx my s log :
  discover fs pose mx my = Some (s, log) →
  search_inv (cache_costmap fs) pose s ∧ bfs s = [].
Proof.
  intros Hd. apply discover_search_loop in Hd as [Hs _]. split.
  - eapply search_loop_inv; [|exact Hs]. apply search_inv_initial.
  - by eapply search_loop_drained.
Qed.

(** ** searchFrom *)

(** Every call returns. *)
Lemma searchFrom_total fs pose : ∃ o, searchFrom fs pose o.
Proof.
  destruct (pose_cell fs pose) as [[mx my]|] eqn:Hcell.
  - destruct (discover_total fs pose mx my) as [[s log] Hd].
    eexists. eapply search_completed; [done..|].
    apply std_sort_insertion_sort.
  - eexists. by apply search_out_of_bounds.
Qed.

Lemma searchFrom_searched fs pose o s :
  searchFrom fs pose o → search o = Some s →
  ∃ mx my,
    pose_cell fs pose = Some (mx, my) ∧
    discover fs pose mx my = Some (s, logged o) ∧
    std_sort cost_lt (frontier_list s) (returned o) ∧
    self o = cache_costmap fs.
Proof.
  intros [Hcell|mx my s' log sorted Hcell Hd Hsort]; simpl; [done|].
  intros [= ->]. by exists mx, my.
Qed.

End DiscoverFacts.

Lemma searchFrom_returned {tf : Tf2} {uc : UnsignedCast} fs pose o :
  searchFrom fs pose o → costs_ordered o →
  sorted_by cost_lt (returned o) ∧
  match search o with
  | Some s => frontier_list s ≡ₚ returned o
  | None => returned o = []
  end.
Proof.
  intros [Hcell|mx my s log sorted Hcell Hd [Hperm Hsort]]; unfold costs_ordered;
    simpl.
  - intros _. split; [constructor|done].
  - intros Hswo. split; [by apply Hsort|done].
Qed.

(** ** The cells queued are cells of the grid *)

Lemma nearest_visit_on_grid n nbrs bfs visited :
  Forall (λ c, c < n) nbrs → Forall (λ c, c < n) bfs →
  Forall (λ c, c < n) (nearest_visit nbrs bfs visited).1.
Proof.
  intros Hn. revert bfs visited.
  induction Hn as [|nbr rest Hnbr _ IH]; intros bfs visited Hq; simpl; [done|].
  destruct (flag_at visited nbr); apply IH; [done|].
  apply Forall_app. split; [done|]. by apply Forall_singleton.
Qed.

Lemma nearest_loop_on_grid fuel val c bfs visited cell :
  Forall (λ c', c' < size_x c * size_y c) bfs →
  nearest_loop fuel val c bfs visited = Some cell →
  cell < size_x c * size_y c ∧ cell_at (getCharMap c) cell = val.
Proof.
  revert bfs visited. induction fuel as [|fuel IH]; intros bfs visited Hq; simpl;
    [done|].
  destruct bfs as [|idx rest]; [done|].
  apply Forall_cons in Hq as [Hidx Hrest].
  destruct (Nat.eqb_spec (cell_at (getCharMap c) idx) val) as [Hval|_].
  - by intros [= <-].
  - pose proof (nearest_visit_on_grid (size_x c * size_y c)
                  (nhood4 idx c) rest visited) as Hv.
    destruct (nearest_visit (nhood4 idx c) rest visited) as [bfs' visited'].
    apply IH. apply Hv; [|done].
    apply Forall_forall. intros nbr. apply nhood4_lt.
Qed.

(** The cell [nearestCell] reports is a cell of the grid with the value
    asked for. *)
Lemma nearestCell_on_grid start val c cell :
  nearestCell start val c = Some cell →
  cell < size_x c * size_y c ∧ cell_at (getCharMap c) cell = val.
Proof.
  unfold nearestCell.
  destruct (Nat.leb_spec (size_x c * size_y c) start) as [|Hstart]; [done|].
  apply nearest_loop_on_grid. by apply Forall_singleton.
Qed.

Lemma start_cell_on_grid fs mx my :
  mx < size_x (costmap_ fs) → my < size_y (costmap_ fs) →
  (start_cell fs mx my).1 < size_x (costmap_ fs) * size_y (costmap_ fs).
Proof.
  intros Hmx Hmy. unfold start_cell.
  destruct (nearestCell _ _ _) as [clear|] eqn:Hnear; simpl.
  - by apply nearestCell_on_grid in Hnear as [? _].
  - by apply getIndex_lt.
Qed.

Lemma grow_nhood8_queue_on_grid fs pose nbrs g :
  Forall (λ c, c < size_x (costmap_ fs) * size_y (costmap_ fs)) nbrs →
  Forall (λ c, c < size_x (costmap_ fs) * size_y (costmap_ fs)) (queue g) →
  Forall (λ c, c < size_x (costmap_ fs) * size_y (costmap_ fs))
         (queue (grow_nhood8 fs pose nbrs g).1).
Proof.
  intros Hn. revert g. induction Hn as [|nbr rest Hnbr _ IH]; intros g Hq; simpl;
    [done|].
  destruct (isNewFrontierCell fs nbr (flags g)); [|by apply IH].
  destruct (max_size_reached fs _); [done|].
  apply IH. simpl. apply Forall_app. split; [done|]. by apply Forall_singleton.
Qed.

Lemma visit_nhood4_queue_on_grid {tf : Tf2} fs pose idx nbrs s s' :
  Forall (λ c, c < size_x (costmap_ fs) * size_y (costmap_ fs)) nbrs →
  Forall (λ c, c < size_x (costmap_ fs) * size_y (costmap_ fs)) (bfs s) →
  visit_nhood4 fs pose idx nbrs s = Some s' →
  Forall (λ c, c < size_x (costmap_ fs) * size_y (costmap_ fs)) (bfs s').
Proof.
  intros Hn. revert s. induction Hn as [|nbr rest Hnbr _ IH]; intros s Hq; simpl.
  - by intros [= <-].
  - destruct (_ && _).
    + apply IH. simpl. apply Forall_app. split; [done|]. by apply Forall_singleton.
    + destruct (isNewFrontierCell fs nbr (frontier_flag s)); [|by apply IH].
      destruct (buildNewFrontier fs nbr pose _) as [b|]; simpl; [|done].
      by apply IH.
Qed.

(** ** The order of floats that are numbers *)

Lemma is_nan_Prim2SF c : is_nan c = false → Prim2SF c ≠ S754_nan.
Proof.
  unfold is_nan. intros H E. apply negb_false_iff in H.
  rewrite FloatAxioms.eqb_spec in H. unfold SFeqb in H. by rewrite E in H.
Qed.

Lemma ltb_key_lt x y :
  is_nan x = false → is_nan y = false →
  (x <? y)%float = true ↔ key_lt (float_key x) (float_key y).
Proof.
  intros Hx%is_nan_Prim2SF Hy%is_nan_Prim2SF.
  rewrite FloatAxioms.ltb_spec. unfold float_key, key_lt, SFltb, SFcompare.
  destruct (Prim2SF x) as [[]|[]| |[] mx ex], (Prim2SF y) as [[]|[]| |[] my ey];
    try done; simpl; try (split; [intros; lia | intros; (done || lia)]).
  all: destruct (Z.compare_spec ex ey); try (split; [intros; lia | intros; (done || lia)]).
  all: change (Pos.compare_cont Eq mx my) with (Pos.compare mx my).
  all: destruct (Pos.compare_spec mx my); simpl;
    split; intros; try done; try lia.
Qed.

Lemma key_lt_total a b : ¬ key_lt a b → ¬ key_lt b a → a = b.
Proof.
  destruct a as [[a1 a2] a3], b as [[b1 b2] b3]. unfold key_lt. simpl.
  intros H1 H2. assert (a1 = b1 ∧ a2 = b2 ∧ a3 = b3) as (-> & -> & ->) by lia.
  done.
Qed.

(** ** The result list *)

Lemma accepted_Forall fs rs (P : Frontier.t → Prop) :
  (∀ r, r ∈ rs → min_size_met fs (built_frontier r.2) = true →
        P (Frontier.set_cost (built_frontier r.2) (frontierCost fs (built_frontier r.2)))) →
  Forall P (accepted fs rs).
Proof.
  induction rs as [|r rs IH]; intros HP; simpl; [constructor|].
  apply Forall_app. split.
  - destruct (min_size_met fs (built_frontier r.2)) eqn:Hmin; [|constructor].
    apply Forall_singleton. apply HP; [left|done].
  - apply IH. intros r' Hr'. apply HP. by right.
Qed.

Lemma accepted_cache_costmap fs rs :
  accepted (cache_costmap fs) rs = accepted fs rs.
Proof.
  induction rs as [|r rs IH]; simpl; [done|]. rewrite IH. done.
Qed.

Lemma searchFrom_search_inv {tf : Tf2} {uc : UnsignedCast} fs pose o s :
  searchFrom fs pose o → search o = Some s →
  search_inv (cache_costmap fs) pose s ∧ bfs s = [].
Proof.
  intros Ho Hs. destruct (searchFrom_searched fs pose o s Ho Hs)
    as (mx & my & _ & Hd & _ & _).
  by eapply discover_inv.
Qed.

(** ** The worked examples are outcomes of the search *)

Lemma outcome_of_searchFrom {tf : Tf2} {uc : UnsignedCast} fs pose : searchFrom fs pose (outcome_of fs pose).
Proof.
  unfold outcome_of.
  destruct (pose_cell fs pose) as [[mx my]|] eqn:Hcell.
  - destruct (discover_total fs pose mx my) as [[s log] Hd]. rewrite Hd.
    eapply search_completed; [done..|]. apply std_sort_insertion_sort.
  - by apply search_out_of_bounds.
Qed.

Lemma mixed_outcome_ok : @searchFrom flat_tf2 x86_64_cast mixed_search centre_pose mixed_outcome.
Proof. exact (@outcome_of_searchFrom flat_tf2 x86_64_cast mixed_search centre_pose). Qed.

Lemma scenario_a_outcome_ok :
  @searchFrom flat_tf2 x86_64_cast scenario_a_search scenario_a_pose scenario_a_outcome.
Proof. exact (@outcome_of_searchFrom flat_tf2 x86_64_cast scenario_a_search scenario_a_pose). Qed.

Lemma three_columns_outcome_ok :
  @searchFrom flat_tf2 x86_64_cast three_columns_search east_pose three_columns_outcome.
Proof. exact (@outcome_of_searchFrom flat_tf2 x86_64_cast three_columns_search east_pose). Qed.

Lemma ridge_outcome_ok :
  @searchFrom flat_tf2 x86_64_cast ridge_search corner_pose ridge_outcome.
Proof. exact (@outcome_of_searchFrom flat_tf2 x86_64_cast ridge_search corner_pose). Qed.

Lemma libstdcxx_outcome_of_searchFrom {tf : Tf2} {uc : UnsignedCast} fs pose o :
  libstdcxx_outcome_of fs pose = Some o →
  (∀ s, search o = Some s → strict_weak_ordering cost_lt (frontier_list s) →
        sorted_by cost_lt (returned o)) →
  searchFrom fs pose o.
Proof.
  unfold libstdcxx_outcome_of.
  destruct (pose_cell fs pose) as [[mx my]|] eqn:Hcell.
  - destruct (discover fs pose mx my) as [[s log]|] eqn:Hd; [|done]. simpl.
    destruct (libstdcxx_sort cost_lt (frontier_list s)) as [sorted|] eqn:Hs; [|done].
    simpl. intros [= <-] Hsorted. simpl in Hsorted.
    apply (search_completed _ _ mx my); [done..|].
    split; [by apply (libstdcxx_sort_perm cost_lt)|]. by apply Hsorted.
  - intros [= <-] _. by apply search_out_of_bounds.
Qed.

Lemma four_runs_outcome_ok :
  @searchFrom flat_tf2 x86_64_cast four_runs_search west_pose four_runs_outcome.
Proof. exact (@outcome_of_searchFrom flat_tf2 x86_64_cast four_runs_search west_pose). Qed.

Lemma four_runs_weighed_outcome_ok :
  @searchFrom flat_tf2 x86_64_cast four_runs_weighed west_pose
    four_runs_weighed_outcome.
Proof. exact (@outcome_of_searchFrom flat_tf2 x86_64_cast four_runs_weighed west_pose). Qed.

Lemma two_bays_outcome_ok :
  @searchFrom flat_tf2 x86_64_cast two_bays_search centre_pose two_bays_outcome.
Proof. exact (@outcome_of_searchFrom flat_tf2 x86_64_cast two_bays_search centre_pose). Qed.

(** ** More on the order of floats *)

Lemma Prim2SF_is_nan c : Prim2SF c ≠ S754_nan → is_nan c = false.
Proof.
  intros H. unfold is_nan. apply negb_false_iff.
  rewrite FloatAxioms.eqb_spec. unfold SFeqb, SFcompare.
  destruct (Prim2SF c) as [[]|[]| |[] m e]; try done.
  - by rewrite Z.compare_refl, Pos.compare_cont_refl.
  - by rewrite Z.compare_refl, Pos.compare_cont_refl.
Qed.

Lemma ltb_numbers x y :
  (x <? y)%float = true → is_nan x = false ∧ is_nan y = false.
Proof.
  rewrite FloatAxioms.ltb_spec. unfold SFltb, SFcompare. intros H.
  split; apply Prim2SF_is_nan; intros E; rewrite E in H;
    [done|by destruct (Prim2SF x) as [[]|[]| |[] ? ?]].
Qed.

Lemma ltb_irrefl x : (x <? x)%float = false.
Proof.
  destruct (x <? x)%float eqn:H; [|done].
  destruct (ltb_numbers _ _ H) as [Hx _].
  apply (ltb_key_lt x x Hx Hx) in H. unfold key_lt in H. lia.
Qed.

Lemma ltb_trans x y z :
  (x <? y)%float = true → (y <? z)%float = true → (x <? z)%float = true.
Proof.
  intros Hxy Hyz.
  destruct (ltb_numbers _ _ Hxy) as [Hx Hy], (ltb_numbers _ _ Hyz) as [_ Hz].
  apply (ltb_key_lt x y Hx Hy) in Hxy. apply (ltb_key_lt y z Hy Hz) in Hyz.
  apply (ltb_key_lt x z Hx Hz). unfold key_lt in *. lia.
Qed.

Lemma abs_not_negative x : (PrimFloat.abs x <? 0)%float = false.
Proof.
  rewrite FloatAxioms.ltb_spec, abs_spec.
  by destruct (Prim2SF x) as [[]|[]| |[] ? ?].
Qed.

(** ** Frontier cells *)

Lemma isNewFrontierCell_frontier_cell fs idx ff :
  isNewFrontierCell fs idx ff = true ↔ frontier_cell fs idx ∧ flag_at ff idx = false.
Proof. rewrite isNewFrontierCell_true. unfold frontier_cell. tauto. Qed.

Lemma isNewFrontierCell_antitone fs idx (ff ff' : list bool) :
  (∀ c, flag_at ff c = true → flag_at ff' c = true) →
  isNewFrontierCell fs idx ff = false → isNewFrontierCell fs idx ff' = false.
Proof.
  intros Hmono Hold.
  destruct (isNewFrontierCell fs idx ff') eqn:Hnew; [|done].
  apply isNewFrontierCell_frontier_cell in Hnew as [Hcell Hflag].
  rewrite <- Hold. symmetry. apply isNewFrontierCell_frontier_cell.
  split; [done|].
  destruct (flag_at ff idx) eqn:Hf; [|done].
  apply Hmono in Hf. congruence.
Qed.

Lemma isNewFrontierCell_flagged fs idx ff :
  flag_at ff idx = true → isNewFrontierCell fs idx ff = false.
Proof.
  intros Hf. destruct (isNewFrontierCell fs idx ff) eqn:Hnew; [|done].
  apply isNewFrontierCell_unflagged in Hnew. congruence.
Qed.

(** ** The shape of a region *)

Lemma connected8_mono c region region' seed cell :
  region ⊆ region' → connected8 c region seed cell → connected8 c region' seed cell.
Proof.
  intros Hsub. induction 1 as [|p q _ IH Hq Hn]; [constructor|].
  eapply connected8_step; [exact IH|by apply Hsub|done].
Qed.

Lemma grow_shape_connected fs seed g idx :
  grow_shape fs seed g → idx ∈ seed :: cells g →
  connected8 (costmap_ fs) (seed :: cells g) seed idx.
Proof.
  intros [Hc _ _]. rewrite elem_of_cons. intros [->|Hin]; [constructor|].
  rewrite Forall_forall in Hc. by apply Hc.
Qed.

Lemma grow_nhood8_shape fs pose seed idx nbrs g :
  idx ∈ seed :: cells g →
  Forall (λ nbr, nbr ∈ nhood8 idx (costmap_ fs)) nbrs →
  grow_shape fs seed g →
  grow_shape fs seed (grow_nhood8 fs pose nbrs g).1.
Proof.
  intros Hidx Hn. revert g Hidx.
  induction Hn as [|nbr rest Hnbr _ IH]; intros g Hidx Hs; simpl; [done|].
  destruct (isNewFrontierCell fs nbr (flags g)) eqn:Hnew; [|by apply IH].
  apply isNewFrontierCell_frontier_cell in Hnew as [Hcell _].
  assert (Hsub : seed :: cells g ⊆ seed :: (cells g ++ [nbr])).
  { intros c. rewrite !elem_of_cons, elem_of_app. tauto. }
  assert (Hin : nbr ∈ seed :: (cells g ++ [nbr])).
  { rewrite elem_of_cons, elem_of_app, list_elem_of_singleton. tauto. }
  assert (Hadd : grow_shape fs seed (add_cell fs pose nbr g)).
  { pose proof (grow_shape_connected fs seed g idx Hs Hidx) as Hconn.
    destruct Hs as [Hc Hq Hf]. split; simpl.
    - apply Forall_app. split.
      + eapply Forall_impl; [exact Hc|]. intros c. by apply connected8_mono.
      + apply Forall_singleton.
        eapply connected8_step; [|exact Hin|exact Hnbr].
        by eapply connected8_mono.
    - eapply Forall_impl; [exact Hq|]. intros c. apply Hsub.
    - apply Forall_app. split; [done|]. by apply Forall_singleton. }
  destruct (max_size_reached fs _); [done|].
  apply IH.
  - simpl. by apply Hsub.
  - destruct Hadd as [Hc Hq Hf]. split; simpl; [done| |done].
    apply Forall_app. split; [done|]. by apply Forall_singleton.
Qed.

Lemma grow_frontier_shape fs pose seed fuel g g' :
  grow_shape fs seed g →
  grow_frontier fuel fs pose g = Some g' →
  grow_shape fs seed g'.
Proof.
  revert g. induction fuel as [|fuel IH]; intros g Hs; simpl; [done|].
  destruct (queue g) as [|idx rest] eqn:Hq; [by intros [= <-]|].
  pose proof (grow_nhood8_shape fs pose seed idx (nhood8 idx (costmap_ fs))
                (mkGrowth (output g) rest (flags g) (cells g))) as Hstep.
  destruct (grow_nhood8 fs pose _ _) as [g1 completed]. simpl in Hstep.
  assert (Hg1 : grow_shape fs seed g1).
  { destruct Hs as [Hc Hqueue Hf]. rewrite Hq in Hqueue.
    apply Forall_cons in Hqueue as [Hidx Hrest].
    apply Hstep; [done| |by split].
    by apply Forall_forall. }
  destruct completed; [by intros [= <-]|by apply IH].
Qed.

Lemma grow_shape_initial fs seed ff out :
  grow_shape fs seed (mkGrowth out [seed] ff []).
Proof.
  split; simpl; [constructor| |constructor].
  apply Forall_singleton. left.
Qed.

(** ** A region is grown to its end *)

Lemma grow_nhood8_stopped fs pose nbrs g g' :
  grow_nhood8 fs pose nbrs g = (g', true) →
  max_size_reached fs (Frontier.size (output g')) = true ∧ cells g' ≠ [].
Proof.
  revert g. induction nbrs as [|nbr rest IH]; intros g; simpl; [done|].
  destruct (isNewFrontierCell fs nbr (flags g)); [|apply IH].
  destruct (max_size_reached fs (Frontier.size (output (add_cell fs pose nbr g))))
    eqn:Hmax; simpl in Hmax; rewrite Hmax; [|apply IH].
  intros [= <-]. split; [done|]. simpl. by destruct (cells g).
Qed.

Lemma grow_nhood8_scanned fs pose nbrs g g' :
  size_x (costmap_ fs) * size_y (costmap_ fs) ≤ length (flags g) →
  grow_nhood8 fs pose nbrs g = (g', false) →
  (∀ c, flag_at (flags g) c = true → flag_at (flags g') c = true) ∧
  length (flags g') = length (flags g) ∧
  (∀ nbr, nbr ∈ nbrs → nbr < size_x (costmap_ fs) * size_y (costmap_ fs) →
          isNewFrontierCell fs nbr (flags g') = false) ∧
  ∃ new, queue g' = queue g ++ new ∧ cells g' = cells g ++ new.
Proof.
  revert g. induction nbrs as [|nbr rest IH]; intros g Hlen; simpl.
  { intros [= <-]. split_and!; [done|done| |].
    - intros nbr. by rewrite elem_of_nil.
    - exists []. by rewrite !app_nil_r. }
  destruct (isNewFrontierCell fs nbr (flags g)) eqn:Hnew.
  - destruct (max_size_reached fs _) eqn:Hmax; [done|].
    intros Hg'. apply IH in Hg' as (Hmono & Hl & Hscan & new & Hq & Hc);
      [|simpl; by rewrite length_insert].
    simpl in *. rewrite length_insert in Hl.
    split_and!.
    + intros c Hc'. apply Hmono. by apply flag_at_insert_mono.
    + done.
    + intros c. rewrite elem_of_cons. intros [->|Hin] Hlt; [|by apply Hscan].
      apply isNewFrontierCell_flagged. apply Hmono.
      rewrite flag_at_insert. destruct (decide _) as [|[]]; [done|].
      split; [done|lia].
    + exists (nbr :: new). rewrite Hq, Hc, <- !app_assoc. done.
  - intros Hg'. apply IH in Hg' as (Hmono & Hl & Hscan & new & Hq & Hc); [|done].
    split_and!; [done|done| |by exists new].
    intros c. rewrite elem_of_cons. intros [->|Hin] Hlt; [|by apply Hscan].
    by eapply isNewFrontierCell_antitone.
Qed.

Lemma grow_frontier_scanned fs pose seed fuel g g' :
  size_x (costmap_ fs) * size_y (costmap_ fs) ≤ length (flags g) →
  grow_pending fs seed g →
  grow_frontier fuel fs pose g = Some g' →
  (max_size_reached fs (Frontier.size (output g')) = true ∧ cells g' ≠ []) ∨
  (∀ c, c ∈ seed :: cells g' → scanned8 fs (flags g') c).
Proof.
  revert g. induction fuel as [|fuel IH]; intros g Hlen Hp; simpl; [done|].
  destruct (queue g) as [|idx rest] eqn:Hq.
  { intros [= <-]. right. intros c Hc. destruct (Hp c Hc) as [Hin|Hs]; [|done].
    rewrite Hq in Hin. by apply elem_of_nil in Hin. }
  destruct (grow_nhood8 fs pose _ _) as [g1 completed] eqn:Hg1.
  destruct completed.
  { intros [= <-]. left. by eapply grow_nhood8_stopped. }
  apply grow_nhood8_scanned in Hg1 as (Hmono & Hl & Hscan & new & Hq1 & Hc1);
    [|done].
  simpl in *. apply IH; [lia|].
  intros c. rewrite Hc1, Hq1, app_comm_cons, !elem_of_app. intros [Hc|Hc]; [|tauto].
  destruct (Hp c Hc) as [Hin|Hs].
  - rewrite Hq in Hin. apply elem_of_cons in Hin as [->|Hin]; [|tauto].
    right. intros nbr Hnbr. apply Hscan; [done|]. by eapply nhood8_lt.
  - right. intros nbr Hnbr. eapply isNewFrontierCell_antitone; [exact Hmono|].
    by apply Hs.
Qed.

(** ** The closest cell pushed *)

Lemma grow_frontier_min_distance fs pose fuel g g' :
  Forall (λ c, (cell_distance (costmap_ fs) pose c
                <? Frontier.min_distance (output g))%float = false) (cells g) →
  grow_frontier fuel fs pose g = Some g' →
  Forall (λ c, (cell_distance (costmap_ fs) pose c
                <? Frontier.min_distance (output g'))%float = false) (cells g').
Proof.
  set (P := λ g : Growth,
    Forall (λ c, (cell_distance (costmap_ fs) pose c
                  <? Frontier.min_distance (output g))%float = false) (cells g)).
  assert (Hadd : ∀ nbr g0, P g0 → P (add_cell fs pose nbr g0)).
  { intros nbr g0 HP. unfold P, add_cell in *.
    cbn [output cells Frontier.min_distance].
    change (distance_to pose (Point.x (cell_point (costmap_ fs) nbr))
              (Point.y (cell_point (costmap_ fs) nbr)))
      with (cell_distance (costmap_ fs) pose nbr).
    destruct (cell_distance (costmap_ fs) pose nbr
              <? Frontier.min_distance (output g0))%float eqn:Hlt.
    - apply Forall_app. split; [|apply Forall_singleton, ltb_irrefl].
      eapply Forall_impl; [exact HP|]. intros c Hc. cbn beta in Hc |- *.
      destruct (cell_distance (costmap_ fs) pose c
                <? cell_distance (costmap_ fs) pose nbr)%float eqn:Hc'; [|done].
      rewrite <- Hc. symmetry. by eapply ltb_trans.
    - apply Forall_app. split; [done|]. by apply Forall_singleton. }
  apply (grow_frontier_rule fs pose P P).
  - intros nbr g0 HP _ _ _. by apply Hadd.
  - intros nbr g0 HP _ _ _. by apply Hadd.
  - done.
  - done.
Qed.

(** ** More on buildNewFrontier *)

Section BuildShape.
Context {tf : Tf2}.

Lemma buildNewFrontier_shape fs seed pose ff b :
  buildNewFrontier fs seed pose ff = Some b →
  Forall (connected8 (costmap_ fs) (seed :: built_cells b) seed) (built_cells b) ∧
  Forall (frontier_cell fs) (built_cells b).
Proof.
  intros Hb. apply buildNewFrontier_grown in Hb as (g & Hg & ->).
  apply (grow_frontier_shape fs pose seed) in Hg as [Hc _ Hf];
    [done|apply grow_shape_initial].
Qed.

Lemma stopped_by_size_false fs f :
  1 ≤ Frontier.size f →
  stopped_by_size fs f = false ↔
  Frontier.size f = 1 ∨ max_size_reached fs (Frontier.size f) = false.
Proof.
  intros Hsize. unfold stopped_by_size. rewrite andb_false_iff, Nat.ltb_ge.
  split; (intros [?|?]; [left; lia|by right]).
Qed.

Lemma stopped_by_size_unset fs f :
  (0 <? max_frontier_size_ fs)%float = false → stopped_by_size fs f = false.
Proof.
  intros Hmax. unfold stopped_by_size.
  rewrite (max_size_reached_unset fs _ Hmax). apply andb_false_r.
Qed.

Lemma buildNewFrontier_scanned fs seed pose ff b :
  size_x (costmap_ fs) * size_y (costmap_ fs) ≤ length ff →
  buildNewFrontier fs seed pose ff = Some b →
  stopped_by_size fs (built_frontier b) = false →
  ∀ c, c ∈ seed :: built_cells b → scanned8 fs (built_flags b) c.
Proof.
  intros Hlen Hb Hun.
  pose proof (ok_size _ _ _ _ _ (buildNewFrontier_ok fs seed pose ff b Hlen Hb))
    as Hsize.
  apply buildNewFrontier_grown in Hb as (g & Hg & ->).
  apply (grow_frontier_scanned fs pose seed) in Hg as [[Hmax Hcells]|Hs];
    simpl in *.
  - unfold stopped_by_size in Hun. simpl in Hun. rewrite Hmax, Hsize in Hun.
    destruct (cells g); [done|]. done.
  - done.
  - done.
  - intros c. simpl. auto.
Qed.

Lemma buildNewFrontier_nearest fs seed pose ff b :
  buildNewFrontier fs seed pose ff = Some b →
  Forall (λ c, (cell_distance (costmap_ fs) pose c
                <? Frontier.min_distance (built_frontier b))%float = false)
         (built_cells b).
Proof.
  intros Hb. apply buildNewFrontier_grown in Hb as (g & Hg & ->).
  apply grow_frontier_min_distance in Hg; [done|constructor].
Qed.

Lemma buildNewFrontier_flag_at fs seed pose ff b j :
  size_x (costmap_ fs) * size_y (costmap_ fs) ≤ length ff →
  buildNewFrontier fs seed pose ff = Some b →
  flag_at (built_flags b) j = true ↔ flag_at ff j = true ∨ j ∈ built_cells b.
Proof.
  intros Hlen Hb.
  destruct (buildNewFrontier_ok fs seed pose ff b Hlen Hb)
    as [_ _ Hflags _ Hfresh _ _ _ _].
  rewrite Hflags, flag_at_set_flags. rewrite Forall_forall in Hfresh.
  split; [tauto|]. intros [?|Hin]; [tauto|]. right. split; [done|].
  destruct (Hfresh j Hin). lia.
Qed.

End BuildShape.

(** ** The regions of a search *)

Lemma set_flags_app ff cs cs' :
  set_flags ff (cs ++ cs') = set_flags (set_flags ff cs) cs'.
Proof. unfold set_flags. by rewrite fold_left_app. Qed.

Lemma flag_at_replicate n j : flag_at (replicate n false) j = false.
Proof.
  unfold flag_at. destruct (replicate n false !! j) as [b|] eqn:E; [|done].
  apply lookup_replicate in E as [-> _]. done.
Qed.

Lemma claimed_cons r rs : claimed (r :: rs) = region_cells r ++ claimed rs.
Proof. done. Qed.

Lemma regions_closed_snoc fs before rs r :
  regions_closed fs before (rs ++ [r]) ↔
  regions_closed fs before rs ∧
  (uncapped fs r →
   ∀ c nbr, c ∈ region_cells r → nbr ∈ nhood8 c (costmap_ fs) →
     frontier_cell fs nbr → nbr ∈ (before ++ claimed rs) ++ region_cells r).
Proof.
  revert before. induction rs as [|r' rs IH]; intros before;
    cbn [regions_closed app].
  - rewrite app_nil_r. tauto.
  - rewrite IH, claimed_cons, !app_assoc. tauto.
Qed.

Lemma regions_closed_split fs before rs1 r rs2 :
  regions_closed fs before (rs1 ++ r :: rs2) →
  uncapped fs r →
  ∀ c nbr, c ∈ region_cells r → nbr ∈ nhood8 c (costmap_ fs) →
    frontier_cell fs nbr → nbr ∈ (before ++ claimed rs1) ++ region_cells r.
Proof.
  revert before. induction rs1 as [|r' rs1 IH]; intros before;
    cbn [regions_closed app].
  - intros [H _]. by rewrite app_nil_r.
  - intros [_ H] Hun c nbr Hc Hnbr Hcell.
    specialize (IH _ H Hun c nbr Hc Hnbr Hcell).
    by rewrite claimed_cons, !app_assoc.
Qed.

Lemma search_shape_build {tf : Tf2} fs pose nbr s b :
  search_shape fs pose s →
  nbr < size_x (costmap_ fs) * size_y (costmap_ fs) →
  isNewFrontierCell fs nbr (frontier_flag s) = true →
  buildNewFrontier fs nbr pose (<[nbr:=true]> (frontier_flag s)) = Some b →
  search_shape fs pose
    (mkSearch (bfs s) (visited_flag s) (built_flags b)
       (if min_size_met fs (built_frontier b)
        then frontier_list s ++
             [Frontier.set_cost (built_frontier b) (frontierCost fs (built_frontier b))]
        else frontier_list s)
       (regions s ++ [(nbr, b)])).
Proof.
  intros [Hinv Hflags Hcells Hconn Hclosed] Hnbr Hnew Hb.
  pose proof (search_inv_build fs pose nbr s b Hinv Hnbr Hnew Hb) as Hinv'.
  pose proof (sinv_length _ _ _ Hinv) as Hlen.
  set (ff1 := <[nbr:=true]> (frontier_flag s)) in *.
  assert (Hlen1 : size_x (costmap_ fs) * size_y (costmap_ fs) ≤ length ff1)
    by (unfold ff1; rewrite length_insert; lia).
  pose proof (buildNewFrontier_ok fs nbr pose ff1 b Hlen1 Hb) as Hok.
  destruct (buildNewFrontier_shape fs nbr pose ff1 b Hb) as [Hbc Hbf].
  apply isNewFrontierCell_frontier_cell in Hnew as [Hseed _].
  assert (Hflags' : built_flags b =
            set_flags (replicate (size_x (costmap_ fs) * size_y (costmap_ fs)) false)
                      (claimed (regions s ++ [(nbr, b)]))).
  { rewrite (ok_flags _ _ _ _ _ Hok). unfold ff1. rewrite Hflags.
    rewrite claimed_snoc. unfold region_cells. simpl.
    rewrite <- set_flags_snoc, <- set_flags_app, <- app_assoc. done. }
  split; simpl.
  - done.
  - done.
  - rewrite claimed_snoc. apply Forall_app. split; [done|].
    unfold region_cells. simpl. apply Forall_cons. split; [done|].
    pose proof (ok_fresh _ _ _ _ _ Hok) as Hfresh.
    rewrite Forall_forall in Hfresh, Hbf |- *.
    intros c Hc. split; [by apply Hfresh|by apply Hbf].
  - apply Forall_app. split; [done|]. by apply Forall_singleton.
  - apply regions_closed_snoc. split; [done|].
    unfold uncapped. simpl. intros Hun c nbr' Hc Hnbr' Hcell.
    pose proof (buildNewFrontier_scanned fs nbr pose ff1 b Hlen1 Hb Hun c Hc
                  nbr' Hnbr') as Hscan.
    rewrite <- claimed_snoc.
    destruct (flag_at (built_flags b) nbr') eqn:Hf.
    + rewrite Hflags' in Hf. apply flag_at_set_flags in Hf as [Hf|[Hin _]]; [|done].
      by rewrite flag_at_replicate in Hf.
    + assert (isNewFrontierCell fs nbr' (built_flags b) = true)
        by (by apply isNewFrontierCell_frontier_cell).
      congruence.
Qed.

Lemma search_loop_shape {tf : Tf2} fs pose fuel s s' :
  search_shape fs pose s →
  search_loop fuel fs pose s = Some s' →
  search_shape fs pose s'.
Proof.
  apply search_loop_rule.
  - intros nbr s0 [[] ? ? ? ?] _ _. by repeat split.
  - intros nbr s0 b. apply search_shape_build.
  - intros s0 idx rest [[] ? ? ? ?] _. by repeat split.
Qed.

Lemma search_shape_initial {tf : Tf2} fs pose front :
  search_shape (cache_costmap fs) pose (initial_search (cache_costmap fs) front).
Proof.
  split; simpl; [apply search_inv_initial|done|constructor|constructor|done].
Qed.

Lemma claimed_app rs rs' : claimed (rs ++ rs') = claimed rs ++ claimed rs'.
Proof. unfold claimed. by rewrite fmap_app, concat_app. Qed.

Lemma NoDup_below_length (l : list nat) n :
  NoDup l → Forall (λ c, c < n) l → length l ≤ n.
Proof.
  intros Hnd Hlt. transitivity (length (seq 0 n)); [|by rewrite length_seq].
  apply submseteq_length, NoDup_submseteq; [done|].
  rewrite Forall_forall in Hlt. intros c Hc. apply elem_of_seq.
  specialize (Hlt c Hc). lia.
Qed.

Lemma total_size_claimed {tf : Tf2} fs pose rs :
  Forall (λ r, ∃ ff, size_x (costmap_ fs) * size_y (costmap_ fs) ≤ length ff ∧
                     ff !! r.1 = Some true ∧ built_ok fs pose r.1 ff r.2) rs →
  total_size rs = length (claimed rs).
Proof.
  induction 1 as [|r rs (ff & _ & _ & Hok) _ IH]; [done|].
  rewrite claimed_cons, length_app, <- IH. unfold total_size, region_cells.
  simpl. by rewrite (ok_size _ _ _ _ _ Hok).
Qed.

Lemma std_sort_nil {A} (comp : A → A → bool) l : std_sort comp [] l → l = [].
Proof. intros [Hp _]. by apply Permutation_nil. Qed.

Lemma no_frontier_cell fs idx :
  NO_INFORMATION ∉ map_ fs ∨
  (length (map_ fs) = size_x (costmap_ fs) * size_y (costmap_ fs) ∧
   FREE_SPACE ∉ map_ fs) →
  ¬ frontier_cell fs idx.
Proof.
  intros Hmap [Hu (nbr & Hnbr & Hfree)]. destruct Hmap as [Hno|[Hlen Hno]].
  - apply Hno. unfold cell_at in Hu.
    destruct (map_ fs !! idx) as [v|] eqn:E; simpl in Hu; [|done].
    subst v. by eapply list_elem_of_lookup_2.
  - apply Hno. apply nhood4_lt in Hnbr. rewrite <- Hlen in Hnbr.
    apply cell_at_lookup in Hfree; [|done]. by eapply list_elem_of_lookup_2.
Qed.

(** ** The cells the search visits *)

Lemma visit_nhood4_flood {tf : Tf2} fs pose idx nbrs s s' :
  size_x (costmap_ fs) * size_y (costmap_ fs) ≤ length (visited_flag s) →
  size_x (costmap_ fs) * size_y (costmap_ fs) ≤ length (frontier_flag s) →
  Forall (λ nbr, nbr < size_x (costmap_ fs) * size_y (costmap_ fs)) nbrs →
  visit_nhood4 fs pose idx nbrs s = Some s' →
  length (visited_flag s') = length (visited_flag s) ∧
  length (frontier_flag s') = length (frontier_flag s) ∧
  (∀ c, flag_at (frontier_flag s) c = true → flag_at (frontier_flag s') c = true) ∧
  (∀ nbr, nbr ∈ nbrs →
     (cell_at (map_ fs) nbr ≤ cell_at (map_ fs) idx →
      flag_at (visited_flag s') nbr = true) ∧
     (flag_at (visited_flag s') nbr = true ∨
      isNewFrontierCell fs nbr (frontier_flag s') = false)) ∧
  ∃ new, bfs s' = bfs s ++ new ∧
    Forall (λ c, c ∈ nbrs ∧ cell_at (map_ fs) c ≤ cell_at (map_ fs) idx) new ∧
    ∀ c, flag_at (visited_flag s') c = true ↔
         flag_at (visited_flag s) c = true ∨ c ∈ new.
Proof.
  intros Hv Hf Hn. revert s Hv Hf.
  induction Hn as [|nbr rest Hnbr _ IH]; intros s Hv Hf; simpl.
  { intros [= <-]. split_and!; [done|done|done| |].
    - intros nbr. by rewrite elem_of_nil.
    - exists []. rewrite app_nil_r. split_and!; [done|constructor|].
      intros c. rewrite elem_of_nil. tauto. }
  assert (Hrest : ∀ new : list nat,
            Forall (λ c, c ∈ rest ∧ cell_at (map_ fs) c ≤ cell_at (map_ fs) idx) new →
            Forall (λ c, c ∈ nbr :: rest ∧
                         cell_at (map_ fs) c ≤ cell_at (map_ fs) idx) new).
  { intros new Hnew. eapply Forall_impl; [exact Hnew|].
    intros c [? ?]. split; [by right|done]. }
  destruct (_ && _) eqn:Hfree.
  - apply andb_true_iff in Hfree as [Hle Hnv].
    apply Nat.leb_le in Hle. apply negb_true_iff in Hnv.
    intros Hs'. apply IH in Hs' as (Hl1 & Hl2 & Hmono & Hscan & new & Hq & Hnew & Hvis);
      simpl; [|by rewrite length_insert|done].
    simpl in *. rewrite length_insert in Hl1.
    assert (Hvis' : ∀ c, flag_at (visited_flag s') c = true ↔
                         flag_at (visited_flag s) c = true ∨ c ∈ nbr :: new).
    { intros c. rewrite Hvis, flag_at_insert, elem_of_cons.
      destruct (decide (nbr = c ∧ nbr < length (visited_flag s))) as [[-> _]|Hne].
      - tauto.
      - split; [tauto|]. intros [?|[->|?]]; [tauto| |tauto].
        destruct Hne. split; [done|lia]. }
    split_and!; [done|done|done| |].
    + intros c. rewrite elem_of_cons. intros [->|Hin]; [|by apply Hscan].
      assert (flag_at (visited_flag s') nbr = true)
        by (apply Hvis'; right; left).
      tauto.
    + exists (nbr :: new). rewrite Hq, <- app_assoc. split_and!; [done| |done].
      apply Forall_cons. split; [|by apply Hrest]. split; [left|done].
  - assert (Hhead : cell_at (map_ fs) nbr ≤ cell_at (map_ fs) idx →
                    flag_at (visited_flag s) nbr = true).
    { intros Hle. apply Nat.leb_le in Hle. rewrite Hle in Hfree. simpl in Hfree.
      by apply negb_false_iff in Hfree. }
    destruct (isNewFrontierCell fs nbr (frontier_flag s)) eqn:Hnew.
    + destruct (buildNewFrontier fs nbr pose _) as [b|] eqn:Hb; simpl; [|done].
      assert (Hlen1 : size_x (costmap_ fs) * size_y (costmap_ fs)
                      ≤ length (<[nbr:=true]> (frontier_flag s)))
        by (by rewrite length_insert).
      pose proof (built_flags_length fs nbr pose _ b Hlen1 Hb) as Hbl.
      rewrite length_insert in Hbl.
      intros Hs'. apply IH in Hs' as (Hl1 & Hl2 & Hmono & Hscan & new & Hq & Hnew' & Hvis);
        simpl; [|done|lia].
      simpl in *.
      assert (Hbuilt : ∀ c, flag_at (<[nbr:=true]> (frontier_flag s)) c = true →
                            flag_at (built_flags b) c = true).
      { intros c Hc. apply (buildNewFrontier_flag_at fs nbr pose _ b c Hlen1 Hb).
        by left. }
      split_and!; [done|lia| | |].
      * intros c Hc. apply Hmono, Hbuilt. by apply flag_at_insert_mono.
      * intros c. rewrite elem_of_cons. intros [->|Hin]; [|by apply Hscan].
        split.
        -- intros Hle. apply Hvis. left. by apply Hhead.
        -- right. apply isNewFrontierCell_flagged, Hmono, Hbuilt.
           rewrite flag_at_insert. destruct (decide _) as [|[]]; [done|].
           split; [done|lia].
      * exists new. split_and!; [done|by apply Hrest|done].
    + intros Hs'. apply IH in Hs' as (Hl1 & Hl2 & Hmono & Hscan & new & Hq & Hnew' & Hvis);
        [|done..].
      split_and!; [done|done|done| |].
      * intros c. rewrite elem_of_cons. intros [->|Hin]; [|by apply Hscan].
        split.
        -- intros Hle. apply Hvis. left. by apply Hhead.
        -- right. by eapply isNewFrontierCell_antitone.
      * exists new. split_and!; [done|by apply Hrest|done].
Qed.

Lemma visit_nhood4_regions {tf : Tf2} fs pose idx nbrs s s' :
  visit_nhood4 fs pose idx nbrs s = Some s' →
  ∃ built, regions s' = regions s ++ built ∧ Forall (λ r, r.1 ∈ nbrs) built.
Proof.
  revert s. induction nbrs as [|nbr rest IH]; intros s; simpl.
  { intros [= <-]. exists []. by rewrite app_nil_r. }
  assert (Hrest : ∀ built : list (nat * Built),
            Forall (λ r, r.1 ∈ rest) built → Forall (λ r, r.1 ∈ nbr :: rest) built).
  { intros built Hb. eapply Forall_impl; [exact Hb|]. intros r ?. by right. }
  destruct (_ && _).
  - intros Hs'. apply IH in Hs' as (built & Hr & Hb). exists built. auto.
  - destruct (isNewFrontierCell fs nbr (frontier_flag s)).
    + destruct (buildNewFrontier fs nbr pose _) as [b|]; simpl; [|done].
      intros Hs'. apply IH in Hs' as (built & Hr & Hb). simpl in Hr.
      exists ((nbr, b) :: built). rewrite Hr, <- app_assoc. split; [done|].
      apply Forall_cons. split; [left|auto].
    + intros Hs'. apply IH in Hs' as (built & Hr & Hb). exists built. auto.
Qed.

Lemma scanned4_mono fs s s' cell :
  (∀ c, flag_at (visited_flag s) c = true → flag_at (visited_flag s') c = true) →
  (∀ c, flag_at (frontier_flag s) c = true → flag_at (frontier_flag s') c = true) →
  scanned4 fs s cell → scanned4 fs s' cell.
Proof.
  intros Hv Hf Hs nbr Hnbr. destruct (Hs nbr Hnbr) as [H1 H2]. split.
  - intros Hle. by apply Hv, H1.
  - destruct H2 as [H2|H2]; [left; by apply Hv|].
    right. by eapply isNewFrontierCell_antitone.
Qed.

Lemma search_loop_flood {tf : Tf2} fs pose start fuel s s' :
  flood_inv fs start s →
  search_loop fuel fs pose s = Some s' →
  flood_inv fs start s'.
Proof.
  revert s. induction fuel as [|fuel IH]; intros s Hinv; simpl; [done|].
  destruct (bfs s) as [|idx rest] eqn:Hq; [by intros [= <-]|].
  destruct (visit_nhood4 fs pose idx _ _) as [s1|] eqn:Hs1; simpl; [|done].
  apply IH. destruct Hinv as [Hvl Hfl Hqueue Hsound Hpend Hseeds].
  rewrite Hq in Hqueue, Hpend. apply Forall_cons in Hqueue as [Hidx Hrest].
  pose proof (visit_nhood4_regions _ _ _ _ _ _ Hs1) as (built & Hregions & Hbuilt).
  apply visit_nhood4_flood in Hs1
    as (Hl1 & Hl2 & Hmono & Hscan & new & Hq1 & Hnew & Hvis); simpl; [|lia|done|].
  2: { apply Forall_forall. intros nbr. apply nhood4_lt. }
  simpl in *. rewrite Forall_forall in Hnew.
  split.
  - lia.
  - lia.
  - rewrite Hq1. apply Forall_app. split.
    + eapply Forall_impl; [exact Hrest|]. intros c Hc. apply Hvis. by left.
    + apply Forall_forall. intros c Hc. apply Hvis. by right.
  - intros c. rewrite Hvis. intros [Hc|Hc]; [by apply Hsound|].
    destruct (Hnew c Hc) as [Hin Hle].
    eapply descends_step; [by apply Hsound|done..].
  - intros c. rewrite Hvis, Hq1, elem_of_app. intros [Hc|Hc]; [|tauto].
    destruct (Hpend c Hc) as [Hin|Hs].
    + apply elem_of_cons in Hin as [->|Hin]; [|tauto].
      right. intros nbr Hnbr. by apply Hscan.
    + right. eapply scanned4_mono; [| |exact Hs]; simpl; [|done].
      intros c' Hc'. apply Hvis. by left.
  - rewrite Hregions. apply Forall_app. split.
    + eapply Forall_impl; [exact Hseeds|]. intros r (c & Hc & Hin).
      exists c. split; [|done]. apply Hvis. by left.
    + eapply Forall_impl; [exact Hbuilt|]. intros r Hr.
      exists idx. split; [|done]. apply Hvis. by left.
Qed.

Lemma flood_inv_initial fs start :
  start < size_x (costmap_ fs) * size_y (costmap_ fs) →
  flood_inv (cache_costmap fs) start (initial_search (cache_costmap fs) start).
Proof.
  intros Hstart.
  assert (Hvis : ∀ c, flag_at (<[start:=true]>
                   (replicate (size_x (costmap_ fs) * size_y (costmap_ fs)) false)) c
                   = true → c = start).
  { intros c. rewrite flag_at_insert, flag_at_replicate.
    destruct (decide _) as [[-> _]|]; done. }
  split; simpl; unfold getSizeInCellsX, getSizeInCellsY.
  - by rewrite length_insert, length_replicate.
  - by rewrite length_replicate.
  - apply Forall_singleton. rewrite flag_at_insert.
    destruct (decide _) as [|[]]; [done|]. by rewrite length_replicate.
  - intros c ->%Hvis. constructor.
  - intros c ->%Hvis. left. left.
  - constructor.
Qed.

Lemma descends_free fs start c :
  cell_at (map_ fs) start = FREE_SPACE → descends fs start c →
  cell_at (map_ fs) c = FREE_SPACE.
Proof.
  intros Hstart. induction 1 as [|a b _ IH _ Hle]; [done|].
  unfold FREE_SPACE in *. lia.
Qed.

Section FloodFacts.
Context {tf : Tf2} {uc : UnsignedCast}.

Lemma discover_shape fs pose mx my s log :
  discover fs pose mx my = Some (s, log) →
  search_shape (cache_costmap fs) pose s.
Proof.
  intros Hd. apply discover_search_loop in Hd as [Hs _].
  eapply search_loop_shape; [|exact Hs]. apply search_shape_initial.
Qed.

Lemma discover_flood fs pose mx my s log :
  mx < size_x (costmap_ fs) → my < size_y (costmap_ fs) →
  discover fs pose mx my = Some (s, log) →
  flood_inv (cache_costmap fs) (start_cell fs mx my).1 s.
Proof.
  intros Hmx Hmy Hd. apply discover_search_loop in Hd as [Hs _].
  eapply search_loop_flood; [|exact Hs].
  apply flood_inv_initial. by apply start_cell_on_grid.
Qed.

Lemma searchFrom_shape fs pose o s :
  searchFrom fs pose o → search o = Some s →
  search_shape (cache_costmap fs) pose s.
Proof.
  intros Ho Hs. destruct (searchFrom_searched fs pose o s Ho Hs)
    as (mx & my & _ & Hd & _ & _).
  by eapply discover_shape.
Qed.

Lemma searchFrom_flood fs pose o s :
  searchFrom fs pose o → search o = Some s →
  ∃ mx my, pose_cell fs pose = Some (mx, my) ∧
    flood_inv (cache_costmap fs) (start_cell fs mx my).1 s ∧ bfs s = [] ∧
    logged o = (start_cell fs mx my).2.
Proof.
  intros Ho Hs. destruct (searchFrom_searched fs pose o s Ho Hs)
    as (mx & my & Hcell & Hd & _ & _).
  exists mx, my. split; [done|].
  destruct (worldToMap_bounds _ _ _ _ _ Hcell) as [Hmx Hmy].
  split_and!.
  - by eapply discover_flood.
  - by destruct (discover_inv fs pose mx my s _ Hd).
  - by destruct (discover_search_loop fs pose mx my s _ Hd).
Qed.

End FloodFacts.

Lemma searchFrom_visited_free {tf : Tf2} {uc : UnsignedCast} fs pose o s :
  searchFrom fs pose o → search o = Some s → logged o = [] →
  ∀ c, flag_at (visited_flag s) c = true →
       cell_at (getCharMap (costmap_ fs)) c = FREE_SPACE.
Proof.
  intros Ho Hs Hnolog c Hc.
  destruct (searchFrom_flood fs pose o s Ho Hs)
    as (mx & my & Hcell & Hflood & _ & Hlog).
  apply (flood_sound _ _ _ Hflood) in Hc.
  apply (descends_free (cache_costmap fs) (start_cell fs mx my).1); [|done].
  simpl. rewrite Hnolog in Hlog. unfold start_cell in *.
  destruct (nearestCell _ _ _) as [clear|] eqn:Hnear; [|done].
  simpl. by apply nearestCell_on_grid in Hnear as [_ ?].
Qed.

(** ** Searchers over the same grid *)

Lemma isNewFrontierCell_same_grid fs fs' idx ff :
  same_grid fs fs' → isNewFrontierCell fs idx ff = isNewFrontierCell fs' idx ff.
Proof. intros (Hc & _ & Hm & _). unfold isNewFrontierCell. by rewrite Hc, Hm. Qed.

Lemma max_size_reached_same_grid fs fs' k :
  same_grid fs fs' → max_size_reached fs k = max_size_reached fs' k.
Proof. intros (Hc & Hx & _). unfold max_size_reached. by rewrite Hc, Hx. Qed.

Lemma add_cell_same_grid fs fs' pose nbr g :
  same_grid fs fs' → add_cell fs pose nbr g = add_cell fs' pose nbr g.
Proof. intros (Hc & _). unfold add_cell. by rewrite Hc. Qed.

Lemma grow_nhood8_same_grid fs fs' pose nbrs g :
  same_grid fs fs' → grow_nhood8 fs pose nbrs g = grow_nhood8 fs' pose nbrs g.
Proof.
  intros Hsame. revert g. induction nbrs as [|nbr rest IH]; intros g; [done|].
  cbn [grow_nhood8].
  rewrite (isNewFrontierCell_same_grid fs fs' nbr (flags g) Hsame).
  rewrite (add_cell_same_grid fs fs' pose nbr g Hsame).
  rewrite (max_size_reached_same_grid fs fs' _ Hsame).
  by rewrite !IH.
Qed.

Lemma grow_frontier_same_grid fs fs' pose fuel g :
  same_grid fs fs' → grow_frontier fuel fs pose g = grow_frontier fuel fs' pose g.
Proof.
  intros Hsame. revert g. induction fuel as [|fuel IH]; intros g; [done|].
  cbn [grow_frontier]. destruct (queue g) as [|idx rest]; [done|].
  rewrite (grow_nhood8_same_grid fs fs' pose _ _ Hsame).
  destruct Hsame as (<- & _).
  destruct (grow_nhood8 fs' pose _ _) as [g1 []]; [done|apply IH].
Qed.

Lemma buildNewFrontier_same_grid {tf : Tf2} fs fs' seed pose ff :
  same_grid fs fs' →
  buildNewFrontier fs seed pose ff = buildNewFrontier fs' seed pose ff.
Proof.
  intros Hsame. unfold buildNewFrontier, initial_output.
  rewrite (grow_frontier_same_grid fs fs' pose _ _ Hsame).
  by destruct Hsame as (<- & _).
Qed.

Lemma visit_nhood4_same_grid {tf : Tf2} fs fs' pose idx nbrs s t s1 :
  same_grid fs fs' → same_search s t →
  visit_nhood4 fs pose idx nbrs s = Some s1 →
  ∃ t1, visit_nhood4 fs' pose idx nbrs t = Some t1 ∧ same_search s1 t1.
Proof.
  intros Hsame. revert s t.
  induction nbrs as [|nbr rest IH]; intros s t Hst; cbn [visit_nhood4].
  { intros [= <-]. by exists t. }
  pose proof Hsame as (Hc & _ & Hm & _).
  destruct Hst as (Hb & Hv & Hf & Hr).
  rewrite <- Hm, <- Hv, <- Hf, <- Hb, <- Hr.
  rewrite <- (isNewFrontierCell_same_grid fs fs' nbr _ Hsame).
  rewrite <- (buildNewFrontier_same_grid fs fs' nbr pose _ Hsame).
  destruct (_ && _).
  - apply IH. by repeat split.
  - destruct (isNewFrontierCell fs nbr (frontier_flag s)).
    + destruct (buildNewFrontier fs nbr pose _) as [b|]; simpl; [|done].
      apply IH. by repeat split.
    + apply IH. by repeat split.
Qed.

Lemma search_loop_same_grid {tf : Tf2} fs fs' pose fuel s t s1 :
  same_grid fs fs' → same_search s t →
  search_loop fuel fs pose s = Some s1 →
  ∃ t1, search_loop fuel fs' pose t = Some t1 ∧ same_search s1 t1.
Proof.
  intros Hsame. revert s t.
  induction fuel as [|fuel IH]; intros s t Hst; cbn [search_loop]; [done|].
  pose proof Hst as (Hb & Hv & Hf & Hr). rewrite <- Hb.
  destruct (bfs s) as [|idx rest]; [intros [= <-]; by exists t|].
  destruct (visit_nhood4 fs pose idx _ _) as [s2|] eqn:Hs2; simpl; [|done].
  destruct (visit_nhood4_same_grid fs fs' pose idx (nhood4 idx (costmap_ fs))
              (mkSearch rest (visited_flag s) (frontier_flag s)
                        (frontier_list s) (regions s))
              (mkSearch rest (visited_flag t) (frontier_flag t)
                        (frontier_list t) (regions t)) s2 Hsame)
    as (t2 & Ht2 & Hst2); [by repeat split|exact Hs2|].
  pose proof Hsame as (Hc & _). rewrite <- Hc, Ht2. simpl.
  by apply IH.
Qed.

Lemma discover_same_grid {tf : Tf2} fs fs' pose mx my s log :
  costmap_ fs = costmap_ fs' → max_frontier_size_ fs = max_frontier_size_ fs' →
  discover fs pose mx my = Some (s, log) →
  ∃ s', discover fs' pose mx my = Some (s', log) ∧ same_search s s'.
Proof.
  intros Hc Hx Hd. apply discover_search_loop in Hd as [Hs ->].
  destruct (search_loop_same_grid (cache_costmap fs) (cache_costmap fs') pose
              (S (S (size_x (costmap_ fs) * size_y (costmap_ fs))))
              (initial_search (cache_costmap fs) (start_cell fs mx my).1)
              (initial_search (cache_costmap fs') (start_cell fs mx my).1) s)
    as (s' & Hs' & Hss); [| |exact Hs|].
  - unfold same_grid. simpl. by rewrite Hc, Hx.
  - unfold same_search, initial_search. simpl. by rewrite Hc.
  - exists s'. split; [|done]. rewrite discover_unfold.
    unfold start_cell in *. rewrite <- Hc. simpl in Hs' |- *. rewrite Hs'. done.
Qed.

(** ** Floats that are not numbers *)

Lemma is_nan_true x : is_nan x = true ↔ Prim2SF x = S754_nan.
Proof.
  split.
  - intros H. destruct (Prim2SF x) eqn:E; try done;
      rewrite Prim2SF_is_nan in H; by rewrite ?E.
  - intros E. destruct (is_nan x) eqn:H; [done|].
    by apply is_nan_Prim2SF in H.
Qed.

Lemma mul_nan_l x y : is_nan x = true → is_nan (x * y)%float = true.
Proof.
  rewrite !is_nan_true, FloatAxioms.mul_spec. intros ->. done.
Qed.

Lemma add_nan_r x y : is_nan y = true → is_nan (x + y)%float = true.
Proof.
  rewrite !is_nan_true, FloatAxioms.add_spec. intros ->.
  by destruct (Prim2SF x) as [[]|[]| |[] ? ?].
Qed.

Lemma sub_nan_l x y : is_nan x = true → is_nan (x - y)%float = true.
Proof.
  rewrite !is_nan_true, FloatAxioms.sub_spec. intros ->. done.
Qed.

Lemma zero_mul_infinity x :
  (x =? 0)%float = true → is_nan (x * infinity)%float = true.
Proof.
  rewrite FloatAxioms.eqb_spec, is_nan_true, FloatAxioms.mul_spec.
  change (Prim2SF 0) with (S754_zero false).
  change (Prim2SF infinity) with (S754_infinity false).
  by destruct (Prim2SF x) as [[]|[]| |[] ? ?].
Qed.

Lemma leb_nan_l x y : is_nan x = true → (x <=? y)%float = false.
Proof.
  rewrite is_nan_true, FloatAxioms.leb_spec. intros ->. done.
Qed.

Lemma mul_nan_r x y : is_nan y = true → is_nan (x * y)%float = true.
Proof.
  rewrite !is_nan_true, FloatAxioms.mul_spec. intros ->.
  by destruct (Prim2SF x) as [[]|[]| |[] ? ?].
Qed.

Lemma leb_nan_r x y : is_nan y = true → (x <=? y)%float = false.
Proof.
  rewrite is_nan_true, FloatAxioms.leb_spec. intros ->.
  by destruct (Prim2SF x) as [[]|[]| |[] ? ?].
Qed.

Lemma accepted_none fs rs :
  (∀ f, min_size_met fs f = false) → accepted fs rs = [].
Proof.
  intros Hmin. induction rs as [|r rs IH]; simpl; [done|].
  by rewrite Hmin, IH.
Qed.

(** ** Ascending order of cost *)

Lemma leb_key_le x y :
  is_nan x = false → is_nan y = false →
  (x <=? y)%float = true ↔ ¬ key_lt (float_key y) (float_key x).
Proof.
  intros Hx%is_nan_Prim2SF Hy%is_nan_Prim2SF.
  rewrite FloatAxioms.leb_spec. unfold float_key, key_lt, SFleb, SFcompare.
  destruct (Prim2SF x) as [[]|[]| |[] mx ex], (Prim2SF y) as [[]|[]| |[] my ey];
    try done; simpl; try (split; [intros; lia | intros; (done || lia)]).
  all: destruct (Z.compare_spec ex ey); try (split; [intros; lia | intros; (done || lia)]).
  all: change (Pos.compare_cont Eq mx my) with (Pos.compare mx my).
  all: destruct (Pos.compare_spec mx my); simpl;
    split; intros; try done; try lia.
Qed.

(** When no cost is NaN the comparison of costs is a strict weak ordering. *)
Lemma cost_lt_ordering l :
  Forall cost_is_number l → strict_weak_ordering cost_lt l.
Proof.
  intros Hnum. rewrite Forall_forall in Hnum.
  assert (Hlt : ∀ a b, a ∈ l → b ∈ l →
            ∃ ca cb, Frontier.cost a = Some ca ∧ Frontier.cost b = Some cb ∧
              (cost_lt a b = true ↔ key_lt (float_key ca) (float_key cb))).
  { intros a b Ha%Hnum Hb%Hnum. unfold cost_is_number, cost_lt in *.
    destruct (Frontier.cost a) as [ca|]; [|done].
    destruct (Frontier.cost b) as [cb|]; [|done].
    exists ca, cb. split_and!; [done..|]. by apply ltb_key_lt. }
  split_and!.
  - apply Forall_forall. intros a Ha.
    destruct (Hlt a a Ha Ha) as (ca & cb & E1 & E2 & Hiff).
    assert (ca = cb) as -> by congruence.
    destruct (cost_lt a a); [|done]. destruct Hiff as [Hiff _].
    specialize (Hiff eq_refl). unfold key_lt in Hiff. lia.
  - apply Forall_forall. intros a Ha. apply Forall_forall. intros b Hb.
    apply Forall_forall. intros c Hc.
    destruct (Hlt a b Ha Hb) as (ca & cb & Ea & Eb & Hab).
    destruct (Hlt b c Hb Hc) as (cb' & cc & Eb' & Ec & Hbc).
    destruct (Hlt a c Ha Hc) as (ca' & cc' & Ea' & Ec' & Hac).
    assert (cb' = cb) as -> by congruence.
    assert (ca' = ca) as -> by congruence.
    assert (cc' = cc) as -> by congruence.
    rewrite Hab, Hbc, Hac. unfold key_lt. lia.
  - apply Forall_forall. intros a Ha. apply Forall_forall. intros b Hb.
    apply Forall_forall. intros c Hc.
    destruct (Hlt a b Ha Hb) as (ca & cb & Ea & Eb & Hab).
    destruct (Hlt b a Hb Ha) as (cb1 & ca1 & Eb1 & Ea1 & Hba).
    destruct (Hlt b c Hb Hc) as (cb2 & cc & Eb2 & Ec & Hbc).
    destruct (Hlt c b Hc Hb) as (cc3 & cb3 & Ec3 & Eb3 & Hcb).
    destruct (Hlt a c Ha Hc) as (ca4 & cc4 & Ea4 & Ec4 & Hac).
    destruct (Hlt c a Hc Ha) as (cc5 & ca5 & Ec5 & Ea5 & Hca).
    assert (cb1 = cb) as -> by congruence. assert (ca1 = ca) as -> by congruence.
    assert (cb2 = cb) as -> by congruence. assert (cb3 = cb) as -> by congruence.
    assert (cc3 = cc) as -> by congruence. assert (ca4 = ca) as -> by congruence.
    assert (cc4 = cc) as -> by congruence. assert (ca5 = ca) as -> by congruence.
    assert (cc5 = cc) as -> by congruence.
    rewrite <- !not_true_iff_false, Hab, Hba, Hbc, Hcb, Hac, Hca.
    intros H1 H2 H3 H4.
    rewrite (key_lt_total _ _ H1 H2), <- (key_lt_total _ _ H3 H4).
    unfold key_lt. lia.
Qed.

Lemma leb_numbers x y :
  (x <=? y)%float = true → is_nan x = false ∧ is_nan y = false.
Proof.
  intros H. split.
  - destruct (is_nan x) eqn:E; [|done]. by rewrite (leb_nan_l x y E) in H.
  - destruct (is_nan y) eqn:E; [|done]. by rewrite (leb_nan_r x y E) in H.
Qed.

Lemma cost_le_numbers a b :
  cost_le a b = true → cost_is_number a ∧ cost_is_number b.
Proof.
  unfold cost_le, cost_is_number.
  destruct (Frontier.cost a) as [ca|], (Frontier.cost b) as [cb|]; try done.
  apply leb_numbers.
Qed.

Lemma cost_le_not_lt a b :
  cost_is_number a → cost_is_number b → cost_lt b a = false → cost_le a b = true.
Proof.
  unfold cost_le, cost_lt, cost_is_number.
  destruct (Frontier.cost a) as [ca|], (Frontier.cost b) as [cb|]; try done.
  intros Ha Hb Hlt. apply (leb_key_le ca cb Ha Hb).
  rewrite <- (ltb_key_lt cb ca Hb Ha). by rewrite Hlt.
Qed.

Lemma StronglySorted_lookup_lt {A} (R : A → A → Prop) l i j a b :
  StronglySorted R l → i < j → l !! i = Some a → l !! j = Some b → R a b.
Proof.
  intros Hs. revert i j. induction Hs as [|x l Hs IH Hall]; intros i j Hij Hi Hj.
  - done.
  - destruct j as [|j]; [lia|]. simpl in Hj. destruct i as [|i]; simpl in Hi.
    + injection Hi as ->. rewrite Forall_forall in Hall. apply Hall.
      by eapply list_elem_of_lookup_2.
    + apply (IH i j); [lia|done..].
Qed.

(** A sorted list of frontiers whose costs are numbers is in ascending
    order of cost. *)
Lemma sorted_by_ascending l :
  Forall cost_is_number l → sorted_by cost_lt l → ascending_by_cost l.
Proof.
  intros Hnum Hs i j a b Hij Hi Hj. rewrite Forall_forall in Hnum.
  apply cost_le_not_lt.
  - apply Hnum. by eapply list_elem_of_lookup_2.
  - apply Hnum. by eapply list_elem_of_lookup_2.
  - by apply (StronglySorted_lookup_lt _ l i j a b Hs).
Qed.

(** In a list of two or more frontiers in ascending order of cost, every
    cost is a number. *)
Lemma ascending_by_cost_numbers l :
  ascending_by_cost l → 2 ≤ length l → Forall cost_is_number l.
Proof.
  intros Hasc Hlen. apply Forall_lookup. intros i a Hi.
  destruct i as [|i].
  - destruct (lookup_lt_is_Some_2 l 1 ltac:(lia)) as [b Hb].
    by destruct (cost_le_numbers a b (Hasc 0 1 a b ltac:(lia) Hi Hb)).
  - destruct (lookup_lt_is_Some_2 l 0 ltac:(lia)) as [b Hb].
    by destruct (cost_le_numbers b a (Hasc 0 (S i) b a ltac:(lia) Hb Hi)).
Qed.

(** * The claims *)

(** C1 (the code departs from the claim).  Scenario A of the
    specification: a 5 x 5 grid, free but for one unknown cell on its upper
    edge, seen from the middle of the grid.  The region built from that
    cell is the seed alone: its [size] is 1 and no point is pushed.  The
    seed's coordinate (2.5, 0.5) is never compared with [min_distance],
    although its distance to the reference pose is finite, and the region
    comes back with [min_distance] infinite and [middle] the default point
    (0, 0, 0).  This holds whatever the rotation arithmetic computes. *)
Theorem singleton_region_never_measured (tf : Tf2) :
  ∃ b,
    buildNewFrontier (cache_costmap scenario_a_search) 2 scenario_a_pose
      (<[2:=true]> (replicate 25 false)) = Some b ∧
    Frontier.size (built_frontier b) = 1 ∧
    Frontier.points (built_frontier b) = [] ∧
    Frontier.initial (built_frontier b) = Point.mk 2.5 0.5 0 ∧
    (distance_to scenario_a_pose 2.5 0.5 <? infinity)%float = true ∧
    Frontier.min_distance (built_frontier b) = infinity ∧
    Frontier.middle (built_frontier b) = Point0.
Proof. eexists. split; [by vm_compute|]. by vm_compute. Qed.

(** C2, against the claim as stated, in two searches.

    Ties.  A 35 x 3 grid with seventeen regions of two cells, searched
    with zero distance and orientation weights: every frontier costs -2.
    [std::sort] of libstdc++ partitions a range of more than 16 elements
    around a median of three before it sorts by insertion, and the
    partition exchanges equal elements: the frontier found ninth, in
    column 17, is returned first, and the one found first, in column 1, is
    returned tenth.  The order of discovery is not kept.

    A cost that is not a number.  A 15 x 3 grid with regions of four, two,
    one and three cells, found in this order, with a distance weight of
    zero: the costs are -4, -2, NaN and -3, the region of one cell having
    no finite [min_distance].  No comparison with NaN holds, [std::sort]
    of libstdc++ moves nothing, and -3 is returned after -2.  Whatever
    [std::sort] does with these four frontiers, the list returned is not
    in ascending order of cost. *)
Lemma searchFrom_neither_stable_nor_sorted :
  (∃ o s a b,
      @searchFrom flat_tf2 x86_64_cast pairs_search south_west_pose o ∧
      search o = Some s ∧
      libstdcxx_sort cost_lt (frontier_list s) = Some (returned o) ∧
      length (frontier_list s) = 17 ∧ NoDup (frontier_list s) ∧
      Forall (λ f, Frontier.cost f = Some (-2)%float) (frontier_list s) ∧
      frontier_list s !! 0 = Some b ∧ frontier_list s !! 8 = Some a ∧
      Point.x (Frontier.initial b) = 1.5%float ∧
      Point.x (Frontier.initial a) = 17.5%float ∧
      returned o !! 0 = Some a ∧ returned o !! 9 = Some b ∧
      ¬ keeps_discovery_order cost_lt (frontier_list s) (returned o)) ∧
  (∃ o s a b,
      @searchFrom flat_tf2 x86_64_cast four_runs_search west_pose o ∧
      search o = Some s ∧
      libstdcxx_sort cost_lt (frontier_list s) = Some (returned o) ∧
      returned o !! 1 = Some a ∧ returned o !! 3 = Some b ∧
      Frontier.cost a = Some (-2)%float ∧ Frontier.cost b = Some (-3)%float ∧
      cost_lt b a = true) ∧
  (∀ o, @searchFrom flat_tf2 x86_64_cast four_runs_search west_pose o →
        ¬ ascending_by_cost (returned o)).
Proof.
  split_and!.
  - eexists _, _, _, _. split.
    { eapply libstdcxx_outcome_of_searchFrom; [vm_compute; reflexivity|].
      intros s [= <-] _. by_computation. }
    split; [reflexivity|].
    split; [by vm_compute|].
    split; [reflexivity|].
    split; [by_computation|].
    split; [by_computation|].
    split; [reflexivity|]. split; [reflexivity|].
    split; [reflexivity|]. split; [reflexivity|].
    split; [reflexivity|]. split; [reflexivity|].
    intros Hkeep.
    destruct (Hkeep 0 9 _ _ ltac:(lia) eq_refl eq_refl) as (i' & j' & Hlt & Hi & Hj);
      [by vm_compute..|].
    match type of Hi with
    | ?l !! _ = _ => assert (Hnd : NoDup l) by by_computation
    end.
    pose proof (NoDup_lookup _ i' 8 _ Hnd Hi eq_refl).
    pose proof (NoDup_lookup _ j' 0 _ Hnd Hj eq_refl). lia.
  - exists four_runs_outcome. eexists _, _, _.
    split; [apply four_runs_outcome_ok|].
    split; [reflexivity|].
    split; [by vm_compute|].
    split; [reflexivity|]. split; [reflexivity|].
    split; [reflexivity|]. split; [reflexivity|]. reflexivity.
  - intros o Ho Hasc.
    destruct Ho as [Hcell|mx my s log sorted Hcell Hd [Hperm _]];
      [by vm_compute in Hcell|].
    vm_compute in Hcell. injection Hcell as <- <-.
    vm_compute in Hd. injection Hd as <- <-. simpl in Hasc.
    apply ascending_by_cost_numbers in Hasc;
      [|rewrite <- (Permutation_length Hperm); simpl; lia].
    rewrite <- Hperm in Hasc.
    apply (bool_decide_pack _) in Hasc. by vm_compute in Hasc.
Qed.

(** C2, amended.  The list [searchFrom] returns holds the frontiers found,
    each as often as it was found, and when no cost in it is NaN it is in
    ascending order of cost: no frontier costs more than a later one.  The
    order of frontiers of equal cost is that of [std::sort], which need not
    be the order of discovery. *)
Theorem searchFrom_sorted_by_cost {tf : Tf2} {uc : UnsignedCast} fs pose o :
  searchFrom fs pose o →
  (Forall cost_is_number (returned o) → ascending_by_cost (returned o)) ∧
  match search o with
  | Some s => frontier_list s ≡ₚ returned o
  | None => returned o = []
  end.
Proof.
  intros [Hcell|mx my s log sorted Hcell Hd [Hperm Hsort]]; simpl.
  - split; [|done]. by intros _ i j a b _ Hi.
  - split; [|done]. intros Hnum. apply sorted_by_ascending; [done|].
    apply Hsort, cost_lt_ordering. by rewrite Hperm.
Qed.

(** The grid with four runs of unknown cells, searched with unit weights:
    the four costs are numbers and differ, and the frontier found third is
    returned last ([four_runs_weighed_searched]). *)
Lemma searchFrom_sorted_by_cost_witness :
  Forall cost_is_number (returned four_runs_weighed_outcome) ∧
  ascending_by_cost (returned four_runs_weighed_outcome) ∧
  match search four_runs_weighed_outcome with
  | Some s => frontier_list s ≡ₚ returned four_runs_weighed_outcome
  | None => returned four_runs_weighed_outcome = []
  end.
Proof.
  assert (Hnum : Forall cost_is_number (returned four_runs_weighed_outcome))
    by (apply (bool_decide_unpack _); vm_compute; exact I).
  destruct (@searchFrom_sorted_by_cost flat_tf2 x86_64_cast four_runs_weighed
              west_pose four_runs_weighed_outcome four_runs_weighed_outcome_ok)
    as [Hasc Hperm].
  split; [exact Hnum|]. split; [exact (Hasc Hnum)|exact Hperm].
Defined.

(** C3.  On a grid whose cell array and flag array have one entry per
    cell, [isNewFrontierCell] answers [true] for a cell of the grid exactly
    when the cell is unknown ([NO_INFORMATION]), its frontier flag is not
    set, and one of its 4-connected neighbours is free ([FREE_SPACE]); in
    every other case it answers [false].  The 4-connected neighbours,
    those [nhood4] lists, are the orthogonally adjacent cells of the
    grid. *)
Theorem isNewFrontierCell_iff fs idx (ff : list bool) :
  length (map_ fs) = size_x (costmap_ fs) * size_y (costmap_ fs) →
  length ff = size_x (costmap_ fs) * size_y (costmap_ fs) →
  idx < size_x (costmap_ fs) * size_y (costmap_ fs) →
  (isNewFrontierCell fs idx ff = true ↔
     map_ fs !! idx = Some NO_INFORMATION ∧ ff !! idx = Some false ∧
     ∃ nbr, nbr ∈ nhood4 idx (costmap_ fs) ∧ map_ fs !! nbr = Some FREE_SPACE) ∧
  (isNewFrontierCell fs idx ff = false ↔
     ¬ (map_ fs !! idx = Some NO_INFORMATION ∧ ff !! idx = Some false ∧
        ∃ nbr, nbr ∈ nhood4 idx (costmap_ fs) ∧ map_ fs !! nbr = Some FREE_SPACE)) ∧
  (∀ nbr, nbr ∈ nhood4 idx (costmap_ fs) ↔ adjacent4 (costmap_ fs) idx nbr).
Proof.
  intros Hmap Hff Hidx.
  assert (Hiff : isNewFrontierCell fs idx ff = true ↔
     map_ fs !! idx = Some NO_INFORMATION ∧ ff !! idx = Some false ∧
     ∃ nbr, nbr ∈ nhood4 idx (costmap_ fs) ∧ map_ fs !! nbr = Some FREE_SPACE).
  { rewrite isNewFrontierCell_true.
    rewrite cell_at_lookup by lia. rewrite flag_at_lookup by lia.
    split; intros (Hu & Hf & nbr & Hn & Hfree); (repeat split; [done..|]);
      exists nbr; (split; [done|]); pose proof (nhood4_lt _ _ _ Hn).
    - apply cell_at_lookup; [lia|done].
    - apply cell_at_lookup; [lia|done]. }
  split_and!.
  - done.
  - rewrite <- Hiff. destruct (isNewFrontierCell fs idx ff); split; congruence.
  - intros nbr. apply nhood4_adjacent4.
Qed.

(** The unknown cell in the middle of the 3 x 3 grid, with no flag set. *)
Lemma isNewFrontierCell_iff_witness :
  (isNewFrontierCell (cache_costmap island_search) 4 (replicate 9 false) = true ↔
     map_ (cache_costmap island_search) !! 4 = Some NO_INFORMATION ∧
     replicate 9 false !! 4 = Some false ∧
     ∃ nbr, nbr ∈ nhood4 4 (costmap_ (cache_costmap island_search)) ∧
            map_ (cache_costmap island_search) !! nbr = Some FREE_SPACE) ∧
  (isNewFrontierCell (cache_costmap island_search) 4 (replicate 9 false) = false ↔
     ¬ (map_ (cache_costmap island_search) !! 4 = Some NO_INFORMATION ∧
        replicate 9 false !! 4 = Some false ∧
        ∃ nbr, nbr ∈ nhood4 4 (costmap_ (cache_costmap island_search)) ∧
               map_ (cache_costmap island_search) !! nbr = Some FREE_SPACE)) ∧
  (∀ nbr, nbr ∈ nhood4 4 (costmap_ (cache_costmap island_search)) ↔
          adjacent4 (costmap_ (cache_costmap island_search)) 4 nbr).
Proof.
  apply (isNewFrontierCell_iff (cache_costmap island_search) 4 (replicate 9 false)).
  - reflexivity.
  - reflexivity.
  - simpl. lia.
Defined.

(** C4.  Every frontier of the list [searchFrom] returns meets the minimum
    size, [size * resolution >= min_frontier_size]: the list holds the
    frontiers of the result list, which holds the regions built that meet
    the minimum size, in order of discovery, and no other.  Every region
    built, of whatever size, has its cells flagged and comes back from the
    builder without a cost. *)
Theorem searchFrom_min_size {tf : Tf2} {uc : UnsignedCast} fs pose o :
  searchFrom fs pose o →
  Forall (λ f, (min_frontier_size_ fs <=?
                of_nat (Frontier.size f) * getResolution (costmap_ fs))%float = true)
         (returned o) ∧
  match search o with
  | Some s =>
      frontier_list s ≡ₚ returned o ∧
      Forall (λ f, (min_frontier_size_ fs <=?
                    of_nat (Frontier.size f) * getResolution (costmap_ fs))%float = true)
             (frontier_list s) ∧
      frontier_list s = accepted fs (regions s) ∧
      Forall (λ r, Frontier.cost (built_frontier r.2) = None) (regions s) ∧
      Forall (λ c, flag_at (frontier_flag s) c = true) (claimed (regions s))
  | None => returned o = []
  end.
Proof.
  intros Ho. destruct (search o) as [s|] eqn:Hs.
  - destruct (searchFrom_search_inv fs pose o s Ho Hs) as [Hinv _].
    destruct (searchFrom_searched fs pose o s Ho Hs)
      as (_ & _ & _ & _ & [Hperm _] & _).
    assert (Hmin : Forall (λ f, (min_frontier_size_ fs <=?
                    of_nat (Frontier.size f) * getResolution (costmap_ fs))%float = true)
                     (frontier_list s)).
    { rewrite (sinv_list _ _ _ Hinv). apply accepted_Forall. by intros r _ Hmin. }
    split_and!.
    + by rewrite <- Hperm.
    + done.
    + done.
    + by rewrite (sinv_list _ _ _ Hinv), accepted_cache_costmap.
    + eapply Forall_impl; [exact (sinv_regions _ _ _ Hinv)|].
      intros r (ff & _ & _ & Hok). exact (ok_cost _ _ _ _ _ Hok).
    + exact (sinv_flagged _ _ _ Hinv).
  - destruct Ho; [|discriminate]. by split.
Qed.

(** A search in which one region of two is below the minimum size. *)
Lemma searchFrom_min_size_witness :
  Forall (λ f, (min_frontier_size_ mixed_search <=?
                of_nat (Frontier.size f)
                * getResolution (costmap_ mixed_search))%float = true)
         (returned mixed_outcome) ∧
  match search mixed_outcome with
  | Some s =>
      frontier_list s ≡ₚ returned mixed_outcome ∧
      Forall (λ f, (min_frontier_size_ mixed_search <=?
                    of_nat (Frontier.size f)
                    * getResolution (costmap_ mixed_search))%float = true)
             (frontier_list s) ∧
      frontier_list s = accepted mixed_search (regions s) ∧
      Forall (λ r, Frontier.cost (built_frontier r.2) = None) (regions s) ∧
      Forall (λ c, flag_at (frontier_flag s) c = true) (claimed (regions s))
  | None => returned mixed_outcome = []
  end.
Proof.
  apply (@searchFrom_min_size flat_tf2 x86_64_cast mixed_search centre_pose).
  apply mixed_outcome_ok.
Defined.

(** C5, against the claim as stated.  With a maximum frontier size of half
    a cell, the region grown from cell 5 of the 4 x 3 grid stops at two
    cells: the test is made after a cell is added, never on the seed
    alone.  Its physical size, 2, is not below [max_frontier_size +
    resolution], 1.5. *)
Lemma buildNewFrontier_exceeds_max_by_more_than_a_cell :
  ∃ b,
    @buildNewFrontier flat_tf2 (cache_costmap ridge_search) 5 corner_pose
      (<[5:=true]> (replicate 12 false)) = Some b ∧
    (0 <? max_frontier_size_ ridge_search)%float = true ∧
    Frontier.size (built_frontier b) = 2 ∧
    (of_nat (Frontier.size (built_frontier b)) * getResolution (costmap_ ridge_search)
     <? max_frontier_size_ ridge_search + getResolution (costmap_ ridge_search))%float
    = false.
Proof. eexists. split; [by vm_compute|]. by vm_compute. Qed.

(** C5, amended.  The builder returns, and if [max_frontier_size > 0] the
    region stopped growing at the first cell added at which [size *
    resolution >= max_frontier_size] held: the test, first made at size 2,
    failed at every size from 2 up to the one before the final size.  So a
    frontier has at most two cells, or [(size - 1) * resolution >=
    max_frontier_size] does not hold.  If [max_frontier_size > 0] does not
    hold, no scan of a neighbourhood is ever cut short: the size is not
    bounded by this test. *)
Theorem buildNewFrontier_max_size {tf : Tf2} fs seed pose (ff : list bool) :
  size_x (costmap_ fs) * size_y (costmap_ fs) ≤ length ff →
  ∃ b, buildNewFrontier fs seed pose ff = Some b ∧
    ((0 <? max_frontier_size_ fs)%float = true →
     ∀ k, 2 ≤ k → k < Frontier.size (built_frontier b) →
       (max_frontier_size_ fs <=? of_nat k * getResolution (costmap_ fs))%float = false) ∧
    ((0 <? max_frontier_size_ fs)%float = false →
     ∀ nbrs g, (grow_nhood8 fs pose nbrs g).2 = false).
Proof.
  intros Hlen.
  destruct (buildNewFrontier_total fs seed pose ff Hlen) as [b Hb].
  exists b. split; [done|].
  destruct (buildNewFrontier_ok fs seed pose ff b Hlen Hb).
  split.
  - intros Hpos k Hk Hlt.
    specialize (ok_max0 k Hk ltac:(lia)). unfold max_size_reached in ok_max0.
    by rewrite Hpos in ok_max0.
  - intros Hunset nbrs g. by apply grow_nhood8_uncapped.
Qed.

(** A region of three cells, stopped at the third. *)
Lemma buildNewFrontier_max_size_witness :
  ∃ b, @buildNewFrontier flat_tf2 (cache_costmap capped_search) 5 corner_pose
         (<[5:=true]> (replicate 12 false)) = Some b ∧
    ((0 <? max_frontier_size_ (cache_costmap capped_search))%float = true →
     ∀ k, 2 ≤ k → k < Frontier.size (built_frontier b) →
       (max_frontier_size_ (cache_costmap capped_search) <=?
        of_nat k * getResolution (costmap_ (cache_costmap capped_search)))%float = false) ∧
    ((0 <? max_frontier_size_ (cache_costmap capped_search))%float = false →
     ∀ nbrs g, (grow_nhood8 (cache_costmap capped_search) corner_pose nbrs g).2 = false).
Proof.
  apply (@buildNewFrontier_max_size flat_tf2 (cache_costmap capped_search) 5 corner_pose).
  vm_compute. lia.
Defined.

(** C6.  Every frontier that [searchFrom] puts on its result list has the
    cost [orientation_scale * angular_distance + potential_scale *
    min_distance * resolution - gain_scale * size * resolution], computed
    from its own fields and the resolution of the costmap; so has every
    frontier of the list returned, when the comparison of costs is a strict
    weak ordering of the result list, as [std::sort] requires. *)
Theorem searchFrom_cost {tf : Tf2} {uc : UnsignedCast} fs pose o :
  searchFrom fs pose o →
  match search o with
  | Some s =>
      Forall (λ f, Frontier.cost f =
                   Some (orientation_scale_ fs * Frontier.angular_distance f
                         + potential_scale_ fs * Frontier.min_distance f
                           * getResolution (costmap_ fs)
                         - gain_scale_ fs * of_nat (Frontier.size f)
                           * getResolution (costmap_ fs))%float)
             (frontier_list s) ∧
      (strict_weak_ordering cost_lt (frontier_list s) →
       Forall (λ f, Frontier.cost f =
                    Some (orientation_scale_ fs * Frontier.angular_distance f
                          + potential_scale_ fs * Frontier.min_distance f
                            * getResolution (costmap_ fs)
                          - gain_scale_ fs * of_nat (Frontier.size f)
                            * getResolution (costmap_ fs))%float)
              (returned o))
  | None => returned o = []
  end.
Proof.
  intros Ho. destruct (search o) as [s|] eqn:Hs.
  - destruct (searchFrom_search_inv fs pose o s Ho Hs) as [[] _].
    assert (Hcost : Forall (λ f, Frontier.cost f = Some (frontierCost fs f))
                           (frontier_list s)).
    { rewrite sinv_list0. apply accepted_Forall. by intros r _ _. }
    split; [done|]. intros Hswo.
    assert (Hord : costs_ordered o) by (unfold costs_ordered; by rewrite Hs).
    destruct (searchFrom_returned fs pose o Ho Hord) as [_ Hperm].
    rewrite Hs in Hperm. by rewrite <- Hperm.
  - destruct Ho; [done|discriminate].
Qed.

(** The search of the grid with two mirrored regions. *)
Lemma searchFrom_cost_witness :
  match search two_bays_outcome with
  | Some s =>
      Forall (λ f, Frontier.cost f =
                   Some (orientation_scale_ two_bays_search * Frontier.angular_distance f
                         + potential_scale_ two_bays_search * Frontier.min_distance f
                           * getResolution (costmap_ two_bays_search)
                         - gain_scale_ two_bays_search * of_nat (Frontier.size f)
                           * getResolution (costmap_ two_bays_search))%float)
             (frontier_list s) ∧
      (strict_weak_ordering cost_lt (frontier_list s) →
       Forall (λ f, Frontier.cost f =
                    Some (orientation_scale_ two_bays_search * Frontier.angular_distance f
                          + potential_scale_ two_bays_search * Frontier.min_distance f
                            * getResolution (costmap_ two_bays_search)
                          - gain_scale_ two_bays_search * of_nat (Frontier.size f)
                            * getResolution (costmap_ two_bays_search))%float)
              (returned two_bays_outcome))
  | None => returned two_bays_outcome = []
  end.
Proof.
  apply (@searchFrom_cost flat_tf2 x86_64_cast two_bays_search centre_pose).
  apply two_bays_outcome_ok.
Defined.

(** C7.  For a pose that does not map into the grid, one for which
    [worldToMap] answers false, [searchFrom] returns the empty list and
    nothing else: it logs the error, runs no search of the grid, and leaves
    the searcher as it was.  No other call ends without having run the
    search.  This holds whatever a build makes of the conversions that C++
    leaves undefined. *)
Theorem searchFrom_out_of_bounds {tf : Tf2} {uc : UnsignedCast} fs pose :
  pose_cell fs pose = None →
  searchFrom fs pose (mkOutcome [] fs [RobotOutOfBounds] None) ∧
  (∀ o, searchFrom fs pose o → o = mkOutcome [] fs [RobotOutOfBounds] None) ∧
  (∀ pose' o', searchFrom fs pose' o' →
     (search o' = None ∨ RobotOutOfBounds ∈ logged o') → pose_cell fs pose' = None).
Proof.
  intros Hcell. split_and!.
  - by apply search_out_of_bounds.
  - intros o [_|mx my s log sorted Hcell' _ _]; [done|congruence].
  - intros pose' o' [Hcell'|mx my s log sorted Hcell' Hd _]; [done|]. simpl.
    intros [?|Hin]; [done|].
    apply discover_search_loop in Hd as [_ ->].
    unfold start_cell in Hin. destruct (nearestCell _ _ _); simpl in Hin.
    + by apply elem_of_nil in Hin.
    + apply list_elem_of_singleton in Hin. done.
Qed.

(** A pose to the left of the grid. *)
Lemma searchFrom_out_of_bounds_witness :
  @searchFrom flat_tf2 x86_64_cast island_search outside_pose
    (mkOutcome [] island_search [RobotOutOfBounds] None) ∧
  (∀ o, @searchFrom flat_tf2 x86_64_cast island_search outside_pose o →
        o = mkOutcome [] island_search [RobotOutOfBounds] None) ∧
  (∀ pose' o', @searchFrom flat_tf2 x86_64_cast island_search pose' o' →
     (search o' = None ∨ RobotOutOfBounds ∈ logged o') →
     @pose_cell x86_64_cast island_search pose' = None).
Proof.
  apply (@searchFrom_out_of_bounds flat_tf2 x86_64_cast island_search outside_pose).
  by vm_compute.
Defined.

(** C8.  For a pose that maps to a cell of the grid from which
    [nearestCell] finds no free cell, [searchFrom] does not fail: the
    grid-wide search is seeded at the pose cell, which is marked visited,
    runs until its queue is empty, and the call returns, having logged the
    warning and nothing else. *)
Theorem searchFrom_no_clear_cell {tf : Tf2} {uc : UnsignedCast} fs pose mx my :
  pose_cell fs pose = Some (mx, my) →
  nearestCell (getIndex (costmap_ fs) mx my) FREE_SPACE (costmap_ fs) = None →
  ∃ s,
    search_loop (S (S (size_x (costmap_ fs) * size_y (costmap_ fs))))
      (cache_costmap fs) pose
      (initial_search (cache_costmap fs) (getIndex (costmap_ fs) mx my)) = Some s ∧
    bfs s = [] ∧
    visited_flag s !! getIndex (costmap_ fs) mx my = Some true ∧
    (∃ o, searchFrom fs pose o) ∧
    (∀ o, searchFrom fs pose o →
          search o = Some s ∧ logged o = [NoClearCell] ∧ self o = cache_costmap fs).
Proof.
  intros Hcell Hnone.
  assert (Hstart : start_cell fs mx my = (getIndex (costmap_ fs) mx my, [NoClearCell]))
    by (unfold start_cell; by rewrite Hnone).
  destruct (discover_total fs pose mx my) as [[s log] Hd].
  pose proof (discover_search_loop fs pose mx my s log Hd) as [Hs Hlog].
  rewrite Hstart in Hs, Hlog. cbn [fst snd] in Hs, Hlog. subst log.
  apply worldToMap_bounds in Hcell as Hb. destruct Hb as [Hmx Hmy].
  pose proof (getIndex_lt (costmap_ fs) mx my Hmx Hmy) as Hpos.
  exists s. split_and!.
  - done.
  - by eapply search_loop_drained.
  - assert (Hv : flag_at (visited_flag s) (getIndex (costmap_ fs) mx my) = true).
    { eapply search_loop_visited; [|exact Hs]. cbn [initial_search visited_flag].
      rewrite flag_at_insert. destruct (decide _) as [|[]]; [done|].
      split; [done|]. rewrite length_replicate. exact Hpos. }
    apply flag_at_lookup; [by apply flag_at_true_lt|done].
  - apply searchFrom_total.
  - intros o [Hcell'|mx' my' s' log' sorted Hcell' Hd' _]; [congruence|].
    simpl. assert (mx' = mx ∧ my' = my) as [-> ->] by (split; congruence).
    rewrite Hd in Hd'. by injection Hd' as <- <-.
Qed.

(** The grid without a free cell. *)
Lemma searchFrom_no_clear_cell_witness :
  ∃ s,
    @search_loop flat_tf2
      (S (S (size_x (costmap_ walled_search) * size_y (costmap_ walled_search))))
      (cache_costmap walled_search) centre_pose
      (initial_search (cache_costmap walled_search)
         (getIndex (costmap_ walled_search) 2 1)) = Some s ∧
    bfs s = [] ∧
    visited_flag s !! getIndex (costmap_ walled_search) 2 1 = Some true ∧
    (∃ o, @searchFrom flat_tf2 x86_64_cast walled_search centre_pose o) ∧
    (∀ o, @searchFrom flat_tf2 x86_64_cast walled_search centre_pose o →
          search o = Some s ∧ logged o = [NoClearCell] ∧
          self o = cache_costmap walled_search).
Proof.
  apply (@searchFrom_no_clear_cell flat_tf2 x86_64_cast walled_search centre_pose 2 1).
  - by vm_compute.
  - by vm_compute.
Defined.

(** C9.  Given a flag array that covers the grid, the builder returns a
    frontier with [size = points.size () + 1].  The points are those of the
    cells pushed, in order, and no cell is pushed twice; when the seed is
    flagged at the call (as [searchFrom] does before it calls the builder)
    the seed is not among them: it is counted in [size] and not pushed. *)
Theorem buildNewFrontier_size {tf : Tf2} fs seed pose (ff : list bool) :
  size_x (costmap_ fs) * size_y (costmap_ fs) ≤ length ff →
  ∃ b, buildNewFrontier fs seed pose ff = Some b ∧
    Frontier.size (built_frontier b) = length (Frontier.points (built_frontier b)) + 1 ∧
    Frontier.points (built_frontier b) = cell_point (costmap_ fs) <$> built_cells b ∧
    NoDup (built_cells b) ∧
    (ff !! seed = Some true → seed ∉ built_cells b).
Proof.
  intros Hlen.
  destruct (buildNewFrontier_total fs seed pose ff Hlen) as [b Hb].
  exists b. split; [done|].
  destruct (buildNewFrontier_ok fs seed pose ff b Hlen Hb).
  split_and!; [|done..|].
  - rewrite ok_size0, ok_points0, length_fmap. lia.
  - intros Hseed Hin. rewrite Forall_forall in ok_fresh0.
    destruct (ok_fresh0 seed Hin) as [_ Hf].
    unfold flag_at in Hf. by rewrite Hseed in Hf.
Qed.

(** One of the two mirrored regions. *)
Lemma buildNewFrontier_size_witness :
  ∃ b, @buildNewFrontier flat_tf2 (cache_costmap two_bays_search) 5 centre_pose
         (<[5:=true]> (replicate 15 false)) = Some b ∧
    Frontier.size (built_frontier b) = length (Frontier.points (built_frontier b)) + 1 ∧
    Frontier.points (built_frontier b) =
      cell_point (costmap_ (cache_costmap two_bays_search)) <$> built_cells b ∧
    NoDup (built_cells b) ∧
    (<[5:=true]> (replicate 15 false) !! 5 = Some true → 5 ∉ built_cells b).
Proof.
  apply (@buildNewFrontier_size flat_tf2 (cache_costmap two_bays_search) 5 centre_pose).
  vm_compute. lia.
Defined.

(** C10.  In one call of [searchFrom] the regions are pairwise disjoint:
    over all regions built, the cells that triggered a region and the
    cells pushed into [points] are all different, so that a cell is pushed
    for at most one frontier and at most once.  Each of them is flagged
    when the search ends, the points of each region are the coordinates of
    the cells pushed for it, and the frontiers put on the result list are
    those of the regions that meet the minimum size.  A flagged cell is
    never a new frontier cell. *)
Theorem searchFrom_regions_disjoint {tf : Tf2} {uc : UnsignedCast} fs pose o :
  searchFrom fs pose o →
  match search o with
  | Some s =>
      NoDup (claimed (regions s)) ∧
      Forall (λ c, flag_at (frontier_flag s) c = true) (claimed (regions s)) ∧
      Forall (λ r, Frontier.points (built_frontier r.2) =
                   cell_point (costmap_ fs) <$> built_cells r.2) (regions s) ∧
      frontier_list s = accepted fs (regions s)
  | None => returned o = []
  end ∧
  (∀ idx ff, flag_at ff idx = true → isNewFrontierCell (self o) idx ff = false).
Proof.
  intros Ho. split.
  - destruct (search o) as [s|] eqn:Hs.
    + destruct (searchFrom_search_inv fs pose o s Ho Hs) as [[] _].
      split_and!; [done..| |by rewrite sinv_list0, accepted_cache_costmap].
      eapply Forall_impl; [exact sinv_regions0|].
      intros r (ff & _ & _ & []). done.
    + destruct Ho; [done|discriminate].
  - intros idx ff Hflag.
    destruct (isNewFrontierCell (self o) idx ff) eqn:Hnew; [|done].
    apply isNewFrontierCell_unflagged in Hnew. congruence.
Qed.

(** The search of the grid with two mirrored regions. *)
Lemma searchFrom_regions_disjoint_witness :
  match search two_bays_outcome with
  | Some s =>
      NoDup (claimed (regions s)) ∧
      Forall (λ c, flag_at (frontier_flag s) c = true) (claimed (regions s)) ∧
      Forall (λ r, Frontier.points (built_frontier r.2) =
                   cell_point (costmap_ two_bays_search) <$> built_cells r.2)
             (regions s) ∧
      frontier_list s = accepted two_bays_search (regions s)
  | None => returned two_bays_outcome = []
  end ∧
  (∀ idx ff, flag_at ff idx = true →
             isNewFrontierCell (self two_bays_outcome) idx ff = false).
Proof.
  apply (@searchFrom_regions_disjoint flat_tf2 x86_64_cast two_bays_search centre_pose).
  apply two_bays_outcome_ok.
Defined.

(** * Further properties *)

(** Every call of [searchFrom] returns: the grid-wide search and every
    region it grows come to an end, and [std::sort] has a result. *)
Theorem searchFrom_returns {tf : Tf2} {uc : UnsignedCast} fs pose : ∃ o, searchFrom fs pose o.
Proof. apply searchFrom_total. Qed.

(** The closest point a region records is the point of a cell pushed into
    [points], never that of the seed: for a seed that is flagged when the
    builder is called (as [searchFrom] does), either nothing was recorded,
    [min_distance] is infinite and [middle] is the default point, or
    [middle] is the coordinate of a pushed cell other than the seed and
    [min_distance] its distance to the reference pose. *)
Theorem buildNewFrontier_closest {tf : Tf2} fs seed pose (ff : list bool) :
  size_x (costmap_ fs) * size_y (costmap_ fs) ≤ length ff →
  ff !! seed = Some true →
  ∃ b, buildNewFrontier fs seed pose ff = Some b ∧
       (seed ∉ built_cells b) ∧
       closest_recorded (costmap_ fs) pose (built_frontier b) (built_cells b).
Proof.
  intros Hlen Hseed.
  destruct (buildNewFrontier_total fs seed pose ff Hlen) as [b Hb].
  exists b. split; [done|].
  destruct (buildNewFrontier_ok fs seed pose ff b Hlen Hb).
  split; [|done].
  intros Hin. rewrite Forall_forall in ok_fresh0.
  destruct (ok_fresh0 seed Hin) as [_ Hf].
  unfold flag_at in Hf. by rewrite Hseed in Hf.
Qed.

(** One of the two mirrored regions: the pushed cell is recorded, the seed,
    which is closer to the pose, is not. *)
Lemma buildNewFrontier_closest_witness :
  ∃ b, @buildNewFrontier flat_tf2 (cache_costmap two_bays_search) 5 centre_pose
         (<[5:=true]> (replicate 15 false)) = Some b ∧
       (5 ∉ built_cells b) ∧
       closest_recorded (costmap_ (cache_costmap two_bays_search)) centre_pose
         (built_frontier b) (built_cells b).
Proof.
  apply (@buildNewFrontier_closest flat_tf2 (cache_costmap two_bays_search) 5 centre_pose).
  - vm_compute. lia.
  - reflexivity.
Defined.

(** A search repeated on the same grid from the same pose runs the same
    grid-wide search, logs the same and leaves the searcher as the first
    call left it; when the costs can be sorted the two results hold the
    same frontiers, up to the order of those of equal cost. *)
Theorem searchFrom_again {tf : Tf2} {uc : UnsignedCast} fs pose o o' :
  searchFrom fs pose o → searchFrom (self o) pose o' →
  search o' = search o ∧ logged o' = logged o ∧ self o' = self o ∧
  (costs_ordered o → returned o ≡ₚ returned o').
Proof.
  intros [Hcell|mx my s log sorted Hcell Hd Hsort]; simpl.
  - intros [_|mx my s log sorted Hcell' _ _]; [done|congruence].
  - intros [Hcell'|mx' my' s' log' sorted' Hcell' Hd' Hsort']; simpl.
    + unfold pose_cell in *. simpl in Hcell'. congruence.
    + assert (mx' = mx ∧ my' = my) as [-> ->].
      { unfold pose_cell in *. simpl in Hcell'. split; congruence. }
      change (discover (cache_costmap fs) pose mx my)
        with (discover fs pose mx my) in Hd'.
      rewrite Hd in Hd'. injection Hd' as <- <-.
      split_and!; [done..|].
      unfold costs_ordered. simpl. intros Hswo.
      destruct Hsort as [Hp _], Hsort' as [Hp' _].
      by rewrite <- Hp, <- Hp'.
Qed.

(** The search of the grid with two mirrored regions, run twice. *)
Lemma searchFrom_again_witness :
  search (@outcome_of flat_tf2 x86_64_cast (self two_bays_outcome) centre_pose)
    = search two_bays_outcome ∧
  logged (@outcome_of flat_tf2 x86_64_cast (self two_bays_outcome) centre_pose)
    = logged two_bays_outcome ∧
  self (@outcome_of flat_tf2 x86_64_cast (self two_bays_outcome) centre_pose)
    = self two_bays_outcome ∧
  (costs_ordered two_bays_outcome →
   returned two_bays_outcome
     ≡ₚ returned (@outcome_of flat_tf2 x86_64_cast (self two_bays_outcome) centre_pose)).
Proof.
  apply (@searchFrom_again flat_tf2 x86_64_cast two_bays_search centre_pose).
  - apply two_bays_outcome_ok.
  - apply outcome_of_searchFrom.
Defined.

(** When every frontier of a list has a cost that is a number, the
    comparison of costs is a strict weak ordering of the list, as
    [std::sort] requires. *)
Theorem cost_lt_strict_weak_ordering l :
  Forall cost_is_number l → strict_weak_ordering cost_lt l.
Proof.
  apply cost_lt_ordering.
Qed.

(** The two frontiers of the grid with two mirrored regions. *)
Lemma cost_lt_strict_weak_ordering_witness :
  strict_weak_ordering cost_lt (returned two_bays_outcome).
Proof.
  apply (cost_lt_strict_weak_ordering (returned two_bays_outcome)).
  vm_compute. repeat constructor.
Defined.

(** A region is made of frontier cells that hang together: every cell
    [buildNewFrontier] pushes is an unknown cell with a free 4-connected
    neighbour, and is reached from the seed by steps to 8-connected
    neighbours that stay inside the region. *)
Theorem buildNewFrontier_connected {tf : Tf2} fs seed pose (ff : list bool) :
  size_x (costmap_ fs) * size_y (costmap_ fs) ≤ length ff →
  ∃ b, buildNewFrontier fs seed pose ff = Some b ∧
    Forall (frontier_cell fs) (built_cells b) ∧
    Forall (connected8 (costmap_ fs) (seed :: built_cells b) seed) (built_cells b).
Proof.
  intros Hlen.
  destruct (buildNewFrontier_total fs seed pose ff Hlen) as [b Hb].
  exists b. split; [done|].
  by destruct (buildNewFrontier_shape fs seed pose ff b Hb).
Qed.

Lemma buildNewFrontier_connected_witness :
  ∃ b, @buildNewFrontier flat_tf2 (cache_costmap capped_search) 5 corner_pose
         (<[5:=true]> (replicate 12 false)) = Some b ∧
    Forall (frontier_cell (cache_costmap capped_search)) (built_cells b) ∧
    Forall (connected8 (costmap_ (cache_costmap capped_search))
              (5 :: built_cells b) 5) (built_cells b).
Proof.
  apply (@buildNewFrontier_connected flat_tf2 (cache_costmap capped_search) 5
           corner_pose).
  vm_compute. lia.
Defined.

(** Unless the size test ended its growth, a region is complete: every
    frontier cell among the 8-connected neighbours of the seed or of a
    pushed cell was flagged before the call or has been pushed.  The size
    test is made after a cell is pushed, never on the seed alone: it did
    not end the growth exactly when the region is the seed alone or the
    test fails at the final size, and so it never does when
    [max_frontier_size] is not positive. *)
Theorem buildNewFrontier_complete {tf : Tf2} fs seed pose (ff : list bool) :
  size_x (costmap_ fs) * size_y (costmap_ fs) ≤ length ff →
  ∃ b, buildNewFrontier fs seed pose ff = Some b ∧
    (stopped_by_size fs (built_frontier b) = false →
     ∀ c nbr, c ∈ seed :: built_cells b → nbr ∈ nhood8 c (costmap_ fs) →
       frontier_cell fs nbr → flag_at ff nbr = true ∨ nbr ∈ built_cells b) ∧
    (stopped_by_size fs (built_frontier b) = false ↔
     Frontier.size (built_frontier b) = 1 ∨
     max_size_reached fs (Frontier.size (built_frontier b)) = false) ∧
    ((0 <? max_frontier_size_ fs)%float = false →
     stopped_by_size fs (built_frontier b) = false).
Proof.
  intros Hlen.
  destruct (buildNewFrontier_total fs seed pose ff Hlen) as [b Hb].
  exists b. split_and!; [done| | |apply stopped_by_size_unset].
  - intros Hun c nbr Hc Hnbr Hcell.
    pose proof (buildNewFrontier_scanned fs seed pose ff b Hlen Hb Hun c Hc
                  nbr Hnbr) as Hscan.
    apply (buildNewFrontier_flag_at fs seed pose ff b nbr Hlen Hb).
    destruct (flag_at (built_flags b) nbr) eqn:Hf; [done|].
    rewrite <- Hscan. by apply isNewFrontierCell_frontier_cell.
  - apply stopped_by_size_false.
    rewrite (ok_size _ _ _ _ _ (buildNewFrontier_ok fs seed pose ff b Hlen Hb)).
    lia.
Qed.

(** The region of one unknown cell, built with a maximum frontier size of
    half a cell: the size test holds at size 1 already, and is never
    made. *)
Lemma buildNewFrontier_complete_witness :
  ∃ b, @buildNewFrontier flat_tf2 (cache_costmap capped_island_search) 4 corner_pose
         (<[4:=true]> (replicate 9 false)) = Some b ∧
    Frontier.size (built_frontier b) = 1 ∧
    max_size_reached (cache_costmap capped_island_search)
      (Frontier.size (built_frontier b)) = true ∧
    stopped_by_size (cache_costmap capped_island_search) (built_frontier b) = false ∧
    (∀ c nbr, c ∈ 4 :: built_cells b →
       nbr ∈ nhood8 c (costmap_ (cache_costmap capped_island_search)) →
       frontier_cell (cache_costmap capped_island_search) nbr →
       flag_at (<[4:=true]> (replicate 9 false)) nbr = true ∨ nbr ∈ built_cells b).
Proof.
  destruct (@buildNewFrontier_complete flat_tf2 (cache_costmap capped_island_search) 4
              corner_pose (<[4:=true]> (replicate 9 false)))
    as (b & Hb & Hcomplete & _ & _).
  { vm_compute. lia. }
  exists b. split; [exact Hb|].
  assert (Hsize : Frontier.size (built_frontier b) = 1).
  { vm_compute in Hb. by injection Hb as <-. }
  assert (Hun : stopped_by_size (cache_costmap capped_island_search)
                  (built_frontier b) = false).
  { unfold stopped_by_size. by rewrite Hsize. }
  split; [exact Hsize|]. split; [by rewrite Hsize|]. split; [exact Hun|].
  exact (Hcomplete Hun).
Defined.

(** [min_distance] is a lower bound for the cells pushed: no cell
    pushed into [points] is strictly closer to the reference pose than the
    [min_distance] of the region. *)
Theorem buildNewFrontier_min_distance {tf : Tf2} fs seed pose (ff : list bool) :
  size_x (costmap_ fs) * size_y (costmap_ fs) ≤ length ff →
  ∃ b, buildNewFrontier fs seed pose ff = Some b ∧
    Forall (λ c, (cell_distance (costmap_ fs) pose c
                  <? Frontier.min_distance (built_frontier b))%float = false)
           (built_cells b).
Proof.
  intros Hlen.
  destruct (buildNewFrontier_total fs seed pose ff Hlen) as [b Hb].
  exists b. split; [done|]. by eapply buildNewFrontier_nearest.
Qed.

Lemma buildNewFrontier_min_distance_witness :
  ∃ b, @buildNewFrontier flat_tf2 (cache_costmap capped_search) 5 corner_pose
         (<[5:=true]> (replicate 12 false)) = Some b ∧
    Forall (λ c, (cell_distance (costmap_ (cache_costmap capped_search)) corner_pose c
                  <? Frontier.min_distance (built_frontier b))%float = false)
           (built_cells b).
Proof.
  apply (@buildNewFrontier_min_distance flat_tf2 (cache_costmap capped_search) 5
           corner_pose).
  vm_compute. lia.
Defined.

(** [buildNewFrontier] writes the flag array only to set the flags of
    the cells it pushes: the array keeps its length, a flag is set after
    the call exactly when it was set before or its cell was pushed, and
    every pushed cell was a cell of the grid not flagged before. *)
Theorem buildNewFrontier_flags {tf : Tf2} fs seed pose (ff : list bool) :
  size_x (costmap_ fs) * size_y (costmap_ fs) ≤ length ff →
  ∃ b, buildNewFrontier fs seed pose ff = Some b ∧
    length (built_flags b) = length ff ∧
    (∀ j, flag_at (built_flags b) j = true ↔
          flag_at ff j = true ∨ j ∈ built_cells b) ∧
    Forall (λ c, c < size_x (costmap_ fs) * size_y (costmap_ fs)
                 ∧ flag_at ff c = false) (built_cells b).
Proof.
  intros Hlen.
  destruct (buildNewFrontier_total fs seed pose ff Hlen) as [b Hb].
  exists b. split_and!; [done|by eapply built_flags_length| |].
  - intros j. by eapply buildNewFrontier_flag_at.
  - by destruct (buildNewFrontier_ok fs seed pose ff b Hlen Hb).
Qed.

Lemma buildNewFrontier_flags_witness :
  ∃ b, @buildNewFrontier flat_tf2 (cache_costmap two_bays_search) 5 centre_pose
         (<[5:=true]> (replicate 15 false)) = Some b ∧
    length (built_flags b) = length (<[5:=true]> (replicate 15 false)) ∧
    (∀ j, flag_at (built_flags b) j = true ↔
          flag_at (<[5:=true]> (replicate 15 false)) j = true ∨ j ∈ built_cells b) ∧
    Forall (λ c, c < size_x (costmap_ (cache_costmap two_bays_search))
                     * size_y (costmap_ (cache_costmap two_bays_search))
                 ∧ flag_at (<[5:=true]> (replicate 15 false)) c = false)
           (built_cells b).
Proof.
  apply (@buildNewFrontier_flags flat_tf2 (cache_costmap two_bays_search) 5
           centre_pose).
  vm_compute. lia.
Defined.

(** The frontier handed back has the world coordinate of the seed as
    its [initial], and its [centroid] equal to its [middle]: the mean of
    the points is computed and then overwritten.  Its heading is the
    rotation about the vertical axis by the direction from the reference
    position to [middle], and its [angular_distance], an absolute value, is
    never negative. *)
Theorem buildNewFrontier_heading {tf : Tf2} fs seed pose (ff : list bool) :
  size_x (costmap_ fs) * size_y (costmap_ fs) ≤ length ff →
  ∃ b, buildNewFrontier fs seed pose ff = Some b ∧
    Frontier.initial (built_frontier b) = cell_point (costmap_ fs) seed ∧
    Frontier.centroid (built_frontier b) = Frontier.middle (built_frontier b) ∧
    Frontier.orientation (built_frontier b) =
      quaternion_about_z
        (atan2 (Point.y (Frontier.middle (built_frontier b))
                - Point.y (Pose.position pose))%float
               (Point.x (Frontier.middle (built_frontier b))
                - Point.x (Pose.position pose))%float) ∧
    Frontier.angular_distance (built_frontier b) =
      PrimFloat.abs (angleShortestPath (Pose.orientation pose)
                       (Frontier.orientation (built_frontier b))) ∧
    (Frontier.angular_distance (built_frontier b) <? 0)%float = false.
Proof.
  intros Hlen.
  destruct (buildNewFrontier_total fs seed pose ff Hlen) as [b Hb].
  exists b. split; [done|].
  split; [by destruct (buildNewFrontier_ok fs seed pose ff b Hlen Hb)|].
  apply buildNewFrontier_grown in Hb as (g & _ & ->). simpl.
  split_and!; [done..|]. apply abs_not_negative.
Qed.

Lemma buildNewFrontier_heading_witness :
  ∃ b, @buildNewFrontier flat_tf2 (cache_costmap two_bays_search) 5 centre_pose
         (<[5:=true]> (replicate 15 false)) = Some b ∧
    Frontier.initial (built_frontier b)
      = cell_point (costmap_ (cache_costmap two_bays_search)) 5 ∧
    Frontier.centroid (built_frontier b) = Frontier.middle (built_frontier b) ∧
    Frontier.orientation (built_frontier b) =
      @quaternion_about_z flat_tf2
        (@atan2 flat_tf2
               (Point.y (Frontier.middle (built_frontier b))
                - Point.y (Pose.position centre_pose))%float
               (Point.x (Frontier.middle (built_frontier b))
                - Point.x (Pose.position centre_pose))%float) ∧
    Frontier.angular_distance (built_frontier b) =
      PrimFloat.abs (@angleShortestPath flat_tf2 (Pose.orientation centre_pose)
                       (Frontier.orientation (built_frontier b))) ∧
    (Frontier.angular_distance (built_frontier b) <? 0)%float = false.
Proof.
  apply (@buildNewFrontier_heading flat_tf2 (cache_costmap two_bays_search) 5
           centre_pose).
  vm_compute. lia.
Defined.

(** Every region a search builds is made of frontier cells of the
    grid: the cell that triggered it and every cell pushed are unknown
    cells of the grid with a free 4-connected neighbour, and every cell
    pushed is reached from the trigger by steps to 8-connected neighbours
    inside the region. *)
Theorem searchFrom_frontier_cells {tf : Tf2} {uc : UnsignedCast} fs pose o :
  searchFrom fs pose o →
  match search o with
  | Some s =>
      Forall (λ c, c < size_x (costmap_ fs) * size_y (costmap_ fs)
                   ∧ frontier_cell (cache_costmap fs) c) (claimed (regions s)) ∧
      Forall (λ r, Forall (connected8 (costmap_ fs) (region_cells r) r.1)
                          (built_cells r.2)) (regions s)
  | None => returned o = []
  end.
Proof.
  intros Ho. destruct (search o) as [s|] eqn:Hs.
  - by destruct (searchFrom_shape fs pose o s Ho Hs).
  - destruct Ho; [done|discriminate].
Qed.

Lemma searchFrom_frontier_cells_witness :
  match search two_bays_outcome with
  | Some s =>
      Forall (λ c, c < size_x (costmap_ two_bays_search)
                       * size_y (costmap_ two_bays_search)
                   ∧ frontier_cell (cache_costmap two_bays_search) c)
             (claimed (regions s)) ∧
      Forall (λ r, Forall (connected8 (costmap_ two_bays_search) (region_cells r) r.1)
                          (built_cells r.2)) (regions s)
  | None => returned two_bays_outcome = []
  end.
Proof.
  apply (@searchFrom_frontier_cells flat_tf2 x86_64_cast two_bays_search centre_pose).
  apply two_bays_outcome_ok.
Defined.

(** When the search ends, the frontier flags mark exactly the cells
    of the regions built: a flag is set if and only if its cell triggered a
    region or was pushed into one. *)
Theorem searchFrom_flags {tf : Tf2} {uc : UnsignedCast} fs pose o :
  searchFrom fs pose o →
  match search o with
  | Some s =>
      length (frontier_flag s) = size_x (costmap_ fs) * size_y (costmap_ fs) ∧
      ∀ c, flag_at (frontier_flag s) c = true ↔ c ∈ claimed (regions s)
  | None => returned o = []
  end.
Proof.
  intros Ho. destruct (search o) as [s|] eqn:Hs.
  - destruct (searchFrom_shape fs pose o s Ho Hs) as [Hinv Hflags Hcells _ _].
    split; [apply (sinv_length _ _ _ Hinv)|].
    intros c. rewrite Hflags, flag_at_set_flags, flag_at_replicate, length_replicate.
    rewrite Forall_forall in Hcells. split.
    + intros [?|[? _]]; done.
    + intros Hc. right. split; [done|]. by destruct (Hcells c Hc).
  - destruct Ho; [done|discriminate].
Qed.

Lemma searchFrom_flags_witness :
  match search two_bays_outcome with
  | Some s =>
      length (frontier_flag s)
        = size_x (costmap_ two_bays_search) * size_y (costmap_ two_bays_search) ∧
      ∀ c, flag_at (frontier_flag s) c = true ↔ c ∈ claimed (regions s)
  | None => returned two_bays_outcome = []
  end.
Proof.
  apply (@searchFrom_flags flat_tf2 x86_64_cast two_bays_search centre_pose).
  apply two_bays_outcome_ok.
Defined.

(** Regions whose growth the size test did not end are closed under
    8-connected frontier neighbours: a frontier cell next to a cell of such
    a region belongs to that region or to one built before it, never to
    one built after it.  The size test did not end the growth of a region
    exactly when the region is its seed alone, on which the test is never
    made, or the test fails at its final size; when [max_frontier_size] is
    not positive this is so of every region. *)
Theorem searchFrom_regions_closed {tf : Tf2} {uc : UnsignedCast} fs pose o :
  searchFrom fs pose o →
  match search o with
  | Some s =>
      (∀ rs1 r rs2, regions s = rs1 ++ r :: rs2 → uncapped fs r →
         ∀ c nbr, c ∈ region_cells r → nbr ∈ nhood8 c (costmap_ fs) →
           frontier_cell (cache_costmap fs) nbr →
           (nbr ∈ claimed rs1 ∨ nbr ∈ region_cells r) ∧ nbr ∉ claimed rs2) ∧
      Forall (λ r, uncapped fs r ↔
                   Frontier.size (built_frontier r.2) = 1 ∨
                   max_size_reached fs (Frontier.size (built_frontier r.2)) = false)
             (regions s) ∧
      ((0 <? max_frontier_size_ fs)%float = false →
       Forall (uncapped fs) (regions s))
  | None => returned o = []
  end.
Proof.
  intros Ho. destruct (search o) as [s|] eqn:Hs.
  - destruct (searchFrom_shape fs pose o s Ho Hs) as [Hinv _ _ _ Hclosed].
    split_and!.
    + intros rs1 r rs2 Hsplit Hun c nbr Hc Hnbr Hcell.
      rewrite Hsplit in Hclosed.
      pose proof (regions_closed_split _ _ _ _ _ Hclosed Hun c nbr Hc Hnbr Hcell)
        as Hin.
      simpl in Hin. apply elem_of_app in Hin.
      split; [done|].
      pose proof (sinv_nodup _ _ _ Hinv) as Hnd.
      rewrite Hsplit, claimed_app, claimed_cons in Hnd.
      apply NoDup_app in Hnd as (_ & Hdisj & Hnd).
      apply NoDup_app in Hnd as (_ & Hdisj' & _).
      intros Hin2. destruct Hin as [Hin|Hin].
      * apply (Hdisj nbr Hin). apply elem_of_app. by right.
      * by apply (Hdisj' nbr Hin).
    + eapply Forall_impl; [exact (sinv_regions _ _ _ Hinv)|].
      intros r (ff & _ & _ & Hok). apply stopped_by_size_false.
      rewrite (ok_size _ _ _ _ _ Hok). lia.
    + intros Hmax. apply Forall_forall. intros r _.
      by apply stopped_by_size_unset.
  - destruct Ho; [done|discriminate].
Qed.

(** The diagonal run of three unknown cells, searched with a maximum
    frontier size of half a cell: the first region is stopped at two
    cells, the third cell is a region of its own, of the seed alone. *)
Lemma searchFrom_regions_closed_witness :
  match search ridge_outcome with
  | Some s =>
      (∀ rs1 r rs2, regions s = rs1 ++ r :: rs2 → uncapped ridge_search r →
         ∀ c nbr, c ∈ region_cells r → nbr ∈ nhood8 c (costmap_ ridge_search) →
           frontier_cell (cache_costmap ridge_search) nbr →
           (nbr ∈ claimed rs1 ∨ nbr ∈ region_cells r) ∧ nbr ∉ claimed rs2) ∧
      Forall (λ r, uncapped ridge_search r ↔
                   Frontier.size (built_frontier r.2) = 1 ∨
                   max_size_reached ridge_search
                     (Frontier.size (built_frontier r.2)) = false)
             (regions s) ∧
      ((0 <? max_frontier_size_ ridge_search)%float = false →
       Forall (uncapped ridge_search) (regions s))
  | None => returned ridge_outcome = []
  end.
Proof.
  apply (@searchFrom_regions_closed flat_tf2 x86_64_cast ridge_search corner_pose).
  apply ridge_outcome_ok.
Defined.

(** The cells the search marks visited are cells of the grid, and
    exactly those reached from its start cell by steps to 4-connected
    neighbours along which the cell value does not increase; when a clear
    cell was found to start from (nothing is logged), all of them are free
    cells. *)
Theorem searchFrom_visited {tf : Tf2} {uc : UnsignedCast} fs pose o :
  searchFrom fs pose o →
  match search o with
  | Some s =>
      ∃ mx my, pose_cell fs pose = Some (mx, my) ∧
        length (visited_flag s) = size_x (costmap_ fs) * size_y (costmap_ fs) ∧
        (∀ c, flag_at (visited_flag s) c = true ↔
              descends (cache_costmap fs) (start_cell fs mx my).1 c) ∧
        (logged o = [] →
         ∀ c, flag_at (visited_flag s) c = true →
              cell_at (getCharMap (costmap_ fs)) c = FREE_SPACE)
  | None => pose_cell fs pose = None
  end.
Proof.
  intros Ho. destruct (search o) as [s|] eqn:Hs.
  - destruct (searchFrom_flood fs pose o s Ho Hs)
      as (mx & my & Hcell & [Hvl Hfl Hq Hsound Hpend _] & Hdrained & Hlog).
    exists mx, my. split; [done|]. split; [exact Hvl|].
    assert (Hreach : ∀ c, descends (cache_costmap fs) (start_cell fs mx my).1 c →
                          flag_at (visited_flag s) c = true).
    { destruct (searchFrom_searched fs pose o s Ho Hs)
        as (mx' & my' & Hcell' & Hd & _ & _).
      assert (mx' = mx ∧ my' = my) as [-> ->] by (split; congruence).
      apply discover_search_loop in Hd as [Hloop _].
      destruct (worldToMap_bounds _ _ _ _ _ Hcell) as [Hmx Hmy].
      pose proof (start_cell_on_grid fs mx my Hmx Hmy) as Hstart.
      induction 1 as [|a b _ IH Hb Hle].
      - eapply search_loop_visited; [|exact Hloop]. simpl.
        rewrite flag_at_insert. destruct (decide _) as [|[]]; [done|].
        split; [done|]. by rewrite length_replicate.
      - destruct (Hpend a IH) as [Hin|Hscan].
        + rewrite Hdrained in Hin. by apply elem_of_nil in Hin.
        + by apply (Hscan b Hb). }
    split.
    + intros c. split; [apply Hsound|apply Hreach].
    + intros Hnolog c Hc. apply Hsound in Hc.
      apply (descends_free (cache_costmap fs) (start_cell fs mx my).1); [|done].
      simpl. rewrite Hnolog in Hlog. unfold start_cell in *.
      destruct (nearestCell _ _ _) as [clear|] eqn:Hnear; [|done].
      simpl. by apply nearestCell_on_grid in Hnear as [_ ?].
  - destruct Ho; [done|discriminate].
Qed.

Lemma searchFrom_visited_witness :
  match search two_bays_outcome with
  | Some s =>
      ∃ mx my, @pose_cell x86_64_cast two_bays_search centre_pose = Some (mx, my) ∧
        length (visited_flag s)
          = size_x (costmap_ two_bays_search) * size_y (costmap_ two_bays_search) ∧
        (∀ c, flag_at (visited_flag s) c = true ↔
              descends (cache_costmap two_bays_search)
                (start_cell two_bays_search mx my).1 c) ∧
        (logged two_bays_outcome = [] →
         ∀ c, flag_at (visited_flag s) c = true →
              cell_at (getCharMap (costmap_ two_bays_search)) c = FREE_SPACE)
  | None => @pose_cell x86_64_cast two_bays_search centre_pose = None
  end.
Proof.
  apply (@searchFrom_visited flat_tf2 x86_64_cast two_bays_search centre_pose).
  apply two_bays_outcome_ok.
Defined.

(** The search misses no frontier cell next to the area it visits:
    when it ends, every frontier cell among the 4-connected neighbours of a
    visited cell was visited itself or belongs to a region; when a clear
    cell was found to start from (nothing is logged), it belongs to a
    region. *)
Theorem searchFrom_frontier_complete {tf : Tf2} {uc : UnsignedCast} fs pose o :
  searchFrom fs pose o →
  match search o with
  | Some s =>
      (∀ c nbr, flag_at (visited_flag s) c = true →
         nbr ∈ nhood4 c (costmap_ fs) → frontier_cell (cache_costmap fs) nbr →
         flag_at (visited_flag s) nbr = true ∨ nbr ∈ claimed (regions s)) ∧
      (logged o = [] →
       ∀ c nbr, flag_at (visited_flag s) c = true →
         nbr ∈ nhood4 c (costmap_ fs) → frontier_cell (cache_costmap fs) nbr →
         nbr ∈ claimed (regions s))
  | None => returned o = []
  end.
Proof.
  intros Ho. destruct (search o) as [s|] eqn:Hs.
  - destruct (searchFrom_flood fs pose o s Ho Hs)
      as (mx & my & Hcell & [Hvl Hfl Hq Hsound Hpend _] & Hdrained & Hlog).
    destruct (searchFrom_shape fs pose o s Ho Hs) as [_ Hflags _ _ _].
    assert (Hall : ∀ c nbr, flag_at (visited_flag s) c = true →
              nbr ∈ nhood4 c (costmap_ fs) → frontier_cell (cache_costmap fs) nbr →
              flag_at (visited_flag s) nbr = true ∨ nbr ∈ claimed (regions s)).
    { intros c nbr Hc Hnbr Hfc.
      destruct (Hpend c Hc) as [Hin|Hscan].
      { rewrite Hdrained in Hin. by apply elem_of_nil in Hin. }
      destruct (Hscan nbr Hnbr) as [_ [Hv|Hnew]]; [by left|]. right.
      destruct (flag_at (frontier_flag s) nbr) eqn:Hf.
      - rewrite Hflags in Hf. apply flag_at_set_flags in Hf as [Hf|[Hin _]]; [|done].
        by rewrite flag_at_replicate in Hf.
      - assert (isNewFrontierCell (cache_costmap fs) nbr (frontier_flag s) = true)
          by (by apply isNewFrontierCell_frontier_cell).
        congruence. }
    split; [done|].
    intros Hnolog c nbr Hc Hnbr Hfc.
    destruct (Hall c nbr Hc Hnbr Hfc) as [Hv|Hin]; [|done].
    apply Hsound in Hv.
    apply (descends_free (cache_costmap fs) (start_cell fs mx my).1) in Hv.
    + destruct Hfc as [Hu _]. rewrite Hu in Hv. done.
    + simpl. rewrite Hnolog in Hlog. unfold start_cell in *.
      destruct (nearestCell _ _ _) as [clear|] eqn:Hnear; [|done].
      simpl. by apply nearestCell_on_grid in Hnear as [_ ?].
  - destruct Ho; [done|discriminate].
Qed.

Lemma searchFrom_frontier_complete_witness :
  match search two_bays_outcome with
  | Some s =>
      (∀ c nbr, flag_at (visited_flag s) c = true →
         nbr ∈ nhood4 c (costmap_ two_bays_search) →
         frontier_cell (cache_costmap two_bays_search) nbr →
         flag_at (visited_flag s) nbr = true ∨ nbr ∈ claimed (regions s)) ∧
      (logged two_bays_outcome = [] →
       ∀ c nbr, flag_at (visited_flag s) c = true →
         nbr ∈ nhood4 c (costmap_ two_bays_search) →
         frontier_cell (cache_costmap two_bays_search) nbr →
         nbr ∈ claimed (regions s))
  | None => returned two_bays_outcome = []
  end.
Proof.
  apply (@searchFrom_frontier_complete flat_tf2 x86_64_cast two_bays_search centre_pose).
  apply two_bays_outcome_ok.
Defined.

(** Nothing to find: on a costmap without an unknown cell, or
    without a free cell, no region is built and the list returned is
    empty. *)
Theorem searchFrom_nothing_to_find {tf : Tf2} {uc : UnsignedCast} fs pose o :
  NO_INFORMATION ∉ charmap (costmap_ fs) ∨
  (length (charmap (costmap_ fs)) = size_x (costmap_ fs) * size_y (costmap_ fs) ∧
   FREE_SPACE ∉ charmap (costmap_ fs)) →
  searchFrom fs pose o →
  returned o = [] ∧
  match search o with
  | Some s => regions s = []
  | None => True
  end.
Proof.
  intros Hmap Ho. destruct (search o) as [s|] eqn:Hs.
  - destruct (searchFrom_shape fs pose o s Ho Hs) as [Hinv _ Hcells _ _].
    assert (Hnone : regions s = []).
    { destruct (regions s) as [|r rs]; [done|].
      rewrite claimed_cons in Hcells. apply Forall_app in Hcells as [Hr _].
      unfold region_cells in Hr. apply Forall_cons in Hr as [[_ Hfc] _].
      by apply (no_frontier_cell (cache_costmap fs)) in Hfc. }
    split; [|done].
    destruct (searchFrom_searched fs pose o s Ho Hs) as (_ & _ & _ & _ & Hsort & _).
    rewrite (sinv_list _ _ _ Hinv), Hnone in Hsort.
    by apply std_sort_nil in Hsort.
  - split; [|done]. destruct Ho; [done|discriminate].
Qed.

Lemma searchFrom_nothing_to_find_witness :
  returned (@outcome_of flat_tf2 x86_64_cast open_search corner_pose) = [] ∧
  match search (@outcome_of flat_tf2 x86_64_cast open_search corner_pose) with
  | Some s => regions s = []
  | None => True
  end.
Proof.
  apply (@searchFrom_nothing_to_find flat_tf2 x86_64_cast open_search corner_pose).
  - left. by_computation.
  - apply outcome_of_searchFrom.
Defined.

(** On a costmap without cells every pose is out of bounds: the call
    logs the error, returns the empty list and leaves the searcher
    untouched. *)
Theorem searchFrom_empty_costmap {tf : Tf2} {uc : UnsignedCast} fs pose o :
  size_x (costmap_ fs) * size_y (costmap_ fs) = 0 →
  searchFrom fs pose o →
  o = mkOutcome [] fs [RobotOutOfBounds] None.
Proof.
  intros Hsize [Hcell|mx my s log sorted Hcell _ _]; [done|].
  apply worldToMap_bounds in Hcell. nia.
Qed.

Lemma searchFrom_empty_costmap_witness :
  @outcome_of flat_tf2 x86_64_cast empty_search corner_pose
  = mkOutcome [] empty_search [RobotOutOfBounds] None.
Proof.
  apply (@searchFrom_empty_costmap flat_tf2 x86_64_cast empty_search corner_pose).
  - reflexivity.
  - apply outcome_of_searchFrom.
Defined.

(** A search does not read the cached view of the costmap that the
    searcher holds when it is called: whatever the constructor left in
    [map_], [size_x_] and [size_y_], the call runs the same search, logs
    the same and can return the same list; a call that gets past the
    bounds check leaves the view of the costmap in the searcher. *)
Theorem searchFrom_fresh {tf : Tf2} {uc : UnsignedCast} costmap potential_scale gain_scale
    orientation_scale min_frontier_size max_frontier_size
    (map0 map1 : list nat) (sx0 sy0 sx1 sy1 : nat) pose o :
  searchFrom (FrontierSearch_new costmap potential_scale gain_scale
                orientation_scale min_frontier_size max_frontier_size
                map0 sx0 sy0) pose o →
  ∃ o', searchFrom (FrontierSearch_new costmap potential_scale gain_scale
                      orientation_scale min_frontier_size max_frontier_size
                      map1 sx1 sy1) pose o' ∧
    returned o' = returned o ∧ logged o' = logged o ∧ search o' = search o ∧
    (search o ≠ None →
     self o' = self o ∧
     self o = FrontierSearch_new costmap potential_scale gain_scale
                orientation_scale min_frontier_size max_frontier_size
                (getCharMap costmap) (getSizeInCellsX costmap)
                (getSizeInCellsY costmap)).
Proof.
  intros [Hcell|mx my s log sorted Hcell Hd Hsort].
  - eexists. split; [by apply search_out_of_bounds|]. simpl. by split_and!.
  - exists (mkOutcome sorted
              (cache_costmap (FrontierSearch_new costmap potential_scale gain_scale
                 orientation_scale min_frontier_size max_frontier_size
                 map1 sx1 sy1)) log (Some s)).
    split; [|by split_and!].
    by eapply search_completed.
Qed.

Lemma searchFrom_fresh_witness :
  ∃ o', @searchFrom flat_tf2 x86_64_cast
          (FrontierSearch_new (costmap_ two_bays_search) 1 1 0 0.5 0 [7; 7] 1 2)
          centre_pose o' ∧
    returned o' = returned two_bays_outcome ∧
    logged o' = logged two_bays_outcome ∧
    search o' = search two_bays_outcome ∧
    (search two_bays_outcome ≠ None →
     self o' = self two_bays_outcome ∧
     self two_bays_outcome =
       FrontierSearch_new (costmap_ two_bays_search) 1 1 0 0.5 0
         (getCharMap (costmap_ two_bays_search))
         (getSizeInCellsX (costmap_ two_bays_search))
         (getSizeInCellsY (costmap_ two_bays_search))).
Proof.
  apply (@searchFrom_fresh flat_tf2 x86_64_cast (costmap_ two_bays_search) 1 1 0 0.5 0
           [] [7; 7] 0 0 1 2 centre_pose two_bays_outcome).
  apply two_bays_outcome_ok.
Defined.

(** The regions of a search share no cell, so their sizes add up to
    the number of cells they hold, which is at most the number of cells of
    the grid. *)
Theorem searchFrom_total_size {tf : Tf2} {uc : UnsignedCast} fs pose o :
  searchFrom fs pose o →
  match search o with
  | Some s =>
      total_size (regions s) = length (claimed (regions s)) ∧
      total_size (regions s) ≤ size_x (costmap_ fs) * size_y (costmap_ fs)
  | None => returned o = []
  end.
Proof.
  intros Ho. destruct (search o) as [s|] eqn:Hs.
  - destruct (searchFrom_shape fs pose o s Ho Hs) as [Hinv _ Hcells _ _].
    pose proof (total_size_claimed _ _ _ (sinv_regions _ _ _ Hinv)) as Htotal.
    split; [done|]. rewrite Htotal.
    apply NoDup_below_length; [apply (sinv_nodup _ _ _ Hinv)|].
    eapply Forall_impl; [exact Hcells|]. by intros c [? _].
  - destruct Ho; [done|discriminate].
Qed.

Lemma searchFrom_total_size_witness :
  match search two_bays_outcome with
  | Some s =>
      total_size (regions s) = length (claimed (regions s)) ∧
      total_size (regions s)
        ≤ size_x (costmap_ two_bays_search) * size_y (costmap_ two_bays_search)
  | None => returned two_bays_outcome = []
  end.
Proof.
  apply (@searchFrom_total_size flat_tf2 x86_64_cast two_bays_search centre_pose).
  apply two_bays_outcome_ok.
Defined.

(** Every region a search builds touches the area it visits: the
    cell that triggered the region is a 4-connected neighbour of a visited
    cell, a free one when a clear cell was found to start from (nothing is
    logged). *)
Theorem searchFrom_regions_reachable {tf : Tf2} {uc : UnsignedCast} fs pose o :
  searchFrom fs pose o →
  match search o with
  | Some s =>
      Forall (λ r, ∃ c, flag_at (visited_flag s) c = true ∧
                        (logged o = [] →
                         cell_at (getCharMap (costmap_ fs)) c = FREE_SPACE) ∧
                        r.1 ∈ nhood4 c (costmap_ fs)) (regions s)
  | None => returned o = []
  end.
Proof.
  intros Ho. destruct (search o) as [s|] eqn:Hs.
  - destruct (searchFrom_flood fs pose o s Ho Hs)
      as (mx & my & _ & Hflood & _ & _).
    eapply Forall_impl; [exact (flood_seeds _ _ _ Hflood)|].
    intros r (c & Hc & Hin). exists c. split_and!; [done| |done].
    intros Hnolog. by eapply searchFrom_visited_free.
  - destruct Ho; [done|discriminate].
Qed.

Lemma searchFrom_regions_reachable_witness :
  match search two_bays_outcome with
  | Some s =>
      Forall (λ r, ∃ c, flag_at (visited_flag s) c = true ∧
                        (logged two_bays_outcome = [] →
                         cell_at (getCharMap (costmap_ two_bays_search)) c
                         = FREE_SPACE) ∧
                        r.1 ∈ nhood4 c (costmap_ two_bays_search)) (regions s)
  | None => returned two_bays_outcome = []
  end.
Proof.
  apply (@searchFrom_regions_reachable flat_tf2 x86_64_cast two_bays_search centre_pose).
  apply two_bays_outcome_ok.
Defined.

(** The weights of the cost and the minimum frontier size have no
    part in the search itself: two searchers over the same costmap with
    the same [max_frontier_size] visit the same cells, flag the same cells
    and build the same regions from a pose, and log the same; the weights
    and the minimum size decide only which regions are listed and at what
    cost. *)
Theorem searchFrom_weights {tf : Tf2} {uc : UnsignedCast} fs fs' pose o :
  costmap_ fs = costmap_ fs' → max_frontier_size_ fs = max_frontier_size_ fs' →
  searchFrom fs pose o →
  ∃ o', searchFrom fs' pose o' ∧ logged o' = logged o ∧
    match search o with
    | Some s =>
        ∃ s', search o' = Some s' ∧
          visited_flag s' = visited_flag s ∧ frontier_flag s' = frontier_flag s ∧
          regions s' = regions s ∧ frontier_list s' = accepted fs' (regions s)
    | None => search o' = None
    end.
Proof.
  intros Hc Hx [Hcell|mx my s log sorted Hcell Hd Hsort].
  - exists (mkOutcome [] fs' [RobotOutOfBounds] None). split; [|done].
    apply search_out_of_bounds. unfold pose_cell in *. by rewrite <- Hc.
  - destruct (discover_same_grid fs fs' pose mx my s log Hc Hx Hd)
      as (s' & Hd' & _ & Hv & Hf & Hr).
    exists (mkOutcome (insertion_sort cost_lt (frontier_list s'))
              (cache_costmap fs') log (Some s')).
    split; [|split; [done|]].
    + eapply search_completed; [|exact Hd'|apply std_sort_insertion_sort].
      unfold pose_cell in *. by rewrite <- Hc.
    + simpl. exists s'. split_and!; [done..|].
      destruct (discover_inv fs' pose mx my s' log Hd') as [Hinv _].
      by rewrite (sinv_list _ _ _ Hinv), accepted_cache_costmap, Hr.
Qed.

Lemma searchFrom_weights_witness :
  ∃ o', @searchFrom flat_tf2 x86_64_cast two_bays_reweighed centre_pose o' ∧
    logged o' = logged two_bays_outcome ∧
    match search two_bays_outcome with
    | Some s =>
        ∃ s', search o' = Some s' ∧
          visited_flag s' = visited_flag s ∧ frontier_flag s' = frontier_flag s ∧
          regions s' = regions s ∧
          frontier_list s' = accepted two_bays_reweighed (regions s)
    | None => search o' = None
    end.
Proof.
  apply (@searchFrom_weights flat_tf2 x86_64_cast two_bays_search two_bays_reweighed centre_pose).
  - reflexivity.
  - reflexivity.
  - apply two_bays_outcome_ok.
Defined.

(** A region of the seed alone has no closest cell, and with a distance
    weight of zero its cost is not a number: for every region built with
    [potential_scale] equal to zero, a [size] of 1 means that
    [min_distance] is still infinite and that [frontierCost] of the region
    is NaN, whatever the other weights. *)
Theorem frontierCost_of_lone_seed {tf : Tf2} fs seed pose (ff : list bool) :
  size_x (costmap_ fs) * size_y (costmap_ fs) ≤ length ff →
  (potential_scale_ fs =? 0)%float = true →
  ∃ b, buildNewFrontier fs seed pose ff = Some b ∧
    (Frontier.size (built_frontier b) = 1 →
     Frontier.min_distance (built_frontier b) = infinity ∧
     is_nan (frontierCost fs (built_frontier b)) = true).
Proof.
  intros Hlen Hzero.
  destruct (buildNewFrontier_total fs seed pose ff Hlen) as [b Hb].
  exists b. split; [done|]. intros Hsize.
  destruct (buildNewFrontier_ok fs seed pose ff b Hlen Hb)
    as [Hsz _ _ _ _ Hclosest _ _ _].
  assert (Hinf : Frontier.min_distance (built_frontier b) = infinity).
  { destruct Hclosest as [[? _]|(cell & Hin & _)]; [done|].
    rewrite Hsize in Hsz. destruct (built_cells b); [|done].
    by apply elem_of_nil in Hin. }
  split; [done|]. unfold frontierCost. rewrite Hinf.
  apply sub_nan_l, add_nan_r, mul_nan_l. by apply zero_mul_infinity.
Qed.

Lemma frontierCost_of_lone_seed_witness :
  ∃ b, @buildNewFrontier flat_tf2 (cache_costmap weightless_search) 4 corner_pose
         (<[4:=true]> (replicate 9 false)) = Some b ∧
    (Frontier.size (built_frontier b) = 1 →
     Frontier.min_distance (built_frontier b) = infinity ∧
     is_nan (frontierCost (cache_costmap weightless_search) (built_frontier b)) = true).
Proof.
  apply (@frontierCost_of_lone_seed flat_tf2 (cache_costmap weightless_search) 4
           corner_pose).
  - vm_compute. lia.
  - reflexivity.
Defined.

(** A minimum frontier size or a resolution that is not a number empties
    the result: the size test of [searchFrom] then fails for every region,
    and the list returned is empty whatever regions were built. *)
Theorem searchFrom_size_not_a_number {tf : Tf2} {uc : UnsignedCast} fs pose o :
  is_nan (min_frontier_size_ fs) = true ∨
  is_nan (getResolution (costmap_ fs)) = true →
  searchFrom fs pose o →
  returned o = [] ∧
  match search o with
  | Some s => frontier_list s = []
  | None => True
  end.
Proof.
  intros Hnan Ho.
  assert (Hmin : ∀ f, min_size_met (cache_costmap fs) f = false).
  { intros f. unfold min_size_met. simpl. destruct Hnan as [Hnan|Hnan].
    - by apply leb_nan_l.
    - by apply leb_nan_r, mul_nan_r. }
  destruct (search o) as [s|] eqn:Hs.
  - destruct (searchFrom_search_inv fs pose o s Ho Hs) as [Hinv _].
    destruct (searchFrom_searched fs pose o s Ho Hs) as (_ & _ & _ & _ & Hsort & _).
    pose proof (sinv_list _ _ _ Hinv) as Hlist.
    rewrite (accepted_none _ _ Hmin) in Hlist.
    split; [|done]. rewrite Hlist in Hsort. by apply std_sort_nil in Hsort.
  - split; [|done]. destruct Ho; [done|discriminate].
Qed.

(** A minimum frontier size that is not a number, and a resolution that is
    not a number. *)
Lemma searchFrom_size_not_a_number_witness :
  (returned (@outcome_of flat_tf2 x86_64_cast unset_search corner_pose) = [] ∧
   match search (@outcome_of flat_tf2 x86_64_cast unset_search corner_pose) with
   | Some s => frontier_list s = []
   | None => True
   end) ∧
  (returned (@outcome_of flat_tf2 x86_64_cast unscaled_search corner_pose) = [] ∧
   match search (@outcome_of flat_tf2 x86_64_cast unscaled_search corner_pose) with
   | Some s => frontier_list s = []
   | None => True
   end).
Proof.
  split.
  - apply (@searchFrom_size_not_a_number flat_tf2 x86_64_cast unset_search corner_pose).
    + left. reflexivity.
    + apply outcome_of_searchFrom.
  - apply (@searchFrom_size_not_a_number flat_tf2 x86_64_cast unscaled_search
             corner_pose).
    + right. reflexivity.
    + apply outcome_of_searchFrom.
Defined.

(** * Scenarios *)

(** Scenario A of the specification, searched: one frontier of size 1 is
    returned; its [middle] is the default point, not the coordinate
    (2.5, 0.5) of its cell, and its cost is infinite. *)
Lemma scenario_a_searched :
  @searchFrom flat_tf2 x86_64_cast scenario_a_search scenario_a_pose scenario_a_outcome ∧
  ∃ f, returned scenario_a_outcome = [f] ∧
       Frontier.size f = 1 ∧
       Frontier.initial f = Point.mk 2.5 0.5 0 ∧
       Frontier.middle f = Point0 ∧
       Frontier.cost f = Some infinity.
Proof.
  split; [apply scenario_a_outcome_ok|].
  eexists. split; [reflexivity|]. by vm_compute.
Qed.

(** Scenario C of the specification: with a minimum size above that of
    every region, here one and a half cells against a region of one cell,
    regions are built and the result is empty. *)
Lemma scenario_c_searched :
  ∃ o s, @searchFrom flat_tf2 x86_64_cast
           (unit_search 3 3 [0; 0; 0;  0; 255; 0;  0; 0; 0] 1.5 0) corner_pose o ∧
         search o = Some s ∧ length (regions s) = 1 ∧ returned o = [].
Proof.
  eexists. eexists. split; [apply outcome_of_searchFrom|]. by vm_compute.
Qed.

(** With a distance weight of zero the cost of a region of one cell is not
    a number: its infinite [min_distance] is multiplied by zero. *)
Lemma singleton_cost_nan :
  ∃ b, @buildNewFrontier flat_tf2 (cache_costmap weightless_search) 4 corner_pose
         (<[4:=true]> (replicate 9 false)) = Some b ∧
       is_nan (frontierCost (cache_costmap weightless_search) (built_frontier b)) = true.
Proof. eexists. split; [by vm_compute|]. by vm_compute. Qed.

(** Such a cost next to two costs that differ leaves the comparison short
    of a strict weak ordering: the precondition of [std::sort] can fail. *)
Lemma costs_need_not_be_ordered :
  @searchFrom flat_tf2 x86_64_cast three_columns_search east_pose three_columns_outcome ∧
  ∃ s, search three_columns_outcome = Some s ∧
       length (frontier_list s) = 3 ∧
       ¬ strict_weak_ordering cost_lt (frontier_list s).
Proof.
  split; [apply three_columns_outcome_ok|].
  eexists. split; [reflexivity|]. split; [reflexivity|].
  intros H. apply (bool_decide_pack _) in H. by vm_compute in H.
Qed.

(** The search of the grid with four runs, with unit weights: the regions
    are found in the order of their sizes 4, 2, 1, 3 and returned in the
    order 4, 2, 3, 1 of their costs, no two of which are equal. *)
Lemma four_runs_weighed_searched :
  @searchFrom flat_tf2 x86_64_cast four_runs_weighed west_pose
    four_runs_weighed_outcome ∧
  ∃ s, search four_runs_weighed_outcome = Some s ∧
       Frontier.size <$> frontier_list s = [4; 2; 1; 3] ∧
       Frontier.size <$> returned four_runs_weighed_outcome = [4; 2; 3; 1] ∧
       NoDup (Frontier.cost <$> returned four_runs_weighed_outcome) ∧
       Forall cost_is_number (frontier_list s).
Proof.
  split; [apply four_runs_weighed_outcome_ok|].
  eexists. split; [reflexivity|]. split; [reflexivity|]. split; [reflexivity|].
  split; by_computation.
Qed.

(** Where C++ leaves the conversion to [unsigned int] undefined, the
    bounds check of [worldToMap] tests what the build made of it.  On
    x86-64 a coordinate that is not a number converts to 0, and one that is
    2^32 cells to the right of cell (0, 0) wraps around to 0: such a pose
    passes the check, and the search runs from cell (0, 0) and returns the
    frontier of the grid. *)
Lemma undefined_conversion_passes_the_check :
  truncation (Point.x (Pose.position adrift_pose)) = None ∧
  truncation (Point.x (Pose.position far_pose)) = None ∧
  @pose_cell x86_64_cast island_search adrift_pose = Some (0, 0) ∧
  @pose_cell x86_64_cast island_search far_pose = Some (0, 0) ∧
  (∃ o f, @searchFrom flat_tf2 x86_64_cast island_search adrift_pose o ∧
          returned o = [f]) ∧
  (∃ o f, @searchFrom flat_tf2 x86_64_cast island_search far_pose o ∧
          returned o = [f]).
Proof.
  split_and!; try reflexivity.
  - eexists _, _. split; [apply outcome_of_searchFrom|]. by vm_compute.
  - eexists _, _. split; [apply outcome_of_searchFrom|]. by vm_compute.
Qed.

(** With a resolution that is not a number every coordinate of a pose
    converts as the build has it; on x86-64 the pose lands in cell (0, 0),
    the search runs and builds the region of the grid, which fails the
    minimum-size test: nothing is returned. *)
Lemma resolution_not_a_number_searched :
  ∃ o s, @searchFrom flat_tf2 x86_64_cast unscaled_search corner_pose o ∧
         search o = Some s ∧ length (regions s) = 1 ∧ returned o = [].
Proof.
  eexists. eexists. split; [apply outcome_of_searchFrom|]. by vm_compute.
Qed.

(** The diagonal run of three unknown cells, searched with a maximum
    frontier size of half a cell.  The region grown from cell 5 is stopped
    by the size test when cell 6 is pushed.  Cell 11 is a region of its
    own, the seed alone: the size test would hold of it, and is never
    made. *)
Lemma ridge_searched :
  @searchFrom flat_tf2 x86_64_cast ridge_search corner_pose ridge_outcome ∧
  ∃ s r1 r2, search ridge_outcome = Some s ∧ regions s = [r1; r2] ∧
    region_cells r1 = [5; 6] ∧ ¬ uncapped ridge_search r1 ∧
    region_cells r2 = [11] ∧ uncapped ridge_search r2 ∧
    max_size_reached ridge_search (Frontier.size (built_frontier r2.2)) = true.
Proof.
  split; [apply ridge_outcome_ok|].
  eexists _, _, _. split; [reflexivity|]. split; [reflexivity|].
  split; [reflexivity|]. split; [by vm_compute|].
  split; [reflexivity|]. split; reflexivity.
Qed.
